(** * A shallow embedding of the task-list application

    - [Markdown]: the markup formatter ([parseMarkdown], [convertTables],
      [processTable]). A JavaScript string is the sequence of its UTF-16
      code units, and every regular expression of the source is written
      out as the function its backtracking matcher computes.
    - [Adapter]: the promises of the IndexedDB helpers of main.js
      ([putToStore], [deleteFromStore], [clearStore], [getAllFromStore],
      [withStore]): the listeners each helper installs, run over the
      events the browser fires.
    - [Repo]: the task repository of main.js ([loadTodos], [addTodo],
      [updateTodo], [deleteTodo], [clearCompleted], [clearAllData],
      [exportTodosAsJSON]) as state passing over the object stores, the
      in-memory list and the clock. An object is taken by the values of
      its fields at the call; [updateTodo], which writes to the object it
      is given before it awaits the store, takes in addition the indices
      of the list that hold that very object. What the caller does to an
      object between two calls is not a step of the repository.
    - [Connection], [Settings]: [initDB], the promise of [withStore], and
      the settings and the theme of main.js ([setSetting], [getSetting],
      [setTheme], [getTheme]), the latter on a page that has the
      [data-theme] attribute beside the state of the repository.
    - [RepoFacts], [MarkdownFacts], [SettingsFacts], [RepoProperties],
      [MarkdownProperties]: the statements and their proofs. *)

From Stdlib Require Import ZArith NArith Ascii String.
From stdpp Require Import gmap strings list fin_maps sorting.

Local Open Scope N_scope.

(** ** Markup formatter (markdown.js) *)

Module Markdown.

(** A JavaScript string: its UTF-16 code units. *)
Abbreviation jsstring := (list N).

(** A literal of the source, character by character. *)
Definition lit (s : string) : jsstring :=
  (λ a, N_of_ascii a) <$> list_ascii_of_string s.

Definition LT : N := 60.      (* < *)
Definition GT : N := 62.      (* > *)
Definition STAR : N := 42.    (* * *)
Definition EQUALS : N := 61.  (* = *)
Definition LBRACK : N := 91.  (* [ *)
Definition RBRACK : N := 93.  (* ] *)
Definition LPAREN : N := 40.  (* ( *)
Definition RPAREN : N := 41.  (* ) *)
Definition QUOTE : N := 34.   (* double quote *)
Definition PIPE : N := 124.   (* | *)
Definition DASH : N := 45.    (* - *)
Definition COLON : N := 58.   (* : *)
Definition LF : N := 10.
Definition CR : N := 13.

(** LineTerminator of ECMAScript: what [.] does not match. *)
Definition is_line_terminator (c : N) : bool :=
  (c =? 10) || (c =? 13) || (c =? 8232) || (c =? 8233).

(** [\s], and what [trim] strips: WhiteSpace and LineTerminator. *)
Definition is_space (c : N) : bool :=
  (c =? 9) || (c =? 10) || (c =? 11) || (c =? 12) || (c =? 13) || (c =? 32)
  || (c =? 160) || (c =? 5760) || ((8192 <=? c) && (c <=? 8202))
  || (c =? 8232) || (c =? 8233) || (c =? 8239) || (c =? 8287)
  || (c =? 12288) || (c =? 65279).

Fixpoint drop_while (p : N → bool) (s : jsstring) : jsstring :=
  match s with
  | [] => []
  | c :: s' => if p c then drop_while p s' else s
  end.

Fixpoint take_while (p : N → bool) (s : jsstring) : jsstring :=
  match s with
  | [] => []
  | c :: s' => if p c then c :: take_while p s' else []
  end.

(** [s.includes(needle)] *)
Fixpoint starts_with (needle s : jsstring) : bool :=
  match needle, s with
  | [], _ => true
  | _ :: _, [] => false
  | a :: needle', c :: s' => (a =? c) && starts_with needle' s'
  end.

Fixpoint includes (needle s : jsstring) : bool :=
  starts_with needle s ||
  match s with
  | [] => false
  | _ :: s' => includes needle s'
  end.

(** *** [String.prototype.replace] with a global pattern

    [m at_start s] tries the pattern at one position: [s] is the subject
    from that position on and [at_start] says whether the position is
    index 0, where [^] matches. It gives the text that replaces the match
    and the subject after the match. The scan goes left to right; after a
    match it resumes behind the match ([skip] counts the characters of the
    match still to pass), elsewhere the character is copied. No pattern of
    the source matches the empty string. *)
Fixpoint replace_from (m : bool → jsstring → option (jsstring * jsstring))
    (at_start : bool) (skip : nat) (s : jsstring) : jsstring :=
  match s with
  | [] => []
  | c :: s' =>
      match skip with
      | S k => replace_from m false k s'
      | O =>
          match m at_start s with
          | Some (r, rest) =>
              r ++ replace_from m false (length s' - length rest) s'
          | None => c :: replace_from m false 0 s'
          end
      end
  end.

Definition replace_all (m : bool → jsstring → option (jsstring * jsstring))
    (s : jsstring) : jsstring :=
  replace_from m true 0 s.

(** [replace(/c/g, r)] for a single character [c]. *)
Definition char_at (c : N) (r : jsstring) (_ : bool) (s : jsstring)
    : option (jsstring * jsstring) :=
  match s with
  | x :: rest => if x =? c then Some (r, rest) else None
  | [] => None
  end.

Definition replace_char (c : N) (r : jsstring) (s : jsstring) : jsstring :=
  replace_all (char_at c r) s.

(** A literal piece of a pattern: strips it from the front of the subject. *)
Fixpoint expect (l s : jsstring) : option jsstring :=
  match l, s with
  | [], _ => Some s
  | _ :: _, [] => None
  | a :: l', c :: s' => if a =? c then expect l' s' else None
  end.

(** [(.*?)] followed by [close]: the shortest run of characters other than
    line terminators behind which [close] matches. *)
Fixpoint lazy_dots (close : jsstring → option jsstring) (s : jsstring)
    : option (jsstring * jsstring) :=
  match close s with
  | Some rest => Some ([], rest)
  | None =>
      match s with
      | [] => None
      | c :: s' =>
          if is_line_terminator c then None
          else match lazy_dots close s' with
               | Some (g, rest) => Some (c :: g, rest)
               | None => None
               end
      end
  end.

(** [(.+?)] followed by [close]: one character, then as [(.*?)]. *)
Definition lazy_dots1 (close : jsstring → option jsstring) (s : jsstring)
    : option (jsstring * jsstring) :=
  match s with
  | [] => None
  | c :: s' =>
      if is_line_terminator c then None
      else match lazy_dots close s' with
           | Some (g, rest) => Some (c :: g, rest)
           | None => None
           end
  end.

(** [/\*\*(.+?)\*\*/] replaced by [<strong>$1</strong>] *)
Definition bold_at (_ : bool) (s : jsstring) : option (jsstring * jsstring) :=
  s1 ← expect (lit "**") s;
  '(g, rest) ← lazy_dots1 (expect (lit "**")) s1;
  Some (lit "<strong>" ++ g ++ lit "</strong>", rest).

(** A star with the negative lookahead for a second star: a star that no
    star follows. *)
Definition lone_star (s : jsstring) : option jsstring :=
  match s with
  | c :: rest =>
      if c =? STAR then
        match rest with
        | d :: _ => if d =? STAR then None else Some rest
        | [] => Some rest
        end
      else None
  | [] => None
  end.

(** The italic pattern: group 1 is the start of the subject or one
    character other than a star, then a lone star, group 2 is a lazy
    non-empty run of [.], then a lone star; replaced by [$1<em>$2</em>].
    The first alternative, [^], is tried first and matches at index 0
    only; the second takes one character other than a star. *)
Definition italic_body (pre s : jsstring) : option (jsstring * jsstring) :=
  s1 ← lone_star s;
  '(g, rest) ← lazy_dots1 lone_star s1;
  Some (pre ++ lit "<em>" ++ g ++ lit "</em>", rest).

Definition italic_at (at_start : bool) (s : jsstring)
    : option (jsstring * jsstring) :=
  match (if at_start then italic_body [] s else None) with
  | Some r => Some r
  | None =>
      match s with
      | c :: s' => if c =? STAR then None else italic_body [c] s'
      | [] => None
      end
  end.

(** [/==(.*?)==/] replaced by [<mark>$1</mark>] *)
Definition highlight_at (_ : bool) (s : jsstring)
    : option (jsstring * jsstring) :=
  s1 ← expect (lit "==") s;
  '(g, rest) ← lazy_dots (expect (lit "==")) s1;
  Some (lit "<mark>" ++ g ++ lit "</mark>", rest).

(** A greedy [[class]+] that a character outside the class must follow:
    the longest run is the only one the pattern can use. *)
Definition greedy_run1 (p : N → bool) (s : jsstring)
    : option (jsstring * jsstring) :=
  match take_while p s with
  | [] => None
  | g => Some (g, drop_while p s)
  end.

(** The link pattern with the replacement function of the source: an
    opening bracket, group 1 a greedy non-empty run of characters other
    than the closing bracket, the closing bracket, an opening parenthesis,
    group 2 made of http, an optional s, a colon and two slashes and a
    greedy non-empty run of characters that are neither white space nor a
    closing parenthesis nor a double quote, then the closing
    parenthesis. *)
Definition url_char (c : N) : bool :=
  negb (is_space c) && negb (c =? RPAREN) && negb (c =? QUOTE).

Definition link_at (_ : bool) (s : jsstring) : option (jsstring * jsstring) :=
  s1 ← expect (lit "[") s;
  '(text, s2) ← greedy_run1 (λ c, negb (c =? RBRACK)) s1;
  s3 ← expect (lit "](") s2;
  s4 ← expect (lit "http") s3;
  '(scheme, s5) ← match expect (lit "s://") s4 with
                  | Some s5 => Some (lit "https://", s5)
                  | None => s5 ← expect (lit "://") s4; Some (lit "http://", s5)
                  end;
  '(tail, s6) ← greedy_run1 url_char s5;
  rest ← expect (lit ")") s6;
  let url := scheme ++ tail in
  let safeText := replace_char QUOTE (lit "&quot;") text in
  let safeUrl := replace_char QUOTE (lit "%22") url in
  Some (lit "<a href=" ++ [QUOTE] ++ safeUrl ++ [QUOTE]
          ++ lit " target=" ++ [QUOTE] ++ lit "_blank" ++ [QUOTE]
          ++ lit " rel=" ++ [QUOTE] ++ lit "noopener noreferrer" ++ [QUOTE]
          ++ lit ">" ++ safeText ++ lit "</a>",
        rest).

(** *** Tables *)

(** [text.split(/\r?\n/)]: a line feed, with the carriage return before it
    when there is one, separates two lines. *)
Fixpoint split_lines (s : jsstring) : list jsstring :=
  match s with
  | [] => [[]]
  | c :: s' =>
      if c =? LF then [] :: split_lines s'
      else
        match s' with
        | d :: s'' =>
            if (c =? CR) && (d =? LF) then [] :: split_lines s''
            else match split_lines s' with
                 | l :: ls => (c :: l) :: ls
                 | [] => [[c]]
                 end
        | [] => [[c]]
        end
  end.

(** [line.split("|")] *)
Fixpoint split_on (sep : N) (s : jsstring) : list jsstring :=
  match s with
  | [] => [[]]
  | c :: s' =>
      if c =? sep then [] :: split_on sep s'
      else match split_on sep s' with
           | l :: ls => (c :: l) :: ls
           | [] => [[c]]
           end
  end.

(** [parts.join(sep)] *)
Fixpoint join (sep : jsstring) (parts : list jsstring) : jsstring :=
  match parts with
  | [] => []
  | [p] => p
  | p :: ps => p ++ sep ++ join sep ps
  end.

(** [arr.slice(1, -1)]: without the first and the last element. *)
Definition slice_1_m1 {A} (l : list A) : list A :=
  take (length l - 2) (drop 1 l).

(** [c.trim()] *)
Definition trim (s : jsstring) : jsstring :=
  rev (drop_while is_space (rev (drop_while is_space s))).

(** The test of a table line: white space, a pipe, any characters other
    than line terminators, a pipe, white space, between the start and the
    end of the line. White space is never a pipe, so the first pipe is the
    first character behind the leading white space and the last pipe the
    last one before the trailing white space. *)
Definition is_table_line (line : jsstring) : bool :=
  match drop_while is_space line with
  | c :: body =>
      (c =? PIPE) &&
      match drop_while is_space (rev body) with
      | d :: mid => (d =? PIPE) && forallb (λ x, negb (is_line_terminator x)) mid
      | [] => false
      end
  | [] => false
  end.

(** The test of the separator line: white space, a pipe, then one or more
    cells, each made of white space, three or more dashes or colons, white
    space and a pipe, then white space up to the end of the line. The three
    kinds of characters are disjoint, so one pass decides it: [Lead] before
    the first pipe, [Gap n] behind a pipe with [n] cells closed so far,
    [Dashes k] inside a run of [k] dashes or colons, [Tail] between a run
    and the pipe that closes its cell. *)
Inductive sep_state := Lead | Gap (cells : nat) | Dashes (k : nat) (cells : nat)
  | Tail (cells : nat).

Definition is_dash (c : N) : bool := (c =? DASH) || (c =? COLON).

Fixpoint sep_scan (st : sep_state) (s : jsstring) : bool :=
  match s with
  | [] => match st with Gap (S _) => true | _ => false end
  | c :: s' =>
      match st with
      | Lead =>
          if is_space c then sep_scan Lead s'
          else if c =? PIPE then sep_scan (Gap 0) s' else false
      | Gap n =>
          if is_space c then sep_scan (Gap n) s'
          else if is_dash c then sep_scan (Dashes 1 n) s' else false
      | Dashes k n =>
          if is_dash c then sep_scan (Dashes (S k) n) s'
          else if (3 <=? k)%nat then
            if is_space c then sep_scan (Tail n) s'
            else if c =? PIPE then sep_scan (Gap (S n)) s' else false
          else false
      | Tail n =>
          if is_space c then sep_scan (Tail n) s'
          else if c =? PIPE then sep_scan (Gap (S n)) s' else false
      end
  end.

Definition is_separator_line (line : jsstring) : bool := sep_scan Lead line.

(** The cells of one row: the pieces between the pipes without the first
    and the last piece, each trimmed and wrapped in [tag]. *)
Definition row_cells (tag : string) (line : jsstring) : jsstring :=
  concat ((λ c, lit "<" ++ lit tag ++ lit ">" ++ trim c
                ++ lit "</" ++ lit tag ++ lit ">")
          <$> slice_1_m1 (split_on PIPE line)).

Definition processTable (buffer : list jsstring) : jsstring :=
  if (length buffer <? 2)%nat then join [LF] buffer
  else
    match buffer with
    | headerLine :: separatorLine :: dataLines =>
        if negb (is_separator_line separatorLine) then join [LF] buffer
        else
          let headerCells := row_cells "th" headerLine in
          let header := lit "<thead><tr>" ++ headerCells ++ lit "</tr></thead>" in
          let dataRows :=
            concat ((λ line, lit "<tr>" ++ row_cells "td" line ++ lit "</tr>")
                    <$> dataLines) in
          let body := lit "<tbody>" ++ dataRows ++ lit "</tbody>" in
          lit "<table>" ++ header ++ body ++ lit "</table>"
    | _ => join [LF] buffer
    end.

(** The loop of [convertTables] over the lines: [output] and [buffer] are
    the two arrays of the source, [push] appends. *)
Fixpoint table_loop (lines output buffer : list jsstring)
    : list jsstring * list jsstring :=
  match lines with
  | [] => (output, buffer)
  | line :: lines' =>
      if is_table_line line && (length buffer =? 0)%nat then
        table_loop lines' output (buffer ++ [line])
      else if (0 <? length buffer)%nat then
        if is_table_line line then
          table_loop lines' output (buffer ++ [line])
        else
          table_loop lines' (output ++ [processTable buffer] ++ [line]) []
      else
        table_loop lines' (output ++ [line]) buffer
  end.

Definition convertTables (text : jsstring) : jsstring :=
  let lines := split_lines text in
  let '(output, buffer) := table_loop lines [] [] in
  let output :=
    if (0 <? length buffer)%nat then output ++ [processTable buffer]
    else output in
  join [LF] output.

(** [parseMarkdown] on a string argument (any other argument gives the
    empty string at the first line of the source). *)
Definition parseMarkdown (md : jsstring) : jsstring :=
  match md with
  | [] => []
  | _ =>
      let html := replace_char GT (lit "&gt;") (replace_char LT (lit "&lt;") md) in
      let html := replace_all bold_at html in
      let html := replace_all italic_at html in
      let html := replace_all highlight_at html in
      let html := replace_all link_at html in
      convertTables html
  end.

(** *** Vocabulary of the statements *)

(** The three lines of the table example, with [sep] as the second
    line. *)
Definition table_input (sep : string) : jsstring :=
  lit "| A | B |" ++ [LF] ++ lit sep ++ [LF] ++ lit "| 1 | 2 |".

(** The first step of [parseMarkdown]. *)
Definition escape (md : jsstring) : jsstring :=
  replace_char GT (lit "&gt;") (replace_char LT (lit "&lt;") md).

(** [n] occurs in [s]: what [includes] decides. *)
Definition occurs_in (n s : jsstring) : Prop := ∃ a b, s = a ++ n ++ b.

(** The characters the passes look for: white space, the markers of the
    spans and of the links, the pipe, and the dash and the colon of the
    separator line. *)
Definition special (c : N) : bool :=
  is_space c || (c =? STAR) || (c =? EQUALS) || (c =? LBRACK) || (c =? RBRACK)
  || (c =? LPAREN) || (c =? RPAREN) || (c =? QUOTE) || (c =? PIPE)
  || (c =? DASH) || (c =? COLON).

(** A text without such characters. *)
Definition plain (n : jsstring) : Prop := Forall (λ c, special c = false) n.

(** A run of such characters. *)
Definition delimiter (ds : jsstring) : Prop :=
  ds ≠ [] ∧ Forall (λ c, special c = true) ds.

(** A closing pattern takes a delimiter off the front. *)
Definition closes (close : jsstring → option jsstring) : Prop :=
  ∀ x y, close x = Some y → ∃ ds, delimiter ds ∧ x = ds ++ y.

(** How the tags that the formatter writes begin behind their angle
    bracket: a slash, or the first letter of [a], [em], [mark], [table],
    [thead], [tbody], [tr], [th], [td], or the [st] of [strong]. *)
Definition tag_letter (c : N) : bool :=
  (c =? 47) || (c =? 97) || (c =? 101) || (c =? 109) || (c =? 116).

Definition tag_head_ok (rest : jsstring) : bool :=
  match rest with
  | c :: r =>
      tag_letter c ||
      ((c =? 115) && match r with d :: _ => d =? 116 | [] => false end)
  | [] => false
  end.

(** Every opening angle bracket of [s] begins like one of these tags. *)
Fixpoint tags_ok (s : jsstring) : bool :=
  match s with
  | [] => true
  | c :: s' => (if c =? LT then tag_head_ok s' else true) && tags_ok s'
  end.

Definition all_tags_ok (ls : list jsstring) : Prop :=
  Forall (λ l, tags_ok l = true) ls.

Definition some_has (n : jsstring) (ls : list jsstring) : Prop :=
  ∃ l, l ∈ ls ∧ occurs_in n l.

Abbreviation matcher := (bool → jsstring → option (jsstring * jsstring)).

(** What the patterns of the passes have in common: a match is not
    empty; it begins with a special character, or with one other
    character that the replacement keeps in front of a special one; the
    replacement of a match in a text with good tags has good tags; and a
    plain text that occurs in the subject at a match occurs in the
    replacement or behind the match. *)
Record matcher_ok (m : matcher) : Prop := {
  m_suffix : ∀ b s r rest, m b s = Some (r, rest) → ∃ x, x ≠ [] ∧ s = x ++ rest;
  m_start : ∀ b x s r rest, m b (x :: s) = Some (r, rest) →
    special x = true
    ∨ ∃ y s' r', s = y :: s' ∧ special y = true ∧ r = x :: r';
  m_tags : ∀ b s r rest, m b s = Some (r, rest) →
    tags_ok s = true → tags_ok r = true;
  m_needle : ∀ n b s r rest, plain n → n ≠ [] → m b s = Some (r, rest) →
    occurs_in n s → occurs_in n r ∨ occurs_in n rest;
}.

(** The pieces of the anchor that [link_at] writes around the url and
    the text. *)
Definition link_head : jsstring := lit "<a href=" ++ [QUOTE].
Definition link_attrs : jsstring :=
  [QUOTE] ++ lit " target=" ++ [QUOTE] ++ lit "_blank" ++ [QUOTE]
  ++ lit " rel=" ++ [QUOTE] ++ lit "noopener noreferrer" ++ [QUOTE] ++ lit ">".

(** One cell of [row_cells]. *)
Definition cell (tag : string) (c : jsstring) : jsstring :=
  lit "<" ++ lit tag ++ lit ">" ++ trim c ++ lit "</" ++ lit tag ++ lit ">".

Definition escaped_script : jsstring := lit "&lt;script&gt;".

End Markdown.

(** ** The IndexedDB helpers of main.js *)

Module Adapter.

(** What a promise is rejected with: an [Error] thrown by the repository
    with its message, the [DOMException] a request or a transaction
    reports, with its name, or [null]. *)
Inductive error := Error (msg : string) | DOMException (name : string) | Null.

#[global] Instance error_eq_dec : EqDecision error.
Proof. solve_decision. Defined.

Inductive promise (A : Type) :=
  | Pending
  | Resolved (a : A)
  | Rejected (e : error).
Arguments Pending {A}.
Arguments Resolved {A} a.
Arguments Rejected {A} e.

(** [resolve] and [reject] settle a pending promise; once it is settled
    they do nothing. *)
Definition resolve {A} (a : A) (p : promise A) : promise A :=
  match p with Pending => Resolved a | _ => p end.

Definition reject {A} (e : error) (p : promise A) : promise A :=
  match p with Pending => Rejected e | _ => p end.

(** The events the browser fires for one request in its own transaction:
    on the request ([success], [error]) and on the transaction
    ([complete], [error], [abort]). [ReqError] carries the name of
    [req.error] and [TxAbort] the name of [tx.error]. [TxError] is the
    error event of a request as it reaches the transaction, and carries
    what [tx.error] is at that moment: [null] ([None]) when the request
    has failed, since the transaction is aborted, and its error set, only
    behind the event; the name of the error of the transaction when the
    request fails because the transaction is being aborted. *)
Inductive event :=
  | ReqSuccess
  | ReqError (name : string)
  | TxComplete
  | TxError (tx_error : option string)
  | TxAbort (name : string).

#[global] Instance event_eq_dec : EqDecision event.
Proof. solve_decision. Defined.

(** The listeners a helper installs, as the effect of one event on the
    promise the helper returns. *)
Definition listeners (A : Type) := event → promise A → promise A.

Definition settle {A} (h : listeners A) (evs : list event) : promise A :=
  fold_left (λ p ev, h ev p) evs Pending.

(** [req.onsuccess = () => resolve(req.result)] and
    [req.onerror = () => reject(req.error)]: the listeners of
    [getAllFromStore], [putToStore], [deleteFromStore] and [clearStore].
    Nothing listens on the transaction. *)
Definition request_listeners {A} (result : A) : listeners A :=
  λ ev p,
    match ev with
    | ReqSuccess => resolve result p
    | ReqError name => reject (DOMException name) p
    | _ => p
    end.

(** The listeners of [withStore]: [tx.oncomplete] resolves and
    [tx.onerror] rejects with [tx.error] as it is then, each once
    ([called]); nothing listens for [abort], and the request of the
    callback has no listener of its own. *)
Definition withStore_listeners : listeners unit :=
  λ ev p,
    match ev with
    | TxComplete => resolve () p
    | TxError (Some name) => reject (DOMException name) p
    | TxError None => reject Null p
    | _ => p
    end.

(** A readwrite transaction changes the store when it completes. *)
Definition committed (evs : list event) : bool :=
  bool_decide (TxComplete ∈ evs).

(** How the browser behaves during one call of a helper: whether the
    request that opens the database fails (it is only made while no
    connection is cached), and the events on the request and its
    transaction. *)
Record run := Run { open_error : option string; events : list event }.

(** The run in which everything goes well. *)
Definition ok_run : run := Run None [ReqSuccess; TxComplete].

End Adapter.

(** ** The task repository of main.js *)

Module Repo.
Import Adapter.

Local Open Scope Z_scope.

(** A task object. A field that is [None] is a property the object does
    not have ([undefined]). A timestamp is the ISO string of
    [toISOString], held as the time value it denotes (milliseconds since
    the epoch); the empty string is [None] as well. *)
Record task := Task {
  id : option string;
  title : option string;
  description : option string;
  notes : option string;
  priority : option string;
  completed : option bool;
  selected : option bool;
  createdAt : option Z;
  updatedAt : option Z;
}.

#[global] Instance task_eq_dec : EqDecision task.
Proof. solve_decision. Defined.

Definition set_updatedAt (v : option Z) (t : task) : task :=
  Task (id t) (title t) (description t) (notes t) (priority t)
       (completed t) (selected t) (createdAt t) v.

(** A record of the settings store. *)
Record setting := Setting { key : string; value : string }.

(** The module state: the cached connection [db], the in-memory list
    [todos], the two object stores of the database, [localStorage], and
    the number of times the clock has been read. *)
Record state := State {
  db : bool;
  todos : list task;
  idb_todos : gmap string task;
  idb_settings : gmap string setting;
  localStorage : gmap string string;
  ticks : nat;
}.

Definition set_db (v : bool) (s : state) : state :=
  State v (todos s) (idb_todos s) (idb_settings s) (localStorage s) (ticks s).
Definition set_todos (v : list task) (s : state) : state :=
  State (db s) v (idb_todos s) (idb_settings s) (localStorage s) (ticks s).
Definition set_idb_todos (v : gmap string task) (s : state) : state :=
  State (db s) (todos s) v (idb_settings s) (localStorage s) (ticks s).
Definition set_idb_settings (v : gmap string setting) (s : state) : state :=
  State (db s) (todos s) (idb_todos s) v (localStorage s) (ticks s).
Definition set_localStorage (v : gmap string string) (s : state) : state :=
  State (db s) (todos s) (idb_todos s) (idb_settings s) v (ticks s).
Definition set_ticks (v : nat) (s : state) : state :=
  State (db s) (todos s) (idb_todos s) (idb_settings s) (localStorage s) v.

(** An asynchronous function: from the state to the promise it leaves
    and the state it leaves. *)
Definition M (A : Type) : Type := state → promise A * state.

#[global] Instance M_ret : MRet M := λ A a s, (Resolved a, s).

(** [await]: go on with the value when the promise resolves, reject with
    its error when it rejects, and never go on while it is pending. *)
#[global] Instance M_bind : MBind M := λ A B f m s,
  match m s with
  | (Resolved a, s') => f a s'
  | (Rejected e, s') => (Rejected e, s')
  | (Pending, s') => (Pending, s')
  end.

Definition throw {A} (e : error) : M A := λ s, (Rejected e, s).

(** [try { m } catch (err) { h err }] *)
Definition try_catch {A} (m : M A) (h : error → M A) : M A := λ s,
  match m s with
  | (Rejected e, s') => h e s'
  | r => r
  end.

Definition get {A} (f : state → A) : M A := λ s, (Resolved (f s), s).
Definition modify (f : state → state) : M unit := λ s, (Resolved (), f s).

(** The promise a helper leaves once the events of the run have fired. *)
Definition settled {A} (p : promise A) : M A := λ s, (p, s).

(** An object store of the database as the helpers name it: where it
    lives in the state, and its key path. *)
Record store_name (R : Type) := StoreName {
  get_store : state → gmap string R;
  set_store : gmap string R → state → state;
  key_path : R → option string;
}.
Arguments get_store {R}.
Arguments set_store {R}.
Arguments key_path {R}.

Definition TODOS_STORE : store_name task :=
  StoreName task idb_todos set_idb_todos id.
Definition SETTINGS_STORE : store_name setting :=
  StoreName setting idb_settings set_idb_settings (λ r, Some (key r)).

(** [openDB]: the cached connection, or a request to open the database
    whose success caches the connection. *)
Definition openDB (r : run) : M unit := λ s,
  if db s then (Resolved (), s)
  else match open_error r with
       | Some name => (Rejected (DOMException name), s)
       | None => (Resolved (), set_db true s)
       end.

(** What [store.getAll()] gives: the records in the order of their keys,
    strings being compared character by character. *)
Definition records {R} (m : gmap string R) : list R :=
  (merge_sort (λ a b : string * R, (a.1 ≤ b.1)%string) (map_to_list m)).*2.

Definition getAllFromStore {R} (storeName : store_name R) (r : run)
    : M (list R) :=
  _ ← openDB r;
  result ← get (λ s, records (get_store storeName s));
  settled (settle (request_listeners result) (events r)).

(** [store.put(value)] throws a [DataError] when the key path gives no
    key; otherwise the record is written when the transaction completes,
    and the promise follows the listeners. *)
Definition putToStore {R} (storeName : store_name R) (value : R) (r : run)
    : M string :=
  _ ← openDB r;
  match key_path storeName value with
  | None => throw (DOMException "DataError")
  | Some k =>
      _ ← modify (λ s,
            if committed (events r)
            then set_store storeName (<[k := value]> (get_store storeName s)) s
            else s);
      settled (settle (request_listeners k) (events r))
  end.

Definition deleteFromStore {R} (storeName : store_name R)
    (k : option string) (r : run) : M unit :=
  _ ← openDB r;
  match k with
  | None => throw (DOMException "DataError")
  | Some k =>
      _ ← modify (λ s,
            if committed (events r)
            then set_store storeName (delete k (get_store storeName s)) s
            else s);
      settled (settle (request_listeners ()) (events r))
  end.

Definition clearStore {R} (storeName : store_name R) (r : run) : M unit :=
  _ ← openDB r;
  _ ← modify (λ s,
        if committed (events r) then set_store storeName ∅ s else s);
  settled (settle (request_listeners ()) (events r)).

(** Truthiness of a string property: present and not empty. *)
Definition truthy (o : option string) : bool :=
  match o with
  | Some s => negb (String.eqb s "")
  | None => false
  end.

(** [o || d] on a string property *)
Definition or_else (o : option string) (d : string) : string :=
  match o with
  | Some s => if String.eqb s "" then d else s
  | None => d
  end.

(** [!!o] on a boolean property *)
Definition to_bool (o : option bool) : bool :=
  match o with Some b => b | None => false end.

(** [String(t.id)] *)
Definition String_ (o : option string) : string :=
  match o with Some s => s | None => "undefined" end.

Section Clock.

(** The reading of the system clock at its [n]-th use. *)
Context (clock : nat → Z).

(** [new Date().toISOString()] *)
Definition now : M Z := λ s,
  (Resolved (clock (ticks s)), set_ticks (S (ticks s)) s).

(** The callback of [map] in [loadTodos]; the clock is read only where a
    timestamp is missing. *)
Definition normalize (t : task) : M task :=
  c ← match createdAt t with Some c => mret c | None => now end;
  u ← match updatedAt t with
      | Some u => mret u
      | None => match createdAt t with Some c => mret c | None => now end
      end;
  mret (Task (Some (String_ (id t)))
             (Some (or_else (title t) ""))
             (Some (or_else (description t) ""))
             (Some (or_else (notes t) ""))
             (Some (or_else (priority t) "medium"))
             (Some (to_bool (completed t)))
             (Some (to_bool (selected t)))
             (Some c) (Some u)).

(** The time value of [new Date(t.createdAt)]; [normalize] leaves no item
    without its [createdAt]. *)
Definition created (t : task) : Z := default 0 (createdAt t).

(** [todos.sort((a, b) => new Date(b.createdAt) - new Date(a.createdAt))]:
    newest first, and, the sort being stable, items of equal [createdAt]
    in the order they had. *)
Fixpoint insert_desc (x : task) (l : list task) : list task :=
  match l with
  | [] => [x]
  | y :: l' =>
      if created y <=? created x then x :: l else y :: insert_desc x l'
  end.

Definition sort_desc (l : list task) : list task := foldr insert_desc [] l.

Definition loadTodos (r : run) : M (list task) :=
  try_catch
    (result ← getAllFromStore TODOS_STORE r;
     ts ← mapM normalize result;
     let sorted := sort_desc ts in
     _ ← modify (set_todos sorted);
     mret sorted)
    (λ err, _ ← modify (set_todos []); mret []).

Definition getTodos : M (list task) := get todos.

(** [!todo || !todo.id] *)
Definition has_id (todo : option task) : bool :=
  match todo with Some t => truthy (id t) | None => false end.

Definition addTodo (todo : option task) (r : run) : M task :=
  match todo with
  | Some t =>
      if negb (truthy (id t)) then throw (Error "todo must have an id")
      else
        _ ← putToStore TODOS_STORE t r;
        _ ← modify (λ s, set_todos (t :: todos s) s);
        mret t
  | None => throw (Error "todo must have an id")
  end.

(** [todos.findIndex((t) => t.id === todo.id)] *)
Fixpoint findIndex (i : option string) (l : list task) : option nat :=
  match l with
  | [] => None
  | t :: l' =>
      if bool_decide (id t = i) then Some O else S <$> findIndex i l'
  end.

(** The in-memory list once the object that sits at the indices [listed]
    has the fields of [t]. *)
Definition stamp_listed (t : task) (listed : list nat) (l : list task)
    : list task :=
  foldr (λ j l, <[j := t]> l) l listed.

(** [updateTodo]. The object passed is taken by its fields at the call
    and by [listed], the indices of the in-memory list that hold this
    very object: none for an object of the caller's own, and its places
    in the list for an item that the caller has from the list. The
    assignment to [todo.updatedAt] is made on the object, so it shows at
    these indices at once, before the write and whatever becomes of
    it. *)
Definition updateTodo (todo : option task) (listed : list nat) (r : run)
    : M task :=
  match todo with
  | Some t =>
      if negb (truthy (id t)) then throw (Error "todo must have an id")
      else
        n ← now;
        let t := set_updatedAt (Some n) t in
        _ ← modify (λ s, set_todos (stamp_listed t listed (todos s)) s);
        _ ← putToStore TODOS_STORE t r;
        _ ← modify (λ s,
              match findIndex (id t) (todos s) with
              | Some idx => set_todos (<[idx := t]> (todos s)) s
              | None => set_todos (t :: todos s) s
              end);
        mret t
  | None => throw (Error "todo must have an id")
  end.

Definition deleteTodo (i : option string) (r : run) : M unit :=
  if negb (truthy i) then throw (Error "id required")
  else
    _ ← deleteFromStore TODOS_STORE i r;
    modify (λ s, set_todos (filter (λ t, id t ≠ i) (todos s)) s).

(** The loop of [clearCompleted]: one [deleteFromStore] after the other,
    the [n]-th one in the run [rs n]. *)
Fixpoint delete_each (toDelete : list (option string)) (rs : nat → run)
    (n : nat) : M unit :=
  match toDelete with
  | [] => mret ()
  | i :: rest =>
      _ ← deleteFromStore TODOS_STORE i (rs n);
      delete_each rest rs (S n)
  end.

Definition clearCompleted (rs : nat → run) : M unit :=
  toDelete ← get (λ s, id <$> filter (λ t, to_bool (completed t) = true) (todos s));
  _ ← delete_each toDelete rs O;
  modify (λ s, set_todos (filter (λ t, to_bool (completed t) = false) (todos s)) s).

(** [localStorage.clear()] inside [try]: [ls_ok] says whether the browser
    lets it through. *)
Definition clearAllData (r1 r2 : run) (ls_ok : bool) : M unit :=
  _ ← clearStore TODOS_STORE r1;
  _ ← clearStore SETTINGS_STORE r2;
  _ ← modify (set_todos []);
  modify (λ s, if ls_ok then set_localStorage ∅ s else s).

(** The items [exportTodosAsJSON] serializes: [ids] is [None] when the
    argument is omitted or [null]. *)
Definition export_items (ids : option (list string)) (l : list task)
    : list task :=
  match ids with
  | Some ((_ :: _) as ids) => filter (λ t, id t ∈ Some <$> ids) l
  | _ => l
  end.

Record Blob := { blob_text : string; blob_type : string }.

(** [JSON.stringify(items, null, 2)] is the browser's. *)
Context (JSON_stringify : list task → string).

Definition exportTodosAsJSON (ids : option (list string)) : M Blob :=
  l ← get todos;
  let items := export_items ids l in
  let json := JSON_stringify items in
  mret {| blob_text := json; blob_type := "application/json" |}.

End Clock.

(** *** Vocabulary of the statements *)

(** A call of the repository, with the runs of its storage requests. *)
Inductive call :=
  | CallLoad (r : run)
  | CallAdd (todo : option task) (r : run)
  | CallUpdate (todo : option task) (listed : list nat) (r : run)
  | CallDelete (i : option string) (r : run)
  | CallClearCompleted (rs : nat → run)
  | CallClearAll (r1 r2 : run) (ls_ok : bool).

(** The state a call leaves, whatever its promise. *)
Definition exec (clock : nat → Z) (c : call) (s : state) : state :=
  match c with
  | CallLoad r => (loadTodos clock r s).2
  | CallAdd todo r => (addTodo todo r s).2
  | CallUpdate todo listed r => (updateTodo clock todo listed r s).2
  | CallDelete i r => (deleteTodo i r s).2
  | CallClearCompleted rs => (clearCompleted rs s).2
  | CallClearAll r1 r2 ls_ok => (clearAllData r1 r2 ls_ok s).2
  end.

Definition run_calls (clock : nat → Z) (cs : list call) (s : state) : state :=
  fold_left (λ s c, exec clock c s) cs s.

(** [updatedAt >= createdAt], both present. *)
Definition stamped (t : task) : Prop :=
  match createdAt t, updatedAt t with
  | Some c, Some u => c ≤ u
  | _, _ => False
  end.

(** A stored record that [loadTodos] turns into a stamped item: it has
    its [createdAt], and its [updatedAt], when it has one, is not
    earlier. *)
Definition storable (t : task) : Prop :=
  match createdAt t, updatedAt t with
  | Some c, Some u => c ≤ u
  | Some c, None => True
  | None, _ => False
  end.

(** What the caller owes for the timestamps at a call made in the state
    [s]: an item with an id that is added is stamped, and an item with an
    id that is updated was not created after the reading of the clock at
    this call. *)
Definition admissible (clock : nat → Z) (s : state) (c : call) : Prop :=
  match c with
  | CallAdd (Some t) _ => truthy (id t) = true → stamped t
  | CallUpdate (Some t) _ _ =>
      truthy (id t) = true →
      ∃ c, createdAt t = Some c ∧ c ≤ clock (ticks s)
  | _ => True
  end.

(** Every call of a sequence is admissible in the state it is made in. *)
Fixpoint admissible_run (clock : nat → Z) (cs : list call) (s : state)
    : Prop :=
  match cs with
  | [] => True
  | c :: cs' => admissible clock s c ∧ admissible_run clock cs' (exec clock c s)
  end.

(** The timestamps of a state: the items of the list are stamped and the
    records of the object store are storable. *)
Definition store_ok (m : gmap string task) : Prop :=
  map_Forall (λ (_ : string) (t : task), storable t) m.

Definition timestamps_ok (s : state) : Prop :=
  Forall stamped (todos s) ∧ store_ok (idb_todos s).

(** An item with every field but [updatedAt] as [loadTodos] leaves it: a
    non-empty [id] and [priority], and the other fields present. *)
Definition populated (t : task) : Prop :=
  truthy (id t) = true ∧ is_Some (title t) ∧ is_Some (description t)
  ∧ is_Some (notes t) ∧ truthy (priority t) = true
  ∧ is_Some (completed t) ∧ is_Some (selected t) ∧ is_Some (createdAt t).

Definition full (t : task) : Prop := populated t ∧ is_Some (updatedAt t).

(** The in-memory list and the object store hold the same full items:
    every record is stored under its id, and the records are the items of
    the list up to their order. *)
Definition synced (s : state) : Prop :=
  Forall full (todos s)
  ∧ (∀ k t, idb_todos s !! k = Some t → id t = Some k)
  ∧ (map_to_list (idb_todos s)).*2 ≡ₚ todos s.

(** Newest first. *)
Definition newest_first (l : list task) : Prop :=
  StronglySorted (λ a b, created b ≤ created a) l.

(** A sequence of calls of [add], [update] and [delete] that all resolve,
    whose transactions all complete, whose added items are full and carry
    an id that is not in the list, and whose updated items are populated
    and, where they are objects of the list, sit there under their
    id. *)
Inductive session (clock : nat → Z) : state → list call → state → Prop :=
  | session_nil s : session clock s [] s
  | session_add s t r s' cs s'' :
      full t → (∀ x, x ∈ todos s → id x ≠ id t) →
      committed (events r) = true →
      addTodo (Some t) r s = (Resolved t, s') →
      session clock s' cs s'' →
      session clock s (CallAdd (Some t) r :: cs) s''
  | session_update s t t' listed r s' cs s'' :
      populated t →
      (∀ j, j ∈ listed → ∃ x, todos s !! j = Some x ∧ id x = id t) →
      committed (events r) = true →
      updateTodo clock (Some t) listed r s = (Resolved t', s') →
      session clock s' cs s'' →
      session clock s (CallUpdate (Some t) listed r :: cs) s''
  | session_delete s i r s' cs s'' :
      committed (events r) = true →
      deleteTodo i r s = (Resolved (), s') →
      session clock s' cs s'' →
      session clock s (CallDelete i r :: cs) s''.

(** The state of a fresh page on an empty database. *)
Definition initial : state := State false [] ∅ ∅ ∅ 0.

(** Unfolds the plumbing of [M]. *)
Ltac run_m :=
  unfold mbind, M_bind, mret, M_ret, throw, modify, get, settled, try_catch;
  simpl.

(** An item as the presentation layer builds it, for the examples. *)
Definition sample (i : string) (ti : string) (c u : Z) : task :=
  Task (Some i) (Some ti) (Some "") (Some "") (Some "medium")
       (Some false) (Some false) (Some c) (Some u).

End Repo.

(** ** The connection and the transaction helper (main.js) *)

Module Connection.
Import Adapter Repo.

(** [initDB] *)
Definition initDB (r : run) : M unit := openDB r.

(** The promise of [withStore]: the listeners are installed on the
    transaction, then the callback runs. The callback is taken by what it
    throws, if it throws: the promise is then rejected with that before
    any event fires. *)
Definition withStore (thrown : option error) (r : run) : M unit :=
  _ ← openDB r;
  settled (fold_left (λ p ev, withStore_listeners ev p) (events r)
             (match thrown with Some err => Rejected err | None => Pending end)).

(** [setSetting]: [!key] holds of a key that is missing or empty. *)

End Connection.

(** ** Settings and theme (main.js) *)

Module Settings.
Import Adapter Repo.

Definition setSetting (k : option string) (v : string) (r : run) : M setting :=
  match k with
  | Some k =>
      if String.eqb k "" then throw (Error "setting key required")
      else
        let payload := Setting k v in
        _ ← putToStore SETTINGS_STORE payload r;
        mret payload
  | None => throw (Error "setting key required")
  end.

(** [all.find((r) => r.key === key)] *)
Definition find_key (k : string) (all : list setting) : option setting :=
  List.find (λ rec, String.eqb (key rec) k) all.

(** [getSetting]: [null] is [None]. *)
Definition getSetting (k : option string) (r : run) : M (option string) :=
  match k with
  | Some k =>
      if String.eqb k "" then mret None
      else
        all ← getAllFromStore SETTINGS_STORE r;
        let rec := find_key k all in
        mret (value <$> rec)
  | None => mret None
  end.

(** Every record of the settings store is stored under its [key], the
    key path of the store. *)
Definition settings_keyed (s : state) : Prop :=
  ∀ k rec, idb_settings s !! k = Some rec → key rec = k.

(** The page: the module state and the [data-theme] attribute of the
    document element. *)
Record page := Page { repo : state; data_theme : option string }.

(** An asynchronous function on the page. *)
Definition P (A : Type) : Type := page → promise A * page.

#[global] Instance P_ret : MRet P := λ A a pg, (Resolved a, pg).

#[global] Instance P_bind : MBind P := λ A B f m pg,
  match m pg with
  | (Resolved a, pg') => f a pg'
  | (Rejected e, pg') => (Rejected e, pg')
  | (Pending, pg') => (Pending, pg')
  end.

(** A function of the repository, run on the page. *)
Definition on_repo {A} (m : M A) : P A := λ pg,
  let '(p, s) := m (repo pg) in (p, Page s (data_theme pg)).

Definition P_try_catch {A} (m : P A) (h : error → P A) : P A := λ pg,
  match m pg with
  | (Rejected e, pg') => h e pg'
  | r => r
  end.

(** [localStorage.setItem(k, v)] inside [try]: [ls_ok] says whether the
    browser lets it through. *)
Definition localStorage_setItem (ls_ok : bool) (k v : string) : M unit :=
  modify (λ s, if ls_ok then set_localStorage (<[k := v]> (localStorage s)) s
               else s).

(** [localStorage.getItem(k)] inside [try]; what [value] is afterwards. *)
Definition localStorage_getItem (ls_ok : bool) (k : string) : M (option string) :=
  get (λ s, if ls_ok then localStorage s !! k else None).

(** [setTheme]: the write, with [localStorage] behind it when the write
    is rejected, then the effective theme on the document element.
    [prefersDark] is what the media query of the browser answers. *)
Definition setTheme (themeName : string) (r : run) (ls_ok prefersDark : bool)
    : P string :=
  _ ← P_try_catch
        (_ ← on_repo (setSetting (Some "theme") themeName r); mret ())
        (λ e, on_repo (localStorage_setItem ls_ok "theme" themeName));
  let effective :=
    if String.eqb themeName "auto"
    then (if prefersDark then "dark" else "light")
    else themeName in
  _ ← (λ pg, (Resolved (), Page (repo pg) (Some effective))) : P unit;
  mret effective.

(** [getTheme]: [localStorage] is read when the read of the store is
    rejected, and only then. *)
Definition getTheme (r : run) (ls_ok : bool) : M string :=
  v ← try_catch (getSetting (Some "theme") r)
        (λ e, localStorage_getItem ls_ok "theme");
  mret (or_else v "light").

End Settings.

(** ** Further vocabulary of the statements *)

Module Terms.
Import Markdown Adapter Repo.

(** An item as [loadTodos] leaves it: every field present, and a
    [priority] that is not empty. *)
Definition normal (t : task) : Prop :=
  is_Some (id t) ∧ is_Some (title t) ∧ is_Some (description t)
  ∧ is_Some (notes t) ∧ truthy (priority t) = true
  ∧ is_Some (completed t) ∧ is_Some (selected t)
  ∧ is_Some (createdAt t) ∧ is_Some (updatedAt t).

(** The characters that a pass behind the escaping reacts to: the star,
    the equals sign, the opening bracket, the pipe, and the carriage
    return that the split into lines may drop. *)
Definition is_markup (c : N) : bool :=
  ((c =? STAR) || (c =? EQUALS) || (c =? LBRACK) || (c =? PIPE) || (c =? CR))%N.

(** A text without such characters. *)
Definition inert (s : jsstring) : Prop := Forall (λ c, is_markup c = false) s.

(** A text without line terminators: what a run of [.] can match. *)
Definition one_line (s : jsstring) : Prop :=
  Forall (λ c, is_line_terminator c = false) s.

(** The tags that the formatter writes, each without its opening angle
    bracket; the tag of an anchor up to the scheme of its address. *)
Definition span_tags : list jsstring :=
  [lit "strong>"; lit "/strong>"; lit "em>"; lit "/em>";
   lit "mark>"; lit "/mark>"].

Definition anchor_tag (scheme : string) : jsstring :=
  lit "a href=" ++ [QUOTE] ++ lit scheme.

Definition own_tags : list jsstring :=
  span_tags
  ++ [anchor_tag "http://"; anchor_tag "https://"; lit "/a>"]
  ++ [lit "table>"; lit "/table>"; lit "thead>"; lit "/thead>";
      lit "tbody>"; lit "/tbody>"; lit "tr>"; lit "/tr>";
      lit "th>"; lit "/th>"; lit "td>"; lit "/td>"].

(** [rest] begins with one of the [tags]. *)
Definition opens (tags : list jsstring) (rest : jsstring) : bool :=
  existsb (λ tag, starts_with tag rest) tags.

(** Every opening angle bracket of [s] is followed by one of the
    [tags]. *)
Fixpoint only_tags (tags : list jsstring) (s : jsstring) : bool :=
  match s with
  | [] => true
  | c :: s' => (if c =? LT then opens tags s' else true) && only_tags tags s'
  end.

End Terms.

(** ** Facts about the IndexedDB helpers and the repository *)

Module RepoFacts.
Import Adapter Repo.

Local Open Scope Z_scope.

(** A settled promise stays as it is. *)
Lemma settle_from_resolved {A} (h : listeners A) (a : A) evs :
  (∀ ev p, p ≠ Pending → h ev p = p) →
  fold_left (λ p ev, h ev p) evs (Resolved a) = Resolved a.
Proof.
  intros Hh. induction evs as [|ev evs IH]; simpl; [done|].
  rewrite Hh by done. apply IH.
Qed.

Lemma request_listeners_settled {A} (a : A) ev p :
  p ≠ Pending → request_listeners a ev p = p.
Proof. intros Hp. destruct ev, p; simpl; congruence. Qed.

Lemma settle_request_success {A} (a : A) evs :
  settle (request_listeners a) (ReqSuccess :: evs) = Resolved a.
Proof.
  unfold settle. simpl. apply settle_from_resolved.
  intros. by apply request_listeners_settled.
Qed.

Example withStore_waits_for_the_transaction name :
  settle withStore_listeners [ReqSuccess] = Pending
  ∧ settle withStore_listeners [ReqSuccess; TxComplete] = Resolved ()
  ∧ settle withStore_listeners [ReqError name; TxError None; TxAbort name]
    = Rejected Null
  ∧ settle withStore_listeners [ReqSuccess; TxAbort name] = Pending.
Proof. done. Qed.

Lemma set_db_true_id s : db s = true → set_db true s = s.
Proof. destruct s; simpl; intros ->; done. Qed.

(** What [openDB] leaves when the open request succeeds. *)
Lemma openDB_ok evs s : openDB (Run None evs) s = (Resolved (), set_db true s).
Proof.
  unfold openDB. destruct (db s) eqn:E; simpl; [|done].
  by rewrite set_db_true_id.
Qed.

(** C1: [putToStore], [deleteFromStore], [clearStore] and
    [getAllFromStore] resolve as soon as the request signals success: in
    a run where the request succeeds and the transaction then aborts, the
    promise of each helper is resolved although nothing was written. The
    claim asks for a rejection there. *)
Theorem c1_helpers_resolve_on_aborted_transaction
    (s : state) (k : string) (t : task) (name : string) :
  let r := Run None [ReqSuccess; TxAbort name] in
  let t := Task (Some k) (title t) (description t) (notes t) (priority t)
                (completed t) (selected t) (createdAt t) (updatedAt t) in
  putToStore TODOS_STORE t r s = (Resolved k, set_db true s)
  ∧ deleteFromStore TODOS_STORE (Some k) r s = (Resolved (), set_db true s)
  ∧ clearStore TODOS_STORE r s = (Resolved (), set_db true s)
  ∧ getAllFromStore TODOS_STORE r s
    = (Resolved (records (idb_todos s)), set_db true s).
Proof.
  intros r t'. subst r t'.
  unfold putToStore, deleteFromStore, clearStore, getAllFromStore.
  unfold mbind, M_bind. rewrite !openDB_ok. simpl.
  unfold modify, settled, get. simpl. done.
Qed.


(** *** The helpers leave the in-memory list alone *)

Lemma bind_resolved {A B} (m : M A) (f : A → M B) s a s' :
  m s = (Resolved a, s') → (m ≫= f) s = f a s'.
Proof. unfold mbind, M_bind. by intros ->. Qed.

Lemma bind_rejected {A B} (m : M A) (f : A → M B) s e s' :
  m s = (Rejected e, s') → (m ≫= f) s = (Rejected e, s').
Proof. unfold mbind, M_bind. by intros ->. Qed.

Lemma bind_pending {A B} (m : M A) (f : A → M B) s s' :
  m s = (Pending, s') → (m ≫= f) s = (Pending, s').
Proof. unfold mbind, M_bind. by intros ->. Qed.

Lemma openDB_todos r s : todos (openDB r s).2 = todos s.
Proof. unfold openDB. destruct (db s), (open_error r); done. Qed.

Lemma openDB_idb r s : idb_todos (openDB r s).2 = idb_todos s.
Proof. unfold openDB. destruct (db s), (open_error r); done. Qed.

Lemma openDB_ticks r s : ticks (openDB r s).2 = ticks s.
Proof. unfold openDB. destruct (db s), (open_error r); done. Qed.

Lemma openDB_cases r s :
  (∃ s', openDB r s = (Resolved (), s'))
  ∨ (∃ name, openDB r s = (Rejected (DOMException name), s)).
Proof.
  unfold openDB. destruct (db s); [eauto|].
  destruct (open_error r); eauto.
Qed.

Lemma putToStore_todos (t : task) r s :
  todos (putToStore TODOS_STORE t r s).2 = todos s.
Proof.
  unfold putToStore. run_m. pose proof (openDB_todos r s) as H.
  destruct (openDB r s) as [[| |] s1]; simpl in *; try done.
  destruct (id t); simpl; [|done].
  destruct (committed (events r)); done.
Qed.

Lemma deleteFromStore_todos k r s :
  todos (deleteFromStore TODOS_STORE k r s).2 = todos s.
Proof.
  unfold deleteFromStore. run_m. pose proof (openDB_todos r s) as H.
  destruct (openDB r s) as [[| |] s1]; simpl in *; try done.
  destruct k; simpl; [|done].
  destruct (committed (events r)); done.
Qed.

Lemma getAllFromStore_todos r s :
  todos (getAllFromStore TODOS_STORE r s).2 = todos s.
Proof.
  unfold getAllFromStore. run_m. pose proof (openDB_todos r s) as H.
  destruct (openDB r s) as [[| |] s1]; simpl in *; done.
Qed.

(** C7: when the read of the object store is rejected, [loadTodos]
    resolves with an empty list and leaves the in-memory list empty; the
    error does not reach the caller. *)
Theorem c7_load_failure_gives_empty_list
    (clock : nat → Z) (r : run) (s s1 : state) (e : error) :
  getAllFromStore TODOS_STORE r s = (Rejected e, s1) →
  loadTodos clock r s = (Resolved [], set_todos [] s1)
  ∧ todos (set_todos [] s1) = [].
Proof.
  intros H. split; [|done]. unfold loadTodos, try_catch.
  unfold mbind at 1, M_bind at 1. rewrite H. done.
Qed.

Lemma c7_load_failure_witness :
  getAllFromStore TODOS_STORE (Run None [ReqError "UnknownError"]) initial
    = (Rejected (DOMException "UnknownError"), set_db true initial)
  ∧ loadTodos (λ _, 0) (Run None [ReqError "UnknownError"]) initial
    = (Resolved [], set_todos [] (set_db true initial)).
Proof.
  split; [done|].
  apply (c7_load_failure_gives_empty_list (λ _, 0)
           (Run None [ReqError "UnknownError"]) initial (set_db true initial)
           (DOMException "UnknownError")).
  done.
Defined.

(** [loadTodos] never rejects, whatever the run. *)
Lemma loadTodos_never_rejects clock r s e :
  (loadTodos clock r s).1 ≠ Rejected e.
Proof.
  unfold loadTodos, try_catch.
  match goal with
  | |- context [match ?m s with _ => _ end] => destruct (m s) as [[| |] s']
  end; done.
Qed.


(** *** [deleteTodo] and [clearCompleted] *)

Lemma Forall_filter_keep {A} (P Q : A → Prop) `{∀ x, Decision (Q x)} l :
  Forall P l → Forall P (filter Q l).
Proof.
  rewrite !Forall_forall. intros Hl x Hx.
  apply list_elem_of_filter in Hx as [_ Hx]. by apply Hl.
Qed.

Lemma delete_each_todos l rs n s :
  todos (delete_each l rs n s).2 = todos s.
Proof.
  revert n s. induction l as [|i l IH]; intros n s; simpl; [done|].
  run_m. pose proof (deleteFromStore_todos i (rs n) s) as H.
  destruct (deleteFromStore TODOS_STORE i (rs n) s) as [[| |] s1];
    simpl in *; try done.
  rewrite IH. done.
Qed.

(** What [deleteTodo] does to the list: filtered when the call resolves,
    untouched otherwise. *)
Lemma deleteTodo_list i r s :
  let p := (deleteTodo i r s).1 in
  let s' := (deleteTodo i r s).2 in
  (p = Resolved () ∧ todos s' = filter (λ t, id t ≠ i) (todos s))
  ∨ (p ≠ Resolved () ∧ todos s' = todos s).
Proof.
  unfold deleteTodo. destruct (truthy i); simpl; [|right; done].
  run_m. pose proof (deleteFromStore_todos i r s) as H.
  destruct (deleteFromStore TODOS_STORE i r s) as [[|[]|] s1]; simpl in *.
  - right. done.
  - left. rewrite H. done.
  - right. done.
Qed.

Lemma clearCompleted_list rs s :
  let p := (clearCompleted rs s).1 in
  let s' := (clearCompleted rs s).2 in
  (p = Resolved ()
   ∧ todos s' = filter (λ t, to_bool (completed t) = false) (todos s))
  ∨ (p ≠ Resolved () ∧ todos s' = todos s).
Proof.
  unfold clearCompleted. run_m.
  match goal with
  | |- context [delete_each ?l rs 0%nat s] =>
      pose proof (delete_each_todos l rs 0%nat s) as H;
      destruct (delete_each l rs 0%nat s) as [[|[]|] s1]
  end; simpl in *.
  - right. done.
  - left. rewrite H. done.
  - right. done.
Qed.

(** C10: [deleteTodo] and [clearCompleted] only filter the in-memory
    list. Whatever the id, the list and the run, the list they leave is
    the filtered list when the call resolves and the list as it was
    otherwise; in both cases the items that remain are items of the old
    list, unchanged and in their old order. *)
Theorem c10_delete_and_clearCompleted_only_filter
    (i : option string) (r : run) (rs : nat → run) (s : state) :
  (todos (deleteTodo i r s).2 `sublist_of` todos s
   ∧ ((deleteTodo i r s).1 = Resolved ()
      → todos (deleteTodo i r s).2 = filter (λ t, id t ≠ i) (todos s)))
  ∧ (todos (clearCompleted rs s).2 `sublist_of` todos s
     ∧ ((clearCompleted rs s).1 = Resolved ()
        → todos (clearCompleted rs s).2
          = filter (λ t, to_bool (completed t) = false) (todos s))).
Proof.
  split.
  - destruct (deleteTodo_list i r s) as [[Hp ->]|[Hp ->]].
    + split; [apply sublist_filter|done].
    + split; [done|]. intros Hq. by destruct Hp.
  - destruct (clearCompleted_list rs s) as [[Hp ->]|[Hp ->]].
    + split; [apply sublist_filter|done].
    + split; [done|]. intros Hq. by destruct Hp.
Qed.

(** In the run where every request goes well both calls resolve. *)
Lemma deleteTodo_ok_resolves i s :
  truthy (Some i) = true → (deleteTodo (Some i) ok_run s).1 = Resolved ().
Proof.
  intros Hi. unfold deleteTodo. rewrite Hi. simpl.
  unfold deleteFromStore. run_m. unfold ok_run. rewrite openDB_ok. done.
Qed.

Lemma delete_each_ok_resolves l n s :
  Forall is_Some l → (delete_each l (λ _, ok_run) n s).1 = Resolved ().
Proof.
  intros Hl. revert n s. induction Hl as [|i l [k ->] _ IH]; intros n s; [done|].
  simpl. unfold deleteFromStore at 1. run_m. unfold ok_run at 1.
  rewrite openDB_ok. simpl. apply IH.
Qed.

Lemma clearCompleted_ok_resolves s :
  Forall (λ t, is_Some (id t)) (todos s) →
  (clearCompleted (λ _, ok_run) s).1 = Resolved ().
Proof.
  intros Hl. unfold clearCompleted. run_m.
  match goal with
  | |- context [delete_each ?l _ 0%nat s] =>
      pose proof (delete_each_ok_resolves l 0%nat s) as H;
      destruct (delete_each l (λ _, ok_run) 0%nat s) as [p s1]
  end.
  simpl in H. rewrite H; [done|].
  apply Forall_fmap. apply Forall_filter_keep.
  eapply Forall_impl; [exact Hl|]. done.
Qed.


(** *** [exportTodosAsJSON] *)

(** C8, the claim as stated fails: with an empty list of ids the guard
    [ids && ids.length] is false and every item is exported. *)
Lemma c8_empty_ids_exports_everything :
  export_items (Some []) [sample "a" "x" 1 1; sample "b" "y" 2 2]
  = [sample "a" "x" 1 1; sample "b" "y" 2 2]
  ∧ export_items (Some []) [sample "a" "x" 1 1; sample "b" "y" 2 2] ≠ [].
Proof. split; done. Qed.

(** C8, amended: the snapshot is the serialization of a list of items
    taken from the in-memory list in its order; for a non-empty list of
    ids these are exactly the items whose id is in the list, and when the
    argument is omitted or the list of ids is empty these are all the
    items. *)
Theorem c8_export_selection
    (JSON_stringify : list task → string) (ids : option (list string))
    (s : state) :
  ∃ items,
    exportTodosAsJSON JSON_stringify ids s
    = (Resolved {| blob_text := JSON_stringify items;
                   blob_type := "application/json" |}, s)
    ∧ items `sublist_of` todos s
    ∧ match ids with
      | Some (i :: ids') =>
          ∀ t, t ∈ items ↔ t ∈ todos s ∧ ∃ j, j ∈ i :: ids' ∧ id t = Some j
      | _ => items = todos s
      end.
Proof.
  exists (export_items ids (todos s)). split; [done|].
  destruct ids as [[|i ids']|]; [done| |done].
  unfold export_items. split; [apply sublist_filter|].
  intros t. rewrite list_elem_of_filter, list_elem_of_fmap.
  split.
  - intros [(j & Hj & Hi) Hin]. eauto.
  - intros [Hin (j & Hj & Hi)]. eauto.
Qed.

(** *** [addTodo] *)

Lemma filter_none {A} (P : A → Prop) `{∀ x, Decision (P x)} (l : list A) :
  (∀ x, x ∈ l → ¬ P x) → filter P l = [].
Proof.
  induction l as [|a l IH]; intros Hl; [done|].
  rewrite filter_cons_False by (apply Hl; left).
  apply IH. intros x Hx. apply Hl. by right.
Qed.

Lemma has_id_false todo :
  has_id todo = false ↔ todo = None ∨ ∃ t, todo = Some t ∧ truthy (id t) = false.
Proof.
  destruct todo as [t|]; simpl; split; eauto.
  intros [?|(t' & [= <-] & H)]; done.
Qed.

(** The guard of [addTodo]. *)
Lemma addTodo_guard todo r s :
  has_id todo = false →
  addTodo todo r s = (Rejected (Error "todo must have an id"), s).
Proof.
  destruct todo as [t|]; simpl; [|done]. intros ->. done.
Qed.

(** Behind the guard: the write, then the insertion at the front. *)
Lemma addTodo_body t r s :
  truthy (id t) = true →
  addTodo (Some t) r s
  = match putToStore TODOS_STORE t r s with
    | (Resolved _, s') => (Resolved t, set_todos (t :: todos s') s')
    | (Rejected e, s') => (Rejected e, s')
    | (Pending, s') => (Pending, s')
    end.
Proof.
  intros H. unfold addTodo. rewrite H. simpl. run_m.
  destruct (putToStore TODOS_STORE t r s) as [[| |] s']; done.
Qed.

(** The write in the run where everything goes well. *)
Lemma putToStore_ok t k s :
  id t = Some k →
  putToStore TODOS_STORE t ok_run s
  = (Resolved k, set_idb_todos (<[k := t]> (idb_todos s)) (set_db true s)).
Proof.
  intros Hk. unfold putToStore, ok_run. run_m. rewrite openDB_ok.
  simpl. rewrite Hk. done.
Qed.

Lemma truthy_Some o : truthy o = true → ∃ k, o = Some k ∧ k ≠ "".
Proof.
  destruct o as [k|]; simpl; [|done]. intros H. exists k. split; [done|].
  intros ->. done.
Qed.

(** C5, the claim as stated fails: [addTodo] does not look for the id in
    the list, so adding an item whose id is already there leaves two
    items with that id. *)
Lemma c5_add_existing_id_gives_two :
  let s := set_todos [sample "a" "old" 1 1] initial in
  let p := addTodo (Some (sample "a" "new" 2 2)) ok_run s in
  p.1 = Resolved (sample "a" "new" 2 2)
  ∧ todos p.2 = [sample "a" "new" 2 2; sample "a" "old" 1 1]
  ∧ length (filter (λ x, id x = Some "a") (todos p.2)) = 2%nat.
Proof. done. Qed.

(** C5, amended: when no item of the list has the id of [t] and
    [addTodo] resolves, it resolves with [t], [t] is at the front of the
    list before the old items, and [t] is the one item with that id; in
    the run where the write goes well it does resolve. When the item or
    its id is missing or empty, [addTodo] rejects with its [Error] and
    changes nothing. *)
Theorem c5_add_fresh_id
    (t t' : task) (r : run) (s s' : state) :
  (∀ x, x ∈ todos s → id x ≠ id t) →
  addTodo (Some t) r s = (Resolved t', s') →
  (t' = t ∧ todos s' = t :: todos s
   ∧ filter (λ x, id x = id t) (todos s') = [t]
   ∧ (addTodo (Some t) ok_run s).1 = Resolved t)
  ∧ (∀ todo r0 s0, has_id todo = false →
       addTodo todo r0 s0 = (Rejected (Error "todo must have an id"), s0)).
Proof.
  intros Hfresh Hadd. split; [|intros; by apply addTodo_guard].
  destruct (truthy (id t)) eqn:Hid.
  2:{ rewrite addTodo_guard in Hadd by (simpl; done). done. }
  assert ((addTodo (Some t) ok_run s).1 = Resolved t) as Hok.
  { destruct (truthy_Some _ Hid) as (k & Hk & _).
    rewrite addTodo_body by done. by rewrite (putToStore_ok t k). }
  rewrite addTodo_body in Hadd by done.
  pose proof (putToStore_todos t r s) as Hl.
  destruct (putToStore TODOS_STORE t r s) as [[| |] s1]; try done.
  injection Hadd as <- <-. simpl in Hl. simpl todos. rewrite Hl.
  split; [done|]. split; [done|]. split; [|done].
  rewrite filter_cons_True by done. f_equal.
  apply filter_none. intros x Hx. by apply Hfresh.
Qed.

Lemma c5_add_fresh_id_witness :
  let t := sample "b" "new" 2 2 in
  let s := set_todos [sample "a" "old" 1 1] initial in
  let s' := (addTodo (Some t) ok_run s).2 in
  todos s' = [sample "b" "new" 2 2; sample "a" "old" 1 1]
  ∧ filter (λ x, id x = id t) (todos s') = [t].
Proof.
  intros t s s'.
  destruct (c5_add_fresh_id t t ok_run s s') as [(_ & H1 & H2 & _) _].
  - intros x Hx. apply list_elem_of_singleton in Hx as ->. done.
  - reflexivity.
  - split; [exact H1|exact H2].
Defined.


(** The helpers reject with a [DOMException] only. *)
Lemma settle_request_rejected {A} (a : A) evs p e :
  (∀ e', p = Rejected e' → ∃ name, e' = DOMException name) →
  fold_left (λ p ev, request_listeners a ev p) evs p = Rejected e →
  ∃ name, e = DOMException name.
Proof.
  revert p. induction evs as [|ev evs IH]; intros p Hp; simpl.
  - intros ->. by apply Hp.
  - apply IH. intros e'. destruct ev, p; simpl; try done; try apply Hp.
    intros [= <-]. eauto.
Qed.

Lemma openDB_rejected r s e s' :
  openDB r s = (Rejected e, s') → ∃ name, e = DOMException name.
Proof.
  unfold openDB. destruct (db s); [done|].
  destruct (open_error r); [|done]. intros [= <- _]. eauto.
Qed.

Lemma putToStore_rejected (t : task) r s e :
  (putToStore TODOS_STORE t r s).1 = Rejected e → ∃ name, e = DOMException name.
Proof.
  unfold putToStore. run_m.
  destruct (openDB r s) as [[| |] s1] eqn:Ho; simpl; try done.
  - destruct (id t); simpl.
    + apply settle_request_rejected. done.
    + intros [= <-]. eauto.
  - intros [= <-]. by eapply openDB_rejected.
Qed.

(** C9, the claim as stated fails: an item with an id is rejected all the
    same when the write fails. *)
Lemma c9_add_rejects_when_the_write_fails :
  let r := Run None [ReqError "QuotaExceededError";
                     TxError None;
                     TxAbort "QuotaExceededError"] in
  has_id (Some (sample "a" "x" 1 1)) = true
  ∧ addTodo (Some (sample "a" "x" 1 1)) r initial
    = (Rejected (DOMException "QuotaExceededError"), set_db true initial).
Proof. done. Qed.

(** C9, amended: [addTodo] rejects with its own [Error] exactly when the
    item or its id is missing or empty, and rejects at all exactly when
    that is so or the write is rejected; the title plays no part. For
    every item with a non-empty id, whatever its title, [addTodo] in the
    run where the write goes well resolves, the item is in the object
    store under its id and at the front of the list. *)
Theorem c9_add_rejects_for_id_or_storage_only (t : task) (s : state) :
  truthy (id t) = true →
  (∀ todo r s0,
     ((addTodo todo r s0).1 = Rejected (Error "todo must have an id")
      ↔ has_id todo = false)
     ∧ ((∃ e, (addTodo todo r s0).1 = Rejected e)
        ↔ has_id todo = false
          ∨ ∃ t0 e, todo = Some t0
                    ∧ (putToStore TODOS_STORE t0 r s0).1 = Rejected e))
  ∧ ∃ k, id t = Some k
      ∧ addTodo (Some t) ok_run s
        = (Resolved t,
           set_todos (t :: todos s)
             (set_idb_todos (<[k := t]> (idb_todos s)) (set_db true s))).
Proof.
  intros Hid. split.
  - intros todo r s0. destruct (has_id todo) eqn:Hh.
    + destruct todo as [t0|]; [|done]. simpl in Hh.
      rewrite addTodo_body by done.
      destruct (putToStore TODOS_STORE t0 r s0) as [[| |] s1] eqn:Hp; simpl.
      * split; [done|]. split; [intros [? ?]; done|].
        intros [?|(? & ? & [= <-] & H)]; [done|]. rewrite Hp in H. done.
      * split; [done|]. split; [intros [? ?]; done|].
        intros [?|(? & ? & [= <-] & H)]; [done|]. rewrite Hp in H. done.
      * split.
        -- split; [|done]. intros [= ->].
           destruct (putToStore_rejected t0 r s0 (Error "todo must have an id"))
             as [name Hn]; [by rewrite Hp|done].
        -- split; [|eauto]. intros _. right. exists t0, e.
           rewrite Hp. done.
    + rewrite addTodo_guard by done. simpl. split; [done|].
      split; eauto.
  - destruct (truthy_Some _ Hid) as (k & Hk & _). exists k. split; [done|].
    rewrite addTodo_body by done. rewrite (putToStore_ok t k) by done. done.
Qed.

Lemma c9_add_blank_title_witness :
  let t := Task (Some "a") (Some "  ") None None None None None None None in
  truthy (id t) = true
  ∧ addTodo (Some t) ok_run initial
    = (Resolved t,
       State true [t] (<["a" := t]> ∅) ∅ ∅ 0).
Proof.
  intros t. split; [done|].
  destruct (c9_add_rejects_for_id_or_storage_only t initial) as [_ (k & Hk & H)].
  - done.
  - injection Hk as <-. exact H.
Defined.


(** *** The timestamps of the items in the list *)

(** C3, the claim as stated fails: [addTodo] keeps the timestamps of the
    caller as they are, so an item added with an [updatedAt] before its
    [createdAt] sits in the list like that. *)
Lemma c3_add_keeps_the_timestamps_of_the_caller :
  let t := sample "a" "x" 2000 1000 in
  todos (run_calls (λ _, 3000) [CallAdd (Some t) ok_run] initial) = [t]
  ∧ createdAt t = Some 2000 ∧ updatedAt t = Some 1000
  ∧ ¬ stamped t.
Proof.
  intros t. split; [done|]. split; [done|]. split; [done|].
  unfold stamped. simpl. lia.
Qed.

Lemma stamped_storable t : stamped t → storable t.
Proof. unfold stamped, storable. destruct (createdAt t), (updatedAt t); done. Qed.

Lemma putToStore_idb (t : task) r s :
  idb_todos (putToStore TODOS_STORE t r s).2 = idb_todos s
  ∨ ∃ k, id t = Some k
         ∧ idb_todos (putToStore TODOS_STORE t r s).2 = <[k := t]> (idb_todos s).
Proof.
  unfold putToStore. run_m. pose proof (openDB_idb r s) as H.
  destruct (openDB r s) as [[| |] s1]; simpl in *; try (by left).
  destruct (id t) as [k|]; simpl; [|by left].
  destruct (committed (events r)); simpl; [|by left].
  right. exists k. by rewrite H.
Qed.

Lemma deleteFromStore_idb i r s :
  idb_todos (deleteFromStore TODOS_STORE i r s).2 = idb_todos s
  ∨ ∃ k, i = Some k
         ∧ idb_todos (deleteFromStore TODOS_STORE i r s).2 = delete k (idb_todos s).
Proof.
  unfold deleteFromStore. run_m. pose proof (openDB_idb r s) as H.
  destruct (openDB r s) as [[| |] s1]; simpl in *; try (by left).
  destruct i as [k|]; simpl; [|by left].
  destruct (committed (events r)); simpl; [|by left].
  right. exists k. by rewrite H.
Qed.

Lemma getAllFromStore_idb r s :
  idb_todos (getAllFromStore TODOS_STORE r s).2 = idb_todos s.
Proof.
  unfold getAllFromStore. run_m. pose proof (openDB_idb r s) as H.
  destruct (openDB r s) as [[| |] s1]; simpl in *; done.
Qed.

Lemma storable_put t k (m : gmap string task) :
  storable t → store_ok m →
  store_ok (<[k := t]> m).
Proof. intros. by apply map_Forall_insert_2. Qed.

Lemma storable_delete k (m : gmap string task) :
  store_ok m →
  store_ok (delete k m).
Proof. intros. by apply map_Forall_delete. Qed.

Lemma putToStore_storable t r s :
  storable t →
  store_ok (idb_todos s) →
  store_ok (idb_todos (putToStore TODOS_STORE t r s).2).
Proof.
  intros Ht Hs. destruct (putToStore_idb t r s) as [->|(k & _ & ->)]; [done|].
  by apply storable_put.
Qed.

Lemma deleteFromStore_storable i r s :
  store_ok (idb_todos s) →
  store_ok (idb_todos (deleteFromStore TODOS_STORE i r s).2).
Proof.
  intros Hs. destruct (deleteFromStore_idb i r s) as [->|(k & _ & ->)]; [done|].
  by apply storable_delete.
Qed.

Lemma delete_each_storable l rs n s :
  store_ok (idb_todos s) →
  store_ok (idb_todos (delete_each l rs n s).2).
Proof.
  revert n s. induction l as [|i l IH]; intros n s Hs; simpl; [done|].
  run_m. pose proof (deleteFromStore_storable i (rs n) s Hs) as H.
  destruct (deleteFromStore TODOS_STORE i (rs n) s) as [[| |] s1];
    simpl in *; try done.
  by apply IH.
Qed.


(** [normalize] always resolves, reads nothing but the clock, and leaves
    a stamped item when the record is storable. *)
Lemma normalize_run clock t s :
  ∃ t' s',
    normalize clock t s = (Resolved t', s')
    ∧ todos s' = todos s ∧ idb_todos s' = idb_todos s
    ∧ (storable t → stamped t').
Proof.
  unfold normalize, storable, stamped. run_m. unfold now.
  destruct (createdAt t) as [c|], (updatedAt t) as [u|]; simpl;
    eexists _, _; (split; [reflexivity|]); simpl; repeat split; done.
Qed.

Lemma mapM_normalize_run clock l s :
  ∃ ts s',
    mapM (normalize clock) l s = (Resolved ts, s')
    ∧ todos s' = todos s ∧ idb_todos s' = idb_todos s
    ∧ (Forall storable l → Forall stamped ts).
Proof.
  revert s. induction l as [|t l IH]; intros s.
  - exists [], s. done.
  - destruct (normalize_run clock t s) as (t' & s1 & Hn & Hl1 & Hi1 & Ht).
    destruct (IH s1) as (ts & s2 & Hm & Hl2 & Hi2 & Hts).
    exists (t' :: ts), s2.
    change (mapM (normalize clock) (t :: l))
      with (y ← normalize clock t; k ← mapM (normalize clock) l; mret (y :: k)).
    rewrite (bind_resolved _ _ _ _ _ Hn), (bind_resolved _ _ _ _ _ Hm).
    split; [done|]. split; [congruence|]. split; [congruence|].
    intros Hf. apply Forall_cons in Hf as [? ?]. constructor; auto.
Qed.

Lemma insert_desc_perm x l : insert_desc x l ≡ₚ x :: l.
Proof.
  induction l as [|y l IH]; simpl; [done|].
  destruct (created y <=? created x); [done|].
  rewrite IH. apply Permutation_swap.
Qed.

Lemma sort_desc_perm l : sort_desc l ≡ₚ l.
Proof.
  induction l as [|x l IH]; simpl; [done|].
  rewrite insert_desc_perm. by rewrite IH.
Qed.

Lemma settle_request_resolved {A} (v a : A) evs :
  settle (request_listeners v) evs = Resolved a → a = v.
Proof.
  unfold settle.
  assert (∀ p, (∀ b, p = Resolved b → b = v) →
               fold_left (λ p ev, request_listeners v ev p) evs p = Resolved a →
               a = v) as Hgen.
  { induction evs as [|ev evs IH]; simpl; intros p Hp E; [by apply Hp|].
    refine (IH _ _ E). intros b.
    destruct ev, p; simpl; try done; try apply Hp. by intros [= <-]. }
  apply Hgen. done.
Qed.

Lemma getAllFromStore_resolved r s l s1 :
  getAllFromStore TODOS_STORE r s = (Resolved l, s1) →
  l = records (idb_todos s)
  ∧ todos s1 = todos s ∧ idb_todos s1 = idb_todos s.
Proof.
  unfold getAllFromStore. run_m.
  pose proof (openDB_idb r s) as Hi. pose proof (openDB_todos r s) as Hl.
  destruct (openDB r s) as [[| |] s0]; simpl in *; try done.
  intros [= H <-]. rewrite Hi in H.
  apply settle_request_resolved in H. done.
Qed.


Lemma records_perm {R} (m : gmap string R) : records m ≡ₚ (map_to_list m).*2.
Proof. unfold records. by rewrite merge_sort_Permutation. Qed.

Lemma store_ok_values (m : gmap string task) :
  store_ok m → Forall storable (records m).
Proof.
  intros Hm. rewrite records_perm.
  apply Forall_fmap, Forall_forall. intros [k t] Hkt.
  apply elem_of_map_to_list in Hkt. exact (Hm k t Hkt).
Qed.

Lemma timestamps_ok_same s s' :
  todos s' = todos s → idb_todos s' = idb_todos s →
  timestamps_ok s → timestamps_ok s'.
Proof. unfold timestamps_ok. by intros -> ->. Qed.

Lemma timestamps_ok_list l s s' :
  Forall stamped l → todos s' = l → idb_todos s' = idb_todos s →
  timestamps_ok s → timestamps_ok s'.
Proof. unfold timestamps_ok. intros Hl -> ->. intros [_ ?]. done. Qed.

Lemma loadTodos_timestamps clock r s :
  timestamps_ok s → timestamps_ok (loadTodos clock r s).2.
Proof.
  intros Hok. unfold loadTodos, try_catch.
  pose proof (getAllFromStore_todos r s) as Ht.
  pose proof (getAllFromStore_idb r s) as Hi.
  destruct (getAllFromStore TODOS_STORE r s) as [[|result|e] s1] eqn:Hg;
    simpl in Ht, Hi.
  - rewrite (bind_pending _ _ _ _ Hg). by apply (timestamps_ok_same s).
  - rewrite (bind_resolved _ _ _ _ _ Hg).
    apply getAllFromStore_resolved in Hg as (-> & _ & _).
    destruct (mapM_normalize_run clock (records (idb_todos s)) s1)
      as (ts & s2 & Hm & Hl2 & Hi2 & Hts).
    rewrite (bind_resolved _ _ _ _ _ Hm). run_m.
    apply (timestamps_ok_list (sort_desc ts) s); simpl; try done; [|congruence].
    rewrite sort_desc_perm. apply Hts. apply store_ok_values, Hok.
  - rewrite (bind_rejected _ _ _ _ _ Hg). run_m.
    by apply (timestamps_ok_list [] s).
Qed.

Lemma addTodo_timestamps todo r s :
  (∀ t, todo = Some t → truthy (id t) = true → stamped t) →
  timestamps_ok s → timestamps_ok (addTodo todo r s).2.
Proof.
  intros Ht [Hl Hs]. destruct (has_id todo) eqn:Hh.
  2:{ by rewrite addTodo_guard. }
  destruct todo as [t|]; [|done]. simpl in Hh.
  rewrite addTodo_body by done.
  pose proof (Ht t eq_refl Hh) as Hst.
  pose proof (putToStore_todos t r s) as Hl1.
  pose proof (putToStore_storable t r s (stamped_storable _ Hst) Hs) as Hs1.
  destruct (putToStore TODOS_STORE t r s) as [[| |] s1]; simpl in *;
    (split; simpl; [|done]); rewrite Hl1; try done.
  by constructor.
Qed.

(** The stamp at the listed indices: the list keeps its length, the
    indices take the item, and the others keep theirs. *)
Lemma stamp_listed_length t listed l :
  length (stamp_listed t listed l) = length l.
Proof.
  induction listed as [|j listed IH]; [done|]. simpl.
  by rewrite length_insert.
Qed.

Lemma stamp_listed_lookup t listed l j :
  stamp_listed t listed l !! j
  = if decide (j ∈ listed) then (λ _, t) <$> l !! j else l !! j.
Proof.
  induction listed as [|i listed IH]; [done|]. simpl.
  destruct (decide (i = j)) as [->|Hne].
  - rewrite decide_True by apply list_elem_of_here.
    destruct (l !! j) as [x|] eqn:E.
    + apply list_lookup_insert_eq. rewrite stamp_listed_length.
      by eapply lookup_lt_Some.
    + simpl. apply lookup_ge_None. rewrite length_insert, stamp_listed_length.
      by apply lookup_ge_None.
  - rewrite list_lookup_insert_ne by done. rewrite IH.
    destruct (decide (j ∈ listed)) as [Hin|Hin].
    + by rewrite decide_True by by apply list_elem_of_further.
    + rewrite decide_False; [done|].
      intros [?|?]%elem_of_cons; congruence.
Qed.

Lemma stamp_listed_Forall (P : task → Prop) t listed l :
  P t → Forall P l → Forall P (stamp_listed t listed l).
Proof.
  intros Ht Hl. induction listed as [|j listed IH]; [done|]. simpl.
  by apply Forall_insert.
Qed.

(** Behind the guard of [updateTodo]: the stamp, on the object and so at
    the listed indices, the write, then the replacement in the list. *)
Lemma updateTodo_body clock t listed r s :
  truthy (id t) = true →
  updateTodo clock (Some t) listed r s
  = let t' := set_updatedAt (Some (clock (ticks s))) t in
    match putToStore TODOS_STORE t' r
            (set_todos (stamp_listed t' listed (todos s))
               (set_ticks (S (ticks s)) s)) with
    | (Resolved _, s') =>
        (Resolved t',
         match findIndex (id t') (todos s') with
         | Some idx => set_todos (<[idx := t']> (todos s')) s'
         | None => set_todos (t' :: todos s') s'
         end)
    | (Rejected e, s') => (Rejected e, s')
    | (Pending, s') => (Pending, s')
    end.
Proof.
  intros H. unfold updateTodo. rewrite H. simpl. run_m. unfold now. simpl.
  destruct (putToStore TODOS_STORE _ r _) as [[| |] s']; done.
Qed.

Lemma updateTodo_guard clock todo listed r s :
  has_id todo = false →
  updateTodo clock todo listed r s
  = (Rejected (Error "todo must have an id"), s).
Proof.
  destruct todo as [t|]; simpl; [|done]. intros ->. done.
Qed.

Lemma updateTodo_timestamps clock todo listed r s :
  (∀ t, todo = Some t → truthy (id t) = true →
        ∃ c, createdAt t = Some c ∧ c ≤ clock (ticks s)) →
  timestamps_ok s → timestamps_ok (updateTodo clock todo listed r s).2.
Proof.
  intros Ht [Hl Hs]. destruct (has_id todo) eqn:Hh.
  2:{ by rewrite updateTodo_guard. }
  destruct todo as [t|]; [|done]. simpl in Hh.
  rewrite updateTodo_body by done.
  destruct (Ht t eq_refl Hh) as (c & Hc & Hclock).
  set (t' := set_updatedAt (Some (clock (ticks s))) t). simpl.
  assert (stamped t') as Hst.
  { unfold stamped, t'. simpl. by rewrite Hc. }
  set (s0 := set_todos _ (set_ticks (S (ticks s)) s)).
  assert (Forall stamped (todos s0)) as Hl0.
  { subst s0. simpl. by apply stamp_listed_Forall. }
  pose proof (putToStore_todos t' r s0) as Hl1.
  pose proof (putToStore_storable t' r s0 (stamped_storable _ Hst) Hs) as Hs1.
  destruct (putToStore TODOS_STORE t' r s0) as [[| |] s1]; simpl in *;
    try (split; simpl; [by rewrite Hl1|done]).
  rewrite Hl1.
  destruct (findIndex _ _); split; simpl; try done.
  - by apply Forall_insert.
  - by constructor.
Qed.


Lemma deleteTodo_timestamps i r s :
  timestamps_ok s → timestamps_ok (deleteTodo i r s).2.
Proof.
  intros [Hl Hs]. unfold deleteTodo. destruct (truthy i); simpl; [|done].
  run_m. pose proof (deleteFromStore_todos i r s) as Hl1.
  pose proof (deleteFromStore_storable i r s Hs) as Hs1.
  destruct (deleteFromStore TODOS_STORE i r s) as [[| |] s1]; simpl in *;
    (split; simpl; [|done]); rewrite Hl1; try done.
  by apply Forall_filter_keep.
Qed.

Lemma clearCompleted_timestamps rs s :
  timestamps_ok s → timestamps_ok (clearCompleted rs s).2.
Proof.
  intros [Hl Hs]. unfold clearCompleted. run_m.
  match goal with
  | |- context [delete_each ?l rs 0%nat s] =>
      pose proof (delete_each_todos l rs 0%nat s) as Hl1;
      pose proof (delete_each_storable l rs 0%nat s Hs) as Hs1;
      destruct (delete_each l rs 0%nat s) as [[| |] s1]
  end; simpl in *; (split; simpl; [|done]); rewrite Hl1; try done.
  by apply Forall_filter_keep.
Qed.

Lemma clearStore_todos {R} (st : store_name R) r s :
  (∀ m s0, todos (set_store st m s0) = todos s0) →
  todos (clearStore st r s).2 = todos s.
Proof.
  intros Hst. unfold clearStore. run_m. pose proof (openDB_todos r s) as H.
  destruct (openDB r s) as [[| |] s1]; simpl in *; try done.
  destruct (committed (events r)); simpl; [|done]. by rewrite Hst.
Qed.

Lemma clearStore_TODOS_idb r s :
  idb_todos (clearStore TODOS_STORE r s).2 = idb_todos s
  ∨ idb_todos (clearStore TODOS_STORE r s).2 = ∅.
Proof.
  unfold clearStore. run_m. pose proof (openDB_idb r s) as H.
  destruct (openDB r s) as [[| |] s1]; simpl in *; try (by left).
  destruct (committed (events r)); simpl; [by right|by left].
Qed.

Lemma clearStore_SETTINGS_idb r s :
  idb_todos (clearStore SETTINGS_STORE r s).2 = idb_todos s.
Proof.
  unfold clearStore. run_m. pose proof (openDB_idb r s) as H.
  destruct (openDB r s) as [[| |] s1]; simpl in *; try done.
  destruct (committed (events r)); done.
Qed.

Lemma store_ok_empty : store_ok ∅.
Proof. apply map_Forall_empty. Qed.

Lemma clearAllData_timestamps r1 r2 ls_ok s :
  timestamps_ok s → timestamps_ok (clearAllData r1 r2 ls_ok s).2.
Proof.
  intros [Hl Hs]. unfold clearAllData. run_m.
  pose proof (clearStore_todos TODOS_STORE r1 s (λ _ _, eq_refl)) as Hl1.
  assert (store_ok (idb_todos (clearStore TODOS_STORE r1 s).2)) as Hs1.
  { destruct (clearStore_TODOS_idb r1 s) as [->| ->];
      [done|apply store_ok_empty]. }
  destruct (clearStore TODOS_STORE r1 s) as [[| |] s1]; simpl in *;
    try (split; simpl; [by rewrite Hl1|done]).
  pose proof (clearStore_todos SETTINGS_STORE r2 s1 (λ _ _, eq_refl)) as Hl2.
  pose proof (clearStore_SETTINGS_idb r2 s1) as Hs2.
  destruct (clearStore SETTINGS_STORE r2 s1) as [[| |] s2]; simpl in *;
    try (split; simpl; [by rewrite Hl2, Hl1|by rewrite Hs2]).
  destruct ls_ok; (split; simpl; [done|by rewrite Hs2]).
Qed.

Lemma exec_timestamps clock c s :
  admissible clock s c → timestamps_ok s → timestamps_ok (exec clock c s).
Proof.
  intros Hc Hs. destruct c as [r|todo r|todo listed r|i r|rs|r1 r2 ls_ok]; simpl.
  - by apply loadTodos_timestamps.
  - apply addTodo_timestamps; [|done]. by intros t ->.
  - apply updateTodo_timestamps; [|done]. by intros t ->.
  - by apply deleteTodo_timestamps.
  - by apply clearCompleted_timestamps.
  - by apply clearAllData_timestamps.
Qed.

(** C3, amended: [updateTodo] stamps [updatedAt] with the reading of the
    clock, on the object it is given and so in the list where that
    object is listed, [addTodo] keeps the timestamps it is given, and
    [loadTodos] keeps the stored ones and fills a missing [updatedAt]
    from [createdAt]. So from a state whose items are stamped and whose
    records are storable, after any sequence of [load], [add], [update],
    [delete], [clearCompleted] and [clearAll], resolved or not, in which
    every added item with an id is stamped and every updated item with
    an id was not created after the reading of the clock at its call,
    every item of the list has an [updatedAt] that is not before its
    [createdAt]. *)
Theorem c3_updatedAt_not_before_createdAt
    (clock : nat → Z) (cs : list call) (s : state) :
  timestamps_ok s → admissible_run clock cs s →
  Forall stamped (todos (run_calls clock cs s)).
Proof.
  intros Hs Hcs.
  enough (timestamps_ok (run_calls clock cs s)) as [? _] by done.
  revert s Hs Hcs. induction cs as [|c cs IH]; intros s Hs Hcs; simpl; [done|].
  destruct Hcs as [Hc Hcs]. apply IH; [|done]. by apply exec_timestamps.
Qed.

Lemma c3_updatedAt_not_before_createdAt_witness :
  let clock := λ n : nat, 100 + 100 * Z.of_nat n in
  let a := sample "a" "first" 50 50 in
  let b := sample "b" "second" 150 150 in
  let failing := Run None [ReqError "QuotaExceededError"] in
  Forall stamped
    (todos (run_calls clock
              [CallAdd (Some a) ok_run;
               CallUpdate (Some a) [0%nat] ok_run;
               CallAdd (Some b) ok_run;
               CallUpdate (Some b) [0%nat] failing;
               CallLoad ok_run;
               CallClearCompleted (λ _, ok_run)]
              initial)).
Proof.
  intros clock a b failing.
  apply c3_updatedAt_not_before_createdAt.
  - split; [constructor|apply store_ok_empty].
  - simpl. repeat split; try done.
    + intros _. exists 50. split; [done|]. by vm_compute.
    + intros _. exists 150. split; [done|]. by vm_compute.
Defined.


(** *** Reloading *)

Lemma or_else_empty x : or_else (Some x) "" = x.
Proof. simpl. destruct (String.eqb_spec x ""); congruence. Qed.

Lemma or_else_truthy o d : truthy o = true → Some (or_else o d) = o.
Proof.
  destruct o as [x|]; simpl; [|done]. by destruct (String.eqb x "").
Qed.

(** [normalize] changes nothing in a full item and does not read the
    clock. *)
Lemma normalize_full clock t s : full t → normalize clock t s = (Resolved t, s).
Proof.
  intros [(Hid & [ti Hti] & [d Hd] & [n Hn] & Hp & [c Hc] & [sl Hsl] & [ca Hca])
          [ua Hua]].
  destruct t as [i ti' d' n' p c' sl' ca' ua']; simpl in *; subst.
  unfold normalize, mbind, M_bind, mret, M_ret. cbn -[or_else].
  rewrite !or_else_empty, (or_else_truthy _ _ Hp).
  destruct (truthy_Some _ Hid) as (k & -> & _). done.
Qed.

Lemma mapM_normalize_full clock l s :
  Forall full l → mapM (normalize clock) l s = (Resolved l, s).
Proof.
  induction 1 as [|t l Ht _ IH]; [done|].
  change (mapM (normalize clock) (t :: l))
    with (y ← normalize clock t; k ← mapM (normalize clock) l; mret (y :: k)).
  rewrite (bind_resolved _ _ _ _ _ (normalize_full clock t s Ht)).
  rewrite (bind_resolved _ _ _ _ _ IH). done.
Qed.

Lemma insert_desc_sorted x l : newest_first l → newest_first (insert_desc x l).
Proof.
  unfold newest_first. induction 1 as [|y l Hl IH Hy]; simpl.
  - repeat constructor.
  - destruct (Z.leb_spec (created y) (created x)) as [Hle|Hlt].
    + constructor; [by constructor|]. constructor; [done|].
      eapply Forall_impl; [exact Hy|]. simpl. intros z Hz. lia.
    + constructor; [done|]. rewrite insert_desc_perm.
      constructor; [lia|done].
Qed.

Lemma sort_desc_sorted l : newest_first (sort_desc l).
Proof.
  induction l as [|x l IH]; simpl; [constructor|]. by apply insert_desc_sorted.
Qed.

(** Reloading a synced state. *)
Lemma loadTodos_synced clock r s l0 s0 :
  synced s →
  getAllFromStore TODOS_STORE r s = (Resolved l0, s0) →
  loadTodos clock r s = (Resolved (sort_desc l0), set_todos (sort_desc l0) s0)
  ∧ sort_desc l0 ≡ₚ todos s.
Proof.
  intros (Hfull & _ & Hperm) Hg. unfold loadTodos, try_catch.
  rewrite (bind_resolved _ _ _ _ _ Hg).
  apply getAllFromStore_resolved in Hg as (-> & _ & _).
  assert (Forall full (records (idb_todos s))) as Hf
    by by rewrite records_perm, Hperm.
  rewrite (bind_resolved _ _ _ _ _ (mapM_normalize_full clock _ s0 Hf)).
  split; [done|]. by rewrite sort_desc_perm, records_perm.
Qed.


(** *** The calls keep the list and the store in step *)

Lemma putToStore_resolved_committed (t : task) r s x s1 :
  putToStore TODOS_STORE t r s = (Resolved x, s1) →
  committed (events r) = true →
  ∃ k, id t = Some k ∧ idb_todos s1 = <[k := t]> (idb_todos s)
       ∧ todos s1 = todos s.
Proof.
  unfold putToStore. run_m.
  pose proof (openDB_idb r s) as Hi. pose proof (openDB_todos r s) as Hl.
  destruct (openDB r s) as [[| |] s0]; simpl in *; try done.
  destruct (id t) as [k|]; simpl; [|done].
  intros [= _ <-] ->. exists k. simpl. by rewrite Hi, Hl.
Qed.

Lemma deleteFromStore_resolved_committed i r s s1 :
  deleteFromStore TODOS_STORE i r s = (Resolved (), s1) →
  committed (events r) = true →
  ∃ k, i = Some k ∧ idb_todos s1 = delete k (idb_todos s)
       ∧ todos s1 = todos s.
Proof.
  unfold deleteFromStore. run_m.
  pose proof (openDB_idb r s) as Hi. pose proof (openDB_todos r s) as Hl.
  destruct (openDB r s) as [[| |] s0]; simpl in *; try done.
  destruct i as [k|]; simpl; [|done].
  intros [= _ <-] ->. exists k. simpl. by rewrite Hi, Hl.
Qed.

Section Synced.
Context (m : gmap string task) (l : list task).
Context (Hkeys : ∀ k t, m !! k = Some t → id t = Some k).
Context (Hperm : (map_to_list m).*2 ≡ₚ l).

Lemma synced_in_list k t : m !! k = Some t → t ∈ l.
Proof.
  intros H. rewrite <- Hperm. apply list_elem_of_fmap.
  exists (k, t). split; [done|]. by apply elem_of_map_to_list.
Qed.

Lemma synced_in_store t : t ∈ l → ∃ k, m !! k = Some t ∧ id t = Some k.
Proof.
  rewrite <- Hperm. intros H. apply list_elem_of_fmap in H as ([k t'] & -> & H).
  apply elem_of_map_to_list in H. exists k. split; [done|]. by apply Hkeys.
Qed.

Lemma synced_absent k : (∀ x, x ∈ l → id x ≠ Some k) → m !! k = None.
Proof.
  intros H. destruct (m !! k) as [x|] eqn:E; [|done].
  destruct (H x); [by eapply synced_in_list|by eapply Hkeys].
Qed.

Lemma synced_insert_fresh k t :
  id t = Some k → (∀ x, x ∈ l → id x ≠ Some k) →
  (∀ k' t', <[k := t]> m !! k' = Some t' → id t' = Some k')
  ∧ (map_to_list (<[k := t]> m)).*2 ≡ₚ t :: l.
Proof.
  intros Hk Hfresh. split.
  - intros k' t'. rewrite lookup_insert. case_decide as E.
    + intros [= <-]. by subst.
    + apply Hkeys.
  - rewrite map_to_list_insert by by apply synced_absent.
    simpl. by rewrite Hperm.
Qed.

Lemma synced_split k x :
  m !! k = Some x →
  l ≡ₚ x :: (map_to_list (delete k m)).*2
  ∧ ∀ y, y ∈ (map_to_list (delete k m)).*2 → id y ≠ Some k.
Proof.
  intros Hx. split.
  - rewrite <- Hperm. rewrite <- (insert_delete_id m k x) at 1 by done.
    rewrite map_to_list_insert by apply lookup_delete_eq. done.
  - intros y Hy. apply list_elem_of_fmap in Hy as ([k' y'] & -> & Hy).
    apply elem_of_map_to_list in Hy. simpl.
    destruct (decide (k' = k)) as [->|Hne].
    + by rewrite lookup_delete_eq in Hy.
    + rewrite lookup_delete_ne in Hy by done. rewrite (Hkeys _ _ Hy). congruence.
Qed.

(** The ids of the list are all different. *)
Lemma synced_index_unique i j x y :
  l !! i = Some x → l !! j = Some y → id x = id y → i = j.
Proof.
  intros Hi Hj Hid.
  assert (NoDup (id <$> l)) as Hnd.
  { rewrite <- Hperm.
    assert (id <$> (map_to_list m).*2 = Some <$> (map_to_list m).*1) as ->.
    { rewrite <- !list_fmap_compose. apply list_fmap_ext.
      intros n [k t] Hkt. simpl.
      apply Hkeys. apply elem_of_map_to_list.
      by eapply list_elem_of_lookup_2. }
    apply NoDup_fmap_2; [by intros ?? [= ->]|].
    apply NoDup_fst_map_to_list. }
  eapply (NoDup_lookup _ i j (id x) Hnd); rewrite list_lookup_fmap.
  - by rewrite Hi.
  - by rewrite Hj, Hid.
Qed.

End Synced.


Lemma findIndex_Some i l idx :
  findIndex i l = Some idx → ∃ x, l !! idx = Some x ∧ id x = i.
Proof.
  revert idx. induction l as [|t l IH]; intros idx; simpl; [done|].
  case_bool_decide as E.
  - intros [= <-]. by exists t.
  - destruct (findIndex i l) as [j|]; simpl; [|done].
    intros [= <-]. by apply IH.
Qed.

Lemma findIndex_None i l : findIndex i l = None → ∀ x, x ∈ l → id x ≠ i.
Proof.
  induction l as [|t l IH]; simpl; [by intros _ x Hx; inversion Hx|].
  case_bool_decide as E; [done|].
  destruct (findIndex i l) as [j|]; simpl; [done|].
  intros _ x Hx. apply elem_of_cons in Hx as [->|Hx]; [done|by apply IH].
Qed.

Lemma insert_Permutation_delete {A} (l : list A) i x y :
  l !! i = Some x → <[i := y]> l ≡ₚ y :: delete i l.
Proof.
  intros H. rewrite insert_take_drop by by eapply lookup_lt_Some.
  rewrite delete_take_drop. by rewrite Permutation_middle.
Qed.

Lemma filter_all {A} (P : A → Prop) `{∀ x, Decision (P x)} (l : list A) :
  (∀ x, x ∈ l → P x) → filter P l = l.
Proof.
  induction l as [|a l IH]; intros Hl; [done|].
  rewrite filter_cons_True by (apply Hl; left).
  f_equal. apply IH. intros x Hx. apply Hl. by right.
Qed.

Lemma populated_full n t : populated t → full (set_updatedAt (Some n) t).
Proof. intros H. split; [exact H|by eexists]. Qed.

Lemma add_synced t r s s' :
  synced s → full t → (∀ x, x ∈ todos s → id x ≠ id t) →
  committed (events r) = true →
  addTodo (Some t) r s = (Resolved t, s') →
  synced s' ∧ todos s' = t :: todos s.
Proof.
  intros (Hfull & Hkeys & Hperm) Ht Hfresh Hc Hadd.
  assert (truthy (id t) = true) as Hid by apply Ht.
  rewrite addTodo_body in Hadd by done.
  destruct (putToStore TODOS_STORE t r s) as [[|x|] s1] eqn:Hp; try done.
  injection Hadd as <-.
  destruct (putToStore_resolved_committed _ _ _ _ _ Hp Hc) as (k & Hk & Hi & Hl).
  rewrite Hk in Hfresh.
  destruct (synced_insert_fresh _ _ Hkeys Hperm k t Hk Hfresh) as [Hkeys' Hperm'].
  simpl. rewrite Hl. split; [|done].
  split; [by constructor|]. simpl. rewrite Hi. done.
Qed.

Lemma putToStore_set_todos (t : task) r l s :
  putToStore TODOS_STORE t r (set_todos l s)
  = ((putToStore TODOS_STORE t r s).1,
     set_todos l (putToStore TODOS_STORE t r s).2).
Proof.
  unfold putToStore, openDB. run_m.
  destruct (db s) eqn:Hdb; simpl.
  - destruct (id t); [|done]. by destruct (committed (events r)).
  - destruct (open_error r); [done|]. simpl.
    destruct (id t); [|done]. by destruct (committed (events r)).
Qed.

Lemma findIndex_insert_same i l idx t :
  findIndex i l = Some idx → id t = i → findIndex i (<[idx := t]> l) = Some idx.
Proof.
  revert idx. induction l as [|x l IH]; intros idx; [done|]. simpl.
  case_bool_decide as Hx.
  - intros [= <-] Ht. simpl. by rewrite bool_decide_eq_true_2.
  - destruct (findIndex i l) as [n|] eqn:E; [|done]. simpl.
    intros [= <-] Ht. simpl. rewrite bool_decide_eq_false_2 by done.
    by rewrite (IH n eq_refl Ht).
Qed.

(** Where the ids of the list are all different and the object passed
    sits in the list under its id, a resolved [updateTodo] leaves what it
    leaves for an object with the same fields that is not listed. *)
Lemma updateTodo_listed_unique clock t t' listed r s s' :
  (∀ i j x y, todos s !! i = Some x → todos s !! j = Some y →
              id x = id y → i = j) →
  (∀ j, j ∈ listed → ∃ x, todos s !! j = Some x ∧ id x = id t) →
  updateTodo clock (Some t) listed r s = (Resolved t', s') →
  updateTodo clock (Some t) [] r s = (Resolved t', s').
Proof.
  intros Huniq Hlisted Hup.
  destruct (truthy (id t)) eqn:Hid.
  2:{ rewrite updateTodo_guard in Hup; [done|]. simpl. by rewrite Hid. }
  rewrite updateTodo_body in Hup |- * by done. cbv zeta in Hup |- *.
  set (u := set_updatedAt (Some (clock (ticks s))) t) in *.
  set (s0 := set_ticks (S (ticks s)) s) in *.
  change (stamp_listed u [] (todos s)) with (todos s).
  assert (set_todos (todos s) s0 = s0) as -> by (by destruct s).
  rewrite putToStore_set_todos in Hup.
  pose proof (putToStore_todos u r s0) as Hl.
  destruct (putToStore TODOS_STORE u r s0) as [[|x|e] s1]; try done.
  simpl in Hup, Hl. injection Hup as <- <-. f_equal. rewrite Hl.
  change (todos s0) with (todos s). change (id u) with (id t).
  destruct (findIndex (id t) (todos s)) as [idx|] eqn:Hf.
  - destruct (findIndex_Some _ _ _ Hf) as (x0 & Hx0 & Hidx0).
    assert (stamp_listed u listed (todos s) = todos s
            ∨ stamp_listed u listed (todos s) = <[idx := u]> (todos s)) as Hst.
    { clear -Huniq Hlisted Hx0 Hidx0.
      induction listed as [|j listed IH]; [by left|]. right. simpl.
      destruct (Hlisted j) as (y & Hy & Hidy); [apply list_elem_of_here|].
      assert (j = idx) as -> by (eapply Huniq; [done..|congruence]).
      destruct IH as [-> | ->]; [|done|].
      - intros j' Hj'. apply Hlisted. by apply list_elem_of_further.
      - by rewrite list_insert_insert_eq. }
    destruct Hst as [-> | ->].
    + by rewrite Hf; destruct s1.
    + rewrite (findIndex_insert_same _ _ _ u Hf eq_refl).
      rewrite list_insert_insert_eq. by destruct s1.
  - assert (listed = []) as ->.
    { destruct listed as [|j listed]; [done|].
      destruct (Hlisted j) as (y & Hy & Hidy); [apply list_elem_of_here|].
      exfalso. eapply (findIndex_None _ _ Hf y); [|done].
      by eapply list_elem_of_lookup_2. }
    simpl. rewrite Hf. by destruct s1.
Qed.

Lemma update_synced_own clock t t' r s s' :
  synced s → populated t →
  committed (events r) = true →
  updateTodo clock (Some t) [] r s = (Resolved t', s') →
  synced s'.
Proof.
  intros (Hfull & Hkeys & Hperm) Ht Hc Hup.
  assert (truthy (id t) = true) as Hid by apply Ht.
  rewrite updateTodo_body in Hup by done. simpl in Hup.
  set (u := set_updatedAt (Some (clock (ticks s))) t) in *.
  assert (full u) as Hu by by apply populated_full.
  destruct (putToStore TODOS_STORE u r _) as [[|x|] s1] eqn:Hp; try done.
  destruct (putToStore_resolved_committed _ _ _ _ _ Hp Hc) as (k & Hk & Hi & Hl).
  simpl in Hi, Hl. rewrite Hl in Hup.
  destruct (findIndex (id t) (todos s)) as [idx|] eqn:Hf;
    injection Hup as <- <-; unfold synced; simpl; rewrite Hi.
  - apply findIndex_Some in Hf as (x0 & Hx0 & Hidx0).
    assert (x0 ∈ todos s) as Hin by by eapply list_elem_of_lookup_2.
    destruct (synced_in_store _ _ Hkeys Hperm x0 Hin) as (k0 & Hm & Hk0).
    assert (k0 = k) as -> by (simpl in Hk; congruence).
    destruct (synced_split _ _ Hkeys Hperm k x0 Hm) as [Hl0 Hrest].
    split; [by apply Forall_insert|]. split.
    + intros k' y. rewrite lookup_insert. case_decide as E.
      * intros [= <-]. by subst.
      * apply Hkeys.
    + rewrite <- insert_delete_eq.
      rewrite map_to_list_insert by apply lookup_delete_eq. simpl.
      rewrite (insert_Permutation_delete _ _ x0) by done.
      constructor. apply (Permutation_cons_inv (a := x0)).
      by rewrite <- Hl0, <- delete_Permutation.
  - pose proof (findIndex_None _ _ Hf) as Hfresh.
    simpl in Hk. rewrite Hk in Hfresh.
    destruct (synced_insert_fresh _ _ Hkeys Hperm k u Hk Hfresh)
      as [Hkeys' Hperm'].
    split; [by constructor|]. done.
Qed.

Lemma update_synced clock t t' listed r s s' :
  synced s → populated t →
  (∀ j, j ∈ listed → ∃ x, todos s !! j = Some x ∧ id x = id t) →
  committed (events r) = true →
  updateTodo clock (Some t) listed r s = (Resolved t', s') →
  synced s'.
Proof.
  intros Hs Ht Hlisted Hc Hup.
  apply (update_synced_own clock t t' r s s' Hs Ht Hc).
  apply (updateTodo_listed_unique clock t t' listed r s s'); [|done|done].
  destruct Hs as (_ & Hkeys & Hperm).
  apply (synced_index_unique _ _ Hkeys Hperm).
Qed.

Lemma delete_synced i r s s' :
  synced s →
  committed (events r) = true →
  deleteTodo i r s = (Resolved (), s') →
  synced s'.
Proof.
  intros (Hfull & Hkeys & Hperm) Hc Hdel. unfold deleteTodo in Hdel.
  destruct (truthy i); simpl in Hdel; [|done].
  destruct (deleteFromStore TODOS_STORE i r s) as [[|[]|] s1] eqn:Hd;
    [by rewrite (bind_pending _ _ _ _ Hd) in Hdel| |
     by rewrite (bind_rejected _ _ _ _ _ Hd) in Hdel].
  rewrite (bind_resolved _ _ _ _ _ Hd) in Hdel.
  destruct (deleteFromStore_resolved_committed _ _ _ _ Hd Hc)
    as (k & -> & Hi & Hl).
  injection Hdel as <-. unfold synced. simpl. rewrite Hi, Hl.
  split; [by apply Forall_filter_keep|]. split.
  - intros k' y. rewrite lookup_delete. case_decide; [done|apply Hkeys].
  - destruct (idb_todos s !! k) as [x0|] eqn:Hm.
    + destruct (synced_split _ _ Hkeys Hperm k x0 Hm) as [Hl0 Hrest].
      rewrite Hl0. rewrite filter_cons_False
        by (intros H; apply H; by apply Hkeys).
      by rewrite filter_all.
    + rewrite delete_id by done. rewrite filter_all; [done|].
      intros x Hx Hidx.
      destruct (synced_in_store _ _ Hkeys Hperm x Hx) as (k0 & Hm0 & Hk0).
      congruence.
Qed.

Lemma session_synced clock s cs s' :
  session clock s cs s' → synced s → synced s'.
Proof.
  induction 1 as [s|s t r s' cs s'' Ht Hfresh Hc Hadd _ IH
                  |s t t' listed r s' cs s'' Ht Hlisted Hc Hup _ IH
                  |s i r s' cs s'' Hc Hdel _ IH]; intros Hs; [done|..];
    apply IH.
  - by destruct (add_synced t r s s').
  - by eapply update_synced.
  - by eapply delete_synced.
Qed.


(** C4, the claim as stated fails, in two ways that the calls allow.
    Adding a second item under an id that is in the list leaves two items
    in the list and one record in the store, so the reload gives one
    item. Adding an item that lacks some fields leaves it as it is in the
    list, and the reload gives it with the defaults filled in. All the
    calls resolve and all their transactions complete. *)
Lemma c4_reload_differs_from_the_list :
  (let old := sample "a" "old" 1 1 in
   let new := sample "a" "new" 2 2 in
   let s1 := run_calls (λ _, 9)
               [CallAdd (Some old) ok_run; CallAdd (Some new) ok_run] initial in
   (addTodo (Some old) ok_run initial).1 = Resolved old
   ∧ (addTodo (Some new) ok_run (addTodo (Some old) ok_run initial).2).1
     = Resolved new
   ∧ todos s1 = [new; old]
   ∧ (loadTodos (λ _, 9) ok_run s1).1 = Resolved [new])
  ∧ (let bare := Task (Some "a") (Some "x") None None None None None
                      (Some 1) (Some 1) in
     let s1 := run_calls (λ _, 9) [CallAdd (Some bare) ok_run] initial in
     (addTodo (Some bare) ok_run initial).1 = Resolved bare
     ∧ todos s1 = [bare]
     ∧ (loadTodos (λ _, 9) ok_run s1).1 = Resolved [sample "a" "x" 1 1]
     ∧ bare ≠ sample "a" "x" 1 1).
Proof. repeat split; vm_compute; congruence. Qed.

(** C4, amended: start from a state in which the list and the store hold
    the same full items, and make calls of [add], [update] and [delete]
    that resolve, whose transactions complete, whose added items are full
    and carry an id that is not in the list, and whose updated items are
    populated, be they objects of the caller's own or objects of the list
    under their id. Then a reload whose read succeeds resolves with a list
    that holds exactly the items the list held before, field for field,
    newest first, and this list is the new in-memory list. *)
Theorem c4_reload_round_trip
    (clock : nat → Z) (cs : list call) (r : run) (s s1 s0 : state)
    (l0 : list task) :
  synced s → session clock s cs s1 →
  getAllFromStore TODOS_STORE r s1 = (Resolved l0, s0) →
  ∃ l, loadTodos clock r s1 = (Resolved l, set_todos l s0)
       ∧ todos (set_todos l s0) = l
       ∧ l ≡ₚ todos s1 ∧ newest_first l.
Proof.
  intros Hs Hcs Hg. pose proof (session_synced _ _ _ _ Hcs Hs) as Hs1.
  destruct (loadTodos_synced clock r s1 l0 s0 Hs1 Hg) as [Hload Hperm].
  exists (sort_desc l0). split; [done|]. split; [done|].
  split; [done|apply sort_desc_sorted].
Qed.

Lemma c4_reload_round_trip_witness :
  let clock := (λ n : nat, 5000 + Z.of_nat n) in
  let a := sample "a" "first" 1000 1000 in
  let b := sample "b" "second" 2000 2000 in
  let c := sample "c" "third" 3000 3000 in
  let a' := sample "a" "first, edited" 1000 1000 in
  let cs := [CallAdd (Some a) ok_run; CallAdd (Some b) ok_run;
             CallAdd (Some c) ok_run; CallUpdate (Some a') [2%nat] ok_run;
             CallDelete (Some "b") ok_run] in
  let s1 := run_calls clock cs initial in
  todos s1 = [c; sample "a" "first, edited" 1000 5000]
  ∧ ∃ l, (loadTodos clock ok_run s1).1 = Resolved l
         ∧ l ≡ₚ todos s1 ∧ newest_first l.
Proof.
  intros clock a b c a' cs s1. split; [reflexivity|].
  destruct (c4_reload_round_trip clock cs ok_run initial s1
              (set_db true s1) (records (idb_todos s1)))
    as (l & Hl & _ & Hp & Hsorted).
  - split; [constructor|]. simpl.
    split; [by intros k t; rewrite lookup_empty|].
    by rewrite map_to_list_empty.
  - set (sa := (addTodo (Some a) ok_run initial).2).
    set (sb := (addTodo (Some b) ok_run sa).2).
    set (sc := (addTodo (Some c) ok_run sb).2).
    set (su := (updateTodo clock (Some a') [2%nat] ok_run sc).2).
    apply (session_add clock initial a ok_run sa);
      [repeat split; by eauto | by intros x Hx; inversion Hx
      | reflexivity | by vm_compute | ].
    apply (session_add clock sa b ok_run sb);
      [repeat split; by eauto
      | intros x Hx; apply list_elem_of_singleton in Hx as ->; done
      | reflexivity | by vm_compute | ].
    apply (session_add clock sb c ok_run sc);
      [repeat split; by eauto
      | intros x Hx; repeat (apply elem_of_cons in Hx as [->|Hx]; [done|]);
        inversion Hx
      | reflexivity | by vm_compute | ].
    apply (session_update clock sc a' (sample "a" "first, edited" 1000 5000)
             [2%nat] ok_run su);
      [repeat split; by eauto
      | intros j Hj; apply list_elem_of_singleton in Hj as ->; by exists a
      | reflexivity | by vm_compute | ].
    apply (session_delete clock su (Some "b") ok_run s1);
      [reflexivity | by vm_compute | ].
    apply session_nil.
  - reflexivity.
  - exists l. rewrite Hl. done.
Defined.

End RepoFacts.

(** ** Facts about the markup formatter *)

Module MarkdownFacts.
Import Markdown.

Local Open Scope N_scope.

(** C2, the claim as stated fails: the cells of the second line hold one
    dash each, the separator test asks for three or more, so the three
    lines come back as they are and no table is made. *)
Lemma c2_one_dash_is_no_separator :
  is_separator_line (lit "| - | - |") = false
  ∧ parseMarkdown (table_input "| - | - |") = table_input "| - | - |"
  ∧ includes (lit "<table>") (parseMarkdown (table_input "| - | - |")) = false.
Proof. repeat split; vm_compute; reflexivity. Qed.

(** C2, amended: with three dashes in each cell of the second line the
    output is the table, a header row with the cells A and B and a body
    of one row with the cells 1 and 2; with one dash in each cell the
    output is the input. *)
Theorem c2_table_needs_three_dashes :
  parseMarkdown (table_input "| --- | --- |")
  = lit "<table><thead><tr><th>A</th><th>B</th></tr></thead>"
    ++ lit "<tbody><tr><td>1</td><td>2</td></tr></tbody></table>"
  ∧ parseMarkdown (table_input "| - | - |") = table_input "| - | - |".
Proof. split; vm_compute; reflexivity. Qed.

(** The formatter on the spans, the link and the script tag of the
    examples. *)
Example parseMarkdown_bold :
  parseMarkdown (lit "a **b** c") = lit "a <strong>b</strong> c".
Proof. by vm_compute. Qed.

Example parseMarkdown_italic :
  parseMarkdown (lit "x *y* **z** *a**b*")
  = lit "x <em>y</em> <strong>z</strong> <em>a*</em>b*".
Proof. by vm_compute. Qed.

Example parseMarkdown_highlight :
  parseMarkdown (lit "==hi== ====") = lit "<mark>hi</mark> <mark></mark>".
Proof. by vm_compute. Qed.

Example parseMarkdown_link :
  parseMarkdown (lit "[go](https://example.com) [no](ftp://example.com)")
  = link_head ++ lit "https://example.com" ++ link_attrs ++ lit "go</a>"
    ++ lit " [no](ftp://example.com)".
Proof. by vm_compute. Qed.

Example parseMarkdown_script :
  parseMarkdown (lit "<script>alert(1)</script>")
  = lit "&lt;script&gt;alert(1)&lt;/script&gt;".
Proof. by vm_compute. Qed.

Example parseMarkdown_no_separator :
  parseMarkdown (lit "| a | b |" ++ [LF] ++ lit "| c | d |")
  = lit "| a | b |" ++ [LF] ++ lit "| c | d |".
Proof. by vm_compute. Qed.

(** *** Occurrences *)

Lemma starts_with_spec n s : starts_with n s = true ↔ ∃ b, s = n ++ b.
Proof.
  revert s. induction n as [|a n IH]; intros s; simpl.
  - split; eauto.
  - destruct s as [|c s]; [split; [done|intros [b Hb]; done]|].
    rewrite andb_true_iff, N.eqb_eq, IH. split.
    + intros [-> [b ->]]. eauto.
    + intros [b [= -> ->]]. eauto.
Qed.

Lemma includes_spec n s : includes n s = true ↔ occurs_in n s.
Proof.
  unfold occurs_in. induction s as [|c s IH]; simpl.
  - rewrite orb_false_r, starts_with_spec. split.
    + intros [b Hb]. exists [], b. done.
    + intros (a & b & H). destruct a; [by exists b|done].
  - rewrite orb_true_iff, starts_with_spec, IH. split.
    + intros [[b Hb]|(a & b & ->)]; [by exists [], b|by exists (c :: a), b].
    + intros ([|x a] & b & H); [left; by exists b|].
      right. injection H as -> ->. eauto.
Qed.

Lemma occurs_in_app_l n a b : occurs_in n a → occurs_in n (a ++ b).
Proof. intros (x & y & ->). exists x, (y ++ b). by rewrite <- !app_assoc. Qed.

Lemma occurs_in_app_r n a b : occurs_in n b → occurs_in n (a ++ b).
Proof. intros (x & y & ->). exists (a ++ x), y. by rewrite <- !app_assoc. Qed.

Lemma occurs_in_cons n c s : occurs_in n s → occurs_in n (c :: s).
Proof. apply (occurs_in_app_r n [c]). Qed.

Lemma occurs_in_nil n : occurs_in n [] → n = [].
Proof. intros (a & b & H). symmetry in H. apply app_eq_nil in H as [_ H]. by apply app_eq_nil in H as [? _]. Qed.

(** Splitting an occurrence at a character the needle does not have, *)
Lemma occurs_in_split n a d b :
  d ∉ n → occurs_in n (a ++ d :: b) → occurs_in n a ∨ occurs_in n b.
Proof.
  intros Hd (x & y & H).
  apply app_eq_inv in H as [(k & -> & H)|(k & -> & H)].
  - apply app_eq_inv in H as [(k2 & -> & H)|(k2 & -> & ->)].
    + destruct k2 as [|e k2]; simpl in H.
      * left. exists x, []. by rewrite !app_nil_r.
      * injection H as -> _. destruct Hd. apply elem_of_app. right. left.
    + left. by exists x, k2.
  - destruct k as [|e k]; simpl in H.
    + destruct n as [|e n]; [left; exists a, []; by rewrite app_nil_r|].
      injection H as -> _. destruct Hd. left.
    + injection H as _ ->. right. by exists k, y.
Qed.

(** and at a block of such characters. *)
Lemma occurs_in_split_block n a ds b :
  ds ≠ [] → (∀ d, d ∈ ds → d ∉ n) →
  occurs_in n (a ++ ds ++ b) → occurs_in n a ∨ occurs_in n b.
Proof.
  intros Hne Hds. revert a. induction ds as [|d ds IH]; intros a H; [done|].
  simpl in H. apply occurs_in_split in H as [H|H]; [by left| |apply Hds; left].
  destruct ds as [|d' ds]; [by right|].
  apply (IH ltac:(done) ltac:(intros; apply Hds; by right) []) in H as [H|H];
    [|by right].
  apply occurs_in_nil in H as ->. left. exists a, []. by rewrite app_nil_r.
Qed.

Lemma plain_not_special n d : plain n → special d = true → d ∉ n.
Proof.
  intros Hn Hd Hin. unfold plain in Hn. rewrite Forall_forall in Hn.
  rewrite (Hn d Hin) in Hd. done.
Qed.

(** *** Good tags *)
Lemma tag_head_ok_app a b : tag_head_ok a = true → tag_head_ok (a ++ b) = true.
Proof.
  destruct a as [|c [|d a]]; simpl; try done.
  rewrite andb_false_r, orb_false_r. by intros ->.
Qed.

Lemma tags_ok_app a b : tags_ok a = true → tags_ok b = true → tags_ok (a ++ b) = true.
Proof.
  intros Ha Hb. induction a as [|c a IH]; simpl in *; [done|].
  apply andb_true_iff in Ha as [Hc Ha]. rewrite (IH Ha), andb_true_r.
  destruct (c =? LT); [by apply tag_head_ok_app|done].
Qed.

Lemma tags_ok_suffix a b : tags_ok (a ++ b) = true → tags_ok b = true.
Proof.
  induction a as [|c a IH]; simpl; [done|].
  intros H. apply andb_true_iff in H as [_ H]. by apply IH.
Qed.

Lemma special_not_tag c :
  special c = true → tag_letter c = false ∧ (c =? 115) = false ∧ (c =? 116) = false ∧ (c =? LT) = false.
Proof.
  intros H.
  destruct (tag_letter c) eqn:E1.
  { unfold tag_letter in E1. rewrite !orb_true_iff, !N.eqb_eq in E1.
    destruct E1 as [[[[->| ->]| ->]| ->]| ->]; done. }
  destruct (N.eqb_spec c 115) as [->|]; [done|].
  destruct (N.eqb_spec c 116) as [->|]; [done|].
  destruct (N.eqb_spec c LT) as [->|]; [done|]. done.
Qed.

Lemma tags_ok_cut a d b :
  special d = true → tags_ok (a ++ d :: b) = true → tags_ok a = true.
Proof.
  intros Hd. destruct (special_not_tag d Hd) as (Hd1 & Hd2 & Hd3 & _).
  induction a as [|c a IH]; simpl; [done|].
  intros H. apply andb_true_iff in H as [Hc H]. rewrite (IH H), andb_true_r.
  destruct (c =? LT); [|done]. clear IH H.
  destruct a as [|x [|y a]]; simpl in *.
  - by rewrite Hd1, Hd2 in Hc.
  - rewrite Hd3 in Hc. by rewrite andb_false_r in *.
  - done.
Qed.

Lemma tags_ok_no_script s : tags_ok s = true → includes (lit "<script>") s = false.
Proof.
  intros H. destruct (includes _ s) eqn:E; [|done].
  apply includes_spec in E as (a & b & ->).
  apply tags_ok_suffix in H. vm_compute in H. done.
Qed.

Lemma replace_from_skip m x rest :
  replace_from m false (length x) (x ++ rest) = replace_from m false 0 rest.
Proof. induction x as [|c x IH]; simpl; [by destruct rest|done]. Qed.

Lemma replace_from_nil m b k : replace_from m b k [] = [].
Proof. done. Qed.

Lemma replace_from_none m b c s :
  m b (c :: s) = None →
  replace_from m b 0 (c :: s) = c :: replace_from m false 0 s.
Proof. simpl. by intros ->. Qed.

Section Generic.
Context (m : matcher) (Hok : matcher_ok m).

Lemma replace_from_some b s r rest :
  m b s = Some (r, rest) →
  replace_from m b 0 s = r ++ replace_from m false 0 rest.
Proof.
  intros Hm. destruct (m_suffix m Hok _ _ _ _ Hm) as (x & Hx & ->).
  destruct x as [|c x]; [done|]. simpl in *. rewrite Hm. f_equal.
  rewrite length_app, Nat.add_sub. apply replace_from_skip.
Qed.

Lemma replace_from_head b c s :
  special c = false → ∃ o, replace_from m b 0 (c :: s) = c :: o.
Proof.
  intros Hc. destruct (m b (c :: s)) as [[r rest]|] eqn:Hm.
  - rewrite (replace_from_some _ _ _ _ Hm).
    destruct (m_start m Hok _ _ _ _ _ Hm) as [H|(y & s' & r' & -> & Hy & ->)];
      [congruence|]. eauto.
  - rewrite replace_from_none by done. eauto.
Qed.

Lemma special_false_of_tag c : tag_letter c = true ∨ c = 115 ∨ c = 116 → special c = false.
Proof.
  intros H. destruct (special c) eqn:E; [|done].
  destruct (special_not_tag c E) as (H1 & H2 & H3 & _).
  destruct H as [H|[->| ->]]; [congruence|done|done].
Qed.

Lemma replace_from_tag_head b s :
  tag_head_ok s = true → tag_head_ok (replace_from m b 0 s) = true.
Proof.
  destruct s as [|c s]; [done|]. intros H. simpl in H.
  apply orb_true_iff in H as [H|H].
  - destruct (replace_from_head b c s) as [o Ho];
      [apply special_false_of_tag; by left|].
    rewrite Ho. simpl. by rewrite H.
  - apply andb_true_iff in H as [Hc H]. apply N.eqb_eq in Hc as ->.
    destruct s as [|d s]; [done|]. apply N.eqb_eq in H as ->.
    destruct (m b (115 :: 116 :: s)) as [[r rest]|] eqn:Hm.
    + destruct (m_start m Hok _ _ _ _ _ Hm) as [H|(y & s' & r' & [= <- <-] & Hy & _)];
        done.
    + rewrite replace_from_none by done.
      destruct (replace_from_head false 116 s) as [o Ho]; [done|].
      rewrite Ho. done.
Qed.

Lemma replace_from_tags s : ∀ b,
  tags_ok s = true → tags_ok (replace_from m b 0 s) = true.
Proof.
  induction (Nat.lt_wf_0_projected length s) as [s _ IH]. intros b Hs.
  destruct s as [|c s]; [done|].
  destruct (m b (c :: s)) as [[r rest]|] eqn:Hm.
  - rewrite (replace_from_some _ _ _ _ Hm).
    destruct (m_suffix m Hok _ _ _ _ Hm) as (x & Hx & Hs').
    apply tags_ok_app; [by eapply (m_tags m Hok)|].
    apply IH.
    + rewrite Hs', length_app. destruct x; [done|simpl; lia].
    + rewrite Hs' in Hs. by apply tags_ok_suffix in Hs.
  - rewrite replace_from_none by done. simpl in *.
    apply andb_true_iff in Hs as [Hc Hs]. apply andb_true_iff. split.
    + destruct (c =? LT); [|done]. by apply replace_from_tag_head.
    + apply IH; [simpl; lia|done].
Qed.

Lemma replace_from_plain_prefix p t : ∀ b,
  plain p → ∃ o, replace_from m b 0 (p ++ t) = p ++ o.
Proof.
  induction p as [|c p IH]; intros b Hp; [by eexists|].
  apply Forall_cons in Hp as [Hc Hp].
  change ((c :: p) ++ t) with (c :: p ++ t).
  destruct (m b (c :: p ++ t)) as [[r rest]|] eqn:Hm.
  - rewrite (replace_from_some _ _ _ _ Hm).
    destruct (m_start m Hok _ _ _ _ _ Hm) as [H|(y & s' & r' & Hy & Hsp & ->)];
      [congruence|].
    destruct p as [|d p].
    + simpl. eauto.
    + injection Hy as <- _. apply Forall_cons in Hp as [Hd _]. congruence.
  - rewrite replace_from_none by done.
    destruct (IH false Hp) as [o Ho]. rewrite Ho. eauto.
Qed.

Lemma replace_from_needle n s : ∀ b,
  plain n → n ≠ [] →
  occurs_in n s → occurs_in n (replace_from m b 0 s).
Proof.
  intros b Hn Hne. revert b.
  induction (Nat.lt_wf_0_projected length s) as [s _ IH]. intros b ([|c a] & y & Hs).
  - simpl in Hs. subst s.
    destruct (replace_from_plain_prefix n y b Hn) as [o ->]. by exists [], o.
  - destruct (m b s) as [[r rest]|] eqn:Hm.
    + rewrite (replace_from_some _ _ _ _ Hm).
      destruct (m_suffix m Hok _ _ _ _ Hm) as (x & Hx & Hs').
      destruct (m_needle m Hok n _ _ _ _ Hn Hne Hm) as [H|H].
      * subst s. by exists (c :: a), y.
      * by apply occurs_in_app_l.
      * apply occurs_in_app_r, IH; [|done].
        rewrite Hs', length_app. destruct x; [done|simpl; lia].
    + subst s. change ((c :: a) ++ n ++ y) with (c :: a ++ n ++ y) in *.
      rewrite replace_from_none by done.
      apply occurs_in_cons, IH; [simpl; lia|]. by exists a, y.
Qed.

End Generic.

Lemma expect_spec l s rest : expect l s = Some rest → s = l ++ rest.
Proof.
  revert s. induction l as [|a l IH]; intros s; simpl; [by intros [= ->]|].
  destruct s as [|c s]; [done|]. destruct (N.eqb_spec a c) as [->|]; [|done].
  intros H. by rewrite (IH _ H).
Qed.

Lemma expect_closes l : delimiter l → closes (expect l).
Proof. intros Hl x y H. exists l. split; [done|]. by apply expect_spec. Qed.

Lemma lone_star_spec s rest : lone_star s = Some rest → s = STAR :: rest.
Proof.
  destruct s as [|c s]; simpl; [done|].
  destruct (N.eqb_spec c STAR) as [->|]; [|done].
  destruct s as [|d s]; [by intros [= <-]|].
  destruct (d =? STAR); [done|]. by intros [= <-].
Qed.

Lemma lone_star_closes : closes lone_star.
Proof.
  intros x y H. exists [STAR]. split; [|by apply lone_star_spec].
  split; [done|]. by repeat constructor.
Qed.

Lemma lazy_dots_spec close s g rest :
  closes close → lazy_dots close s = Some (g, rest) →
  ∃ ds, delimiter ds ∧ s = g ++ ds ++ rest.
Proof.
  intros Hc. revert g. induction s as [|c s IH]; intros g; simpl.
  - destruct (close []) as [y|] eqn:E; [|done]. intros [= <- <-].
    destruct (Hc _ _ E) as (ds & Hds & Hx). eauto.
  - destruct (close (c :: s)) as [y|] eqn:E.
    + intros [= <- <-]. destruct (Hc _ _ E) as (ds & Hds & ->). eauto.
    + destruct (is_line_terminator c); [done|].
      destruct (lazy_dots close s) as [[g' rest']|]; [|done].
      intros [= <- <-]. destruct (IH g' eq_refl) as (ds & Hds & ->). eauto.
Qed.

Lemma lazy_dots1_spec close s g rest :
  closes close → lazy_dots1 close s = Some (g, rest) →
  ∃ ds, delimiter ds ∧ s = g ++ ds ++ rest.
Proof.
  intros Hc. destruct s as [|c s]; simpl; [done|].
  destruct (is_line_terminator c); [done|].
  destruct (lazy_dots close s) as [[g' rest']|] eqn:E; [|done].
  intros [= <- <-]. destruct (lazy_dots_spec _ _ _ _ Hc E) as (ds & Hds & ->).
  eauto.
Qed.

Lemma take_drop_while p s : take_while p s ++ drop_while p s = s.
Proof. induction s as [|c s IH]; simpl; [done|]. destruct (p c); simpl; congruence. Qed.

Lemma greedy_run1_spec p s g rest :
  greedy_run1 p s = Some (g, rest) → s = g ++ rest ∧ g ≠ [].
Proof.
  unfold greedy_run1. pose proof (take_drop_while p s) as H.
  destruct (take_while p s) as [|c g']; simpl; [done|].
  intros [= <- <-]. done.
Qed.

(** Pieces between delimiters. *)
Lemma tags_ok_piece pre g ds rest :
  delimiter ds → tags_ok (pre ++ g ++ ds ++ rest) = true → tags_ok g = true.
Proof.
  intros [Hne Hds] H. apply tags_ok_suffix in H.
  destruct ds as [|d ds]; [done|]. apply Forall_cons in Hds as [Hd _].
  by apply tags_ok_cut in H.
Qed.

Lemma delimiter_not_in n ds : plain n → delimiter ds → ∀ d, d ∈ ds → d ∉ n.
Proof.
  intros Hn [_ Hds] d Hd. rewrite Forall_forall in Hds.
  by apply plain_not_special; [|apply Hds].
Qed.

Lemma occurs_in_pieces n pre ds1 g ds2 rest :
  plain n → n ≠ [] → delimiter ds1 → delimiter ds2 →
  occurs_in n (pre ++ ds1 ++ g ++ ds2 ++ rest) →
  occurs_in n pre ∨ occurs_in n g ∨ occurs_in n rest.
Proof.
  intros Hn Hne H1 H2 H.
  apply occurs_in_split_block in H as [H|H];
    [by left| |apply H1|by apply delimiter_not_in].
  apply occurs_in_split_block in H as [H|H];
    [by right; left|by right; right|apply H2|by apply delimiter_not_in].
Qed.

Lemma delimiter_lit2 c : special c = true → delimiter [c; c].
Proof. intros H. split; [done|]. by repeat constructor. Qed.

Lemma delimiter_lit1 c : special c = true → delimiter [c].
Proof. intros H. split; [done|]. by repeat constructor. Qed.

Lemma occurs_in_mid n a g b : occurs_in n g → occurs_in n (a ++ g ++ b).
Proof. intros H. by apply occurs_in_app_r, occurs_in_app_l. Qed.

Lemma bold_ok : matcher_ok bold_at.
Proof.
  assert (∀ b s r rest, bold_at b s = Some (r, rest) →
            ∃ g ds, delimiter ds ∧ s = lit "**" ++ g ++ ds ++ rest
                    ∧ r = lit "<strong>" ++ g ++ lit "</strong>") as Hspec.
  { intros b s r rest. unfold bold_at. intros H.
    apply bind_Some in H as (s1 & E1 & H).
    apply bind_Some in H as ([g rest'] & E2 & [= <- <-]).
    apply expect_spec in E1 as ->.
    apply lazy_dots1_spec in E2 as (ds & Hds & ->);
      [|by apply expect_closes, (delimiter_lit2 STAR)].
    eauto 6. }
  split.
  - intros b s r rest H. destruct (Hspec _ _ _ _ H) as (g & ds & Hds & -> & _).
    exists (lit "**" ++ g ++ ds). split; [done|]. by rewrite <- !app_assoc.
  - intros b x s r rest H.
    destruct (Hspec _ _ _ _ H) as (g & ds & Hds & [= -> _] & _). by left.
  - intros b s r rest H Hs.
    destruct (Hspec _ _ _ _ H) as (g & ds & Hds & -> & ->).
    apply tags_ok_piece in Hs; [|done].
    apply (tags_ok_app (lit "<strong>")); [done|]. by apply tags_ok_app.
  - intros n b s r rest Hn Hne H Hs.
    destruct (Hspec _ _ _ _ H) as (g & ds & Hds & -> & ->).
    apply (occurs_in_pieces n [] (lit "**")) in Hs as [Hs|[Hs|Hs]];
      try done; [| |by right|by apply (delimiter_lit2 STAR)].
    + by apply occurs_in_nil in Hs.
    + left. by apply occurs_in_mid.
Qed.

Lemma highlight_ok : matcher_ok highlight_at.
Proof.
  assert (∀ b s r rest, highlight_at b s = Some (r, rest) →
            ∃ g ds, delimiter ds ∧ s = lit "==" ++ g ++ ds ++ rest
                    ∧ r = lit "<mark>" ++ g ++ lit "</mark>") as Hspec.
  { intros b s r rest. unfold highlight_at. intros H.
    apply bind_Some in H as (s1 & E1 & H).
    apply bind_Some in H as ([g rest'] & E2 & [= <- <-]).
    apply expect_spec in E1 as ->.
    apply lazy_dots_spec in E2 as (ds & Hds & ->);
      [|by apply expect_closes, (delimiter_lit2 EQUALS)].
    eauto 6. }
  split.
  - intros b s r rest H. destruct (Hspec _ _ _ _ H) as (g & ds & Hds & -> & _).
    exists (lit "==" ++ g ++ ds). split; [done|]. by rewrite <- !app_assoc.
  - intros b x s r rest H.
    destruct (Hspec _ _ _ _ H) as (g & ds & Hds & [= -> _] & _). by left.
  - intros b s r rest H Hs.
    destruct (Hspec _ _ _ _ H) as (g & ds & Hds & -> & ->).
    apply tags_ok_piece in Hs; [|done].
    apply (tags_ok_app (lit "<mark>")); [done|]. by apply tags_ok_app.
  - intros n b s r rest Hn Hne H Hs.
    destruct (Hspec _ _ _ _ H) as (g & ds & Hds & -> & ->).
    apply (occurs_in_pieces n [] (lit "==")) in Hs as [Hs|[Hs|Hs]];
      try done; [| |by right|by apply (delimiter_lit2 EQUALS)].
    + by apply occurs_in_nil in Hs.
    + left. by apply occurs_in_mid.
Qed.

Lemma italic_body_spec pre s r rest :
  italic_body pre s = Some (r, rest) →
  ∃ g ds, delimiter ds ∧ s = [STAR] ++ g ++ ds ++ rest
          ∧ r = pre ++ lit "<em>" ++ g ++ lit "</em>".
Proof.
  unfold italic_body. intros H.
  apply bind_Some in H as (s1 & E1 & H).
  apply bind_Some in H as ([g rest'] & E2 & [= <- <-]).
  apply lone_star_spec in E1 as ->.
  apply lazy_dots1_spec in E2 as (ds & Hds & ->); [|apply lone_star_closes].
  eauto 6.
Qed.

Lemma italic_ok : matcher_ok italic_at.
Proof.
  assert (∀ b s r rest, italic_at b s = Some (r, rest) →
            ∃ pre g ds, delimiter ds ∧ s = pre ++ [STAR] ++ g ++ ds ++ rest
                    ∧ r = pre ++ lit "<em>" ++ g ++ lit "</em>"
                    ∧ (pre = [] ∨ ∃ c, pre = [c])) as Hspec.
  { intros b s r rest. unfold italic_at.
    destruct (if b then italic_body [] s else None) as [[r0 rest0]|] eqn:E.
    - intros [= <- <-]. destruct b; [|done].
      apply italic_body_spec in E as (g & ds & Hds & -> & ->).
      exists [], g, ds. eauto.
    - destruct s as [|c s]; [done|]. destruct (c =? STAR); [done|].
      intros H. apply italic_body_spec in H as (g & ds & Hds & -> & ->).
      exists [c], g, ds. eauto 6. }
  split.
  - intros b s r rest H.
    destruct (Hspec _ _ _ _ H) as (pre & g & ds & Hds & -> & _).
    exists (pre ++ [STAR] ++ g ++ ds). split; [by destruct pre|].
    by rewrite <- !app_assoc.
  - intros b x s r rest H.
    destruct (Hspec _ _ _ _ H) as (pre & g & ds & Hds & Hs & -> & [->|[c ->]]).
    + injection Hs as -> _. by left.
    + injection Hs as -> ->. right. eauto 6.
  - intros b s r rest H Hs.
    destruct (Hspec _ _ _ _ H) as (pre & g & ds & Hds & -> & -> & _).
    pose proof (tags_ok_cut pre STAR _ eq_refl Hs) as Hpre.
    rewrite (app_assoc pre [STAR]) in Hs.
    apply (tags_ok_piece (pre ++ [STAR])) in Hs; [|done].
    apply tags_ok_app; [done|].
    apply (tags_ok_app (lit "<em>")); [done|]. by apply tags_ok_app.
  - intros n b s r rest Hn Hne H Hs.
    destruct (Hspec _ _ _ _ H) as (pre & g & ds & Hds & -> & -> & _).
    apply (occurs_in_pieces n pre [STAR]) in Hs as [Hs|[Hs|Hs]];
      try done; [| |by right|by apply (delimiter_lit1 STAR)].
    + left. by apply occurs_in_app_l.
    + left. by apply occurs_in_app_r, occurs_in_mid.
Qed.

Lemma char_ok c r :
  special c = true → tags_ok r = true → matcher_ok (char_at c r).
Proof.
  intros Hc Hr.
  assert (∀ b s r' rest, char_at c r b s = Some (r', rest) →
            s = c :: rest ∧ r' = r) as Hspec.
  { intros b [|x s] r' rest; simpl; [done|].
    destruct (N.eqb_spec x c) as [->|]; [|done]. by intros [= <- <-]. }
  split.
  - intros b s r' rest H. destruct (Hspec _ _ _ _ H) as [-> _]. by exists [c].
  - intros b x s r' rest H. destruct (Hspec _ _ _ _ H) as [[= -> _] _]. by left.
  - intros b s r' rest H _. by destruct (Hspec _ _ _ _ H) as [_ ->].
  - intros n b s r' rest Hn Hne H Hs. destruct (Hspec _ _ _ _ H) as [-> _].
    right. apply (occurs_in_split n []) in Hs as [Hs|Hs]; [|done|].
    + by apply occurs_in_nil in Hs.
    + by apply plain_not_special.
Qed.

Lemma replace_char_tags c r s :
  special c = true → tags_ok r = true →
  tags_ok s = true → tags_ok (replace_char c r s) = true.
Proof. intros Hc Hr. apply replace_from_tags. by apply char_ok. Qed.

Lemma replace_char_needle c r n s :
  special c = true → tags_ok r = true → plain n → n ≠ [] →
  occurs_in n s → occurs_in n (replace_char c r s).
Proof. intros Hc Hr. apply replace_from_needle. by apply char_ok. Qed.

Lemma link_at_spec b s r rest :
  link_at b s = Some (r, rest) →
  ∃ text url,
    s = lit "[" ++ text ++ lit "](" ++ url ++ lit ")" ++ rest
    ∧ r = link_head ++ replace_char QUOTE (lit "%22") url ++ link_attrs
          ++ replace_char QUOTE (lit "&quot;") text ++ lit "</a>".
Proof.
  unfold link_at. intros H.
  apply bind_Some in H as (s1 & E1 & H).
  apply bind_Some in H as ([text s2] & E2 & H).
  apply bind_Some in H as (s3 & E3 & H).
  apply bind_Some in H as (s4 & E4 & H).
  apply bind_Some in H as ([scheme s5] & E5 & H).
  apply bind_Some in H as ([tail s6] & E6 & H).
  apply bind_Some in H as (rest' & E7 & [= <- <-]).
  apply expect_spec in E1, E3, E4, E7.
  apply greedy_run1_spec in E2 as [E2 _], E6 as [E6 _].
  assert (∃ sch, s4 = sch ++ s5 ∧ scheme = lit "http" ++ sch) as (sch & E & Hsch).
  { destruct (expect (lit "s://") s4) as [s5'|] eqn:E.
    - injection E5 as <- <-. apply expect_spec in E. by exists (lit "s://").
    - apply bind_Some in E5 as (s5' & E5 & [= <- <-]).
      apply expect_spec in E5. by exists (lit "://"). }
  clear E5. subst. exists text, ((lit "http" ++ sch) ++ tail). split.
  - rewrite <- !app_assoc. reflexivity.
  - unfold link_head, link_attrs. rewrite <- !app_assoc. reflexivity.
Qed.

Lemma link_ok : matcher_ok link_at.
Proof.
  assert (delimiter (lit "[")) as Hd1 by by apply (delimiter_lit1 LBRACK).
  assert (delimiter (lit "](")) as Hd2 by (split; [done|by repeat constructor]).
  assert (delimiter (lit ")")) as Hd3 by by apply (delimiter_lit1 RPAREN).
  split.
  - intros b s r rest H. destruct (link_at_spec _ _ _ _ H) as (text & url & -> & _).
    exists (lit "[" ++ text ++ lit "](" ++ url ++ lit ")"). split; [done|].
    by rewrite <- !app_assoc.
  - intros b x s r rest H.
    destruct (link_at_spec _ _ _ _ H) as (text & url & [= -> _] & _). by left.
  - intros b s r rest H Hs.
    destruct (link_at_spec _ _ _ _ H) as (text & url & -> & ->).
    pose proof (tags_ok_piece (lit "[") text (lit "](") _ Hd2 Hs) as Ht.
    rewrite (app_assoc text), (app_assoc (lit "[")) in Hs.
    pose proof (tags_ok_piece _ url (lit ")") _ Hd3 Hs) as Hu.
    repeat apply tags_ok_app; try done; by apply replace_char_tags.
  - intros n b s r rest Hn Hne H Hs.
    destruct (link_at_spec _ _ _ _ H) as (text & url & -> & ->).
    apply (occurs_in_pieces n [] (lit "[") text (lit "](")) in Hs
      as [Hs|[Hs|Hs]]; try done.
    + by apply occurs_in_nil in Hs.
    + left. do 3 apply occurs_in_app_r. apply occurs_in_app_l.
      by apply replace_char_needle.
    + apply occurs_in_split_block in Hs as [Hs|Hs];
        [|by right|apply Hd3|by apply delimiter_not_in].
      left. apply occurs_in_app_r, occurs_in_app_l.
      by apply replace_char_needle.
Qed.

(** *** The escaping of the angle brackets *)
Lemma replace_char_bind c r s :
  replace_char c r s = s ≫= (λ x, if x =? c then r else [x]).
Proof.
  unfold replace_char, replace_all. generalize true as b.
  induction s as [|x s IH]; intros b; [done|].
  simpl. destruct (x =? c); simpl.
  - rewrite Nat.sub_diag. by rewrite IH.
  - by rewrite IH.
Qed.

Lemma escape_no_lt md : LT ∉ escape md.
Proof.
  unfold escape. rewrite !replace_char_bind. intros H.
  apply list_elem_of_bind in H as (x & Hx & H).
  destruct (x =? GT) eqn:Egt.
  - apply list_elem_of_In in Hx. vm_compute in Hx. intuition discriminate.
  - apply list_elem_of_singleton in Hx. subst x.
    apply list_elem_of_bind in H as (y & Hy & _).
    destruct (y =? LT) eqn:Elt.
    + apply list_elem_of_In in Hy. vm_compute in Hy. intuition discriminate.
    + apply list_elem_of_singleton in Hy. subst y. done.
Qed.

Lemma tags_ok_no_lt s : LT ∉ s → tags_ok s = true.
Proof.
  induction s as [|c s IH]; intros H; [done|]. simpl.
  rewrite IH by (intros ?; apply H; by right).
  destruct (N.eqb_spec c LT) as [->|]; [|done]. destruct H. left.
Qed.

Lemma escape_script md :
  occurs_in (lit "<script>") md → occurs_in (lit "&lt;script&gt;") (escape md).
Proof.
  intros (a & b & ->). unfold escape. rewrite !replace_char_bind.
  rewrite !bind_app. eexists _, _. reflexivity.
Qed.

Lemma split_lines_cons c s :
  split_lines (c :: s)
  = if c =? LF then [] :: split_lines s
    else match s with
         | d :: s'' =>
             if (c =? CR) && (d =? LF) then [] :: split_lines s''
             else match split_lines s with
                  | l :: ls => (c :: l) :: ls
                  | [] => [[c]]
                  end
         | [] => [[c]]
         end.
Proof. done. Qed.

Lemma split_lines_spec s :
  ∃ l, (split_lines s = [l] ∧ s = l)
       ∨ ∃ sep rest, delimiter sep ∧ s = l ++ sep ++ rest
                     ∧ split_lines s = l :: split_lines rest.
Proof.
  induction s as [|c s IH]; [exists []; by left|].
  rewrite split_lines_cons. destruct (N.eqb_spec c LF) as [->|Hc].
  { exists []. right. exists [LF], s. split; [by apply (delimiter_lit1 LF)|done]. }
  destruct s as [|d s]; [exists [c]; by left|].
  destruct ((c =? CR) && (d =? LF)) eqn:E.
  { apply andb_true_iff in E as [->%N.eqb_eq ->%N.eqb_eq].
    exists []. right. exists [CR; LF], s.
    split; [split; [done|by repeat constructor]|done]. }
  destruct IH as [l [[Hl <-]|(sep & rest & Hsep & Hs & Hl)]].
  - rewrite Hl. exists (c :: d :: s). by left.
  - rewrite Hl. exists (c :: l). right. exists sep, rest.
    split; [done|]. by rewrite Hs.
Qed.

Lemma delimiter_cut a sep b :
  delimiter sep → tags_ok (a ++ sep ++ b) = true → tags_ok a = true.
Proof.
  intros [Hne Hs]. destruct sep as [|d sep]; [done|].
  apply Forall_cons in Hs as [Hd _]. by apply tags_ok_cut.
Qed.

Lemma split_lines_tags s : tags_ok s = true → all_tags_ok (split_lines s).
Proof.
  induction (Nat.lt_wf_0_projected length s) as [s _ IH]. intros Hs.
  destruct (split_lines_spec s) as [l [[-> <-]|(sep & rest & Hsep & -> & ->)]].
  - by repeat constructor.
  - constructor; [by eapply delimiter_cut|]. apply IH.
    + rewrite !length_app. destruct Hsep as [Hne _].
      destruct sep; [done|simpl; lia].
    + rewrite app_assoc in Hs. by apply tags_ok_suffix in Hs.
Qed.

Lemma split_lines_needle n s :
  plain n → n ≠ [] → occurs_in n s → some_has n (split_lines s).
Proof.
  intros Hn Hne.
  induction (Nat.lt_wf_0_projected length s) as [s _ IH]. intros Hs.
  destruct (split_lines_spec s) as [l [[-> <-]|(sep & rest & Hsep & -> & ->)]].
  - exists s. split; [left|done].
  - apply occurs_in_split_block in Hs as [Hs|Hs];
      [| |apply Hsep|by apply delimiter_not_in].
    + exists l. split; [left|done].
    + destruct (IH rest) as (l' & Hl' & Ho); [|done|].
      * rewrite !length_app. destruct Hsep as [Hne' _].
        destruct sep; [done|simpl; lia].
      * exists l'. split; [by right|done].
Qed.

Lemma join_cons sep p ps :
  join sep (p :: ps) = match ps with [] => p | _ => p ++ sep ++ join sep ps end.
Proof. by destruct ps. Qed.

Lemma join_tags sep ls :
  tags_ok sep = true → all_tags_ok ls → tags_ok (join sep ls) = true.
Proof.
  intros Hsep. induction 1 as [|l ls Hl _ IH]; [done|].
  rewrite join_cons. destruct ls; [done|].
  apply tags_ok_app; [done|]. by apply tags_ok_app.
Qed.

Lemma join_needle n sep ls : some_has n ls → occurs_in n (join sep ls).
Proof.
  intros (l & Hl & Ho). induction ls as [|p ps IH]; [by inversion Hl|].
  rewrite join_cons. apply elem_of_cons in Hl as [->|Hl].
  - destruct ps; [done|]. by apply occurs_in_app_l.
  - destruct ps as [|q ps]; [by inversion Hl|].
    apply occurs_in_app_r, occurs_in_app_r. by apply IH.
Qed.

Lemma concat_tags ls : all_tags_ok ls → tags_ok (concat ls) = true.
Proof.
  induction 1 as [|l ls Hl _ IH]; [done|]. simpl. by apply tags_ok_app.
Qed.

Lemma concat_needle n ls : some_has n ls → occurs_in n (concat ls).
Proof.
  intros (l & Hl & Ho). induction ls as [|p ps IH]; [by inversion Hl|].
  simpl. apply elem_of_cons in Hl as [->|Hl].
  - by apply occurs_in_app_l.
  - by apply occurs_in_app_r, IH.
Qed.

Lemma is_space_special c : is_space c = true → special c = true.
Proof. unfold special. by intros ->. Qed.

Lemma take_while_all p s : Forall (λ c, p c = true) (take_while p s).
Proof.
  induction s as [|c s IH]; simpl; [constructor|].
  destruct (p c) eqn:E; by constructor.
Qed.

(** [trim] strips white space at both ends. *)
Lemma trim_spec s :
  ∃ ws1 ws2, s = ws1 ++ trim s ++ ws2
             ∧ Forall (λ c, is_space c = true) ws1
             ∧ Forall (λ c, is_space c = true) ws2.
Proof.
  unfold trim. set (s' := drop_while is_space s).
  exists (take_while is_space s), (rev (take_while is_space (rev s'))).
  split; [|split].
  - rewrite <- rev_app_distr, take_drop_while, rev_involutive.
    unfold s'. by rewrite take_drop_while.
  - apply take_while_all.
  - apply Forall_forall. intros c Hc. apply list_elem_of_In, in_rev in Hc.
    pose proof (take_while_all is_space (rev s')) as H.
    rewrite Forall_forall in H. by apply H, list_elem_of_In.
Qed.

Lemma spaces_special ws :
  Forall (λ c, is_space c = true) ws → Forall (λ c, special c = true) ws.
Proof. intros H. eapply Forall_impl; [exact H|]. apply is_space_special. Qed.

Lemma trim_tags s : tags_ok s = true → tags_ok (trim s) = true.
Proof.
  intros Hs. destruct (trim_spec s) as (ws1 & ws2 & H & _ & H2).
  rewrite H in Hs. apply tags_ok_suffix in Hs.
  destruct ws2 as [|c ws2]; [by rewrite app_nil_r in Hs|].
  apply tags_ok_cut in Hs; [done|].
  apply Forall_cons in H2 as [H2 _]. by apply is_space_special.
Qed.

Lemma occurs_in_strip_l n ws x :
  plain n → n ≠ [] → Forall (λ c, special c = true) ws →
  occurs_in n (ws ++ x) → occurs_in n x.
Proof.
  intros Hn Hne Hws H. destruct ws as [|c ws]; [done|].
  apply (occurs_in_split_block n [] (c :: ws) x) in H as [H|H]; try done.
  - by apply occurs_in_nil in H.
  - by apply delimiter_not_in.
Qed.

Lemma occurs_in_strip_r n ws x :
  plain n → n ≠ [] → Forall (λ c, special c = true) ws →
  occurs_in n (x ++ ws) → occurs_in n x.
Proof.
  intros Hn Hne Hws H. destruct ws as [|c ws]; [by rewrite app_nil_r in H|].
  rewrite <- (app_nil_r (c :: ws)) in H.
  apply (occurs_in_split_block n x (c :: ws) []) in H as [H|H]; try done.
  - by apply occurs_in_nil in H.
  - by apply delimiter_not_in.
Qed.

Lemma trim_needle n s : plain n → n ≠ [] → occurs_in n s → occurs_in n (trim s).
Proof.
  intros Hn Hne Hs. destruct (trim_spec s) as (ws1 & ws2 & H & H1 & H2).
  rewrite H in Hs. apply occurs_in_strip_l in Hs; [|done|done|by apply spaces_special].
  by apply occurs_in_strip_r in Hs; [|done|done|apply spaces_special].
Qed.

Lemma split_on_cons c x s :
  split_on c (x :: s)
  = if x =? c then [] :: split_on c s
    else match split_on c s with
         | l :: ls => (x :: l) :: ls
         | [] => [[x]]
         end.
Proof. done. Qed.

Lemma split_on_spec c s :
  ∃ l, (split_on c s = [l] ∧ s = l)
       ∨ ∃ rest, s = l ++ c :: rest ∧ split_on c s = l :: split_on c rest.
Proof.
  induction s as [|x s IH]; [exists []; by left|].
  rewrite split_on_cons. destruct (N.eqb_spec x c) as [->|Hx].
  { exists []. right. by exists s. }
  destruct IH as [l [[Hl <-]|(rest & Hs & Hl)]]; rewrite Hl.
  - exists (x :: s). by left.
  - exists (x :: l). right. exists rest. by rewrite Hs.
Qed.

Lemma split_on_tags c s :
  special c = true → tags_ok s = true → all_tags_ok (split_on c s).
Proof.
  intros Hc. induction (Nat.lt_wf_0_projected length s) as [s _ IH]. intros Hs.
  destruct (split_on_spec c s) as [l [[-> <-]|(rest & -> & ->)]].
  - by repeat constructor.
  - constructor; [by eapply tags_ok_cut|]. apply IH.
    + rewrite length_app. simpl. lia.
    + by apply (tags_ok_suffix (l ++ [c])); rewrite <- app_assoc.
Qed.

Lemma split_on_needle n c s :
  special c = true → plain n → n ≠ [] →
  occurs_in n s → some_has n (split_on c s).
Proof.
  intros Hc Hn Hne.
  induction (Nat.lt_wf_0_projected length s) as [s _ IH]. intros Hs.
  destruct (split_on_spec c s) as [l [[-> <-]|(rest & -> & ->)]].
  - exists s. split; [left|done].
  - apply occurs_in_split in Hs as [Hs|Hs]; [| |by apply plain_not_special].
    + exists l. split; [left|done].
    + destruct (IH rest) as (l' & Hl' & Ho); [|done|].
      * rewrite length_app. simpl. lia.
      * exists l'. split; [by right|done].
Qed.

Lemma split_on_plain c a : c ∉ a → split_on c a = [a].
Proof.
  induction a as [|x a IH]; intros Hc; [done|].
  rewrite split_on_cons. destruct (N.eqb_spec x c) as [->|Hx].
  - destruct Hc. left.
  - rewrite IH; [done|]. intros ?. apply Hc. by right.
Qed.

Lemma split_on_app c a b :
  split_on c (a ++ c :: b) = split_on c a ++ split_on c b.
Proof.
  induction a as [|x a IH]; simpl app.
  - rewrite split_on_cons, N.eqb_refl. done.
  - rewrite !split_on_cons. destruct (x =? c); [by rewrite IH|].
    rewrite IH. destruct (split_on c a) as [|l ls] eqn:E; [|done].
    destruct (split_on_spec c a) as [l [[H _]|(rest & _ & H)]]; congruence.
Qed.

Lemma slice_1_m1_keeps {A} (P : A → Prop) l :
  Forall P l → Forall P (slice_1_m1 l).
Proof. intros H. unfold slice_1_m1. by apply Forall_take, Forall_drop. Qed.

Lemma slice_1_m1_middle {A} (a z : A) M : slice_1_m1 (a :: M ++ [z]) = M.
Proof.
  unfold slice_1_m1.
  replace (length (a :: M ++ [z]) - 2)%nat with (length M)
    by (simpl; rewrite length_app; simpl; lia).
  change (drop 1 (a :: M ++ [z])) with (M ++ [z]).
  by rewrite take_app_length.
Qed.

Lemma is_table_line_spec line :
  is_table_line line = true →
  ∃ ws1 mid ws2,
    line = ws1 ++ PIPE :: mid ++ PIPE :: ws2
    ∧ Forall (λ c, is_space c = true) ws1
    ∧ Forall (λ c, is_space c = true) ws2.
Proof.
  unfold is_table_line. pose proof (take_drop_while is_space line) as H1.
  destruct (drop_while is_space line) as [|c body]; [done|].
  intros H. apply andb_true_iff in H as [->%N.eqb_eq H].
  pose proof (take_drop_while is_space (rev body)) as H2.
  destruct (drop_while is_space (rev body)) as [|d mid]; [done|].
  apply andb_true_iff in H as [->%N.eqb_eq _].
  exists (take_while is_space line), (rev mid),
         (rev (take_while is_space (rev body))).
  split; [|split].
  - rewrite <- H1 at 1. f_equal. f_equal.
    apply (f_equal (@rev N)) in H2.
    rewrite rev_involutive, rev_app_distr in H2. simpl in H2.
    rewrite <- app_assoc in H2. by symmetry.
  - apply take_while_all.
  - apply Forall_forall. intros c Hc. apply list_elem_of_In, in_rev in Hc.
    pose proof (take_while_all is_space (rev body)) as H.
    rewrite Forall_forall in H. by apply H, list_elem_of_In.
Qed.

Lemma pipe_not_space ws : Forall (λ c, is_space c = true) ws → PIPE ∉ ws.
Proof.
  intros H Hin. rewrite Forall_forall in H. by apply H in Hin.
Qed.

Lemma row_cells_cells tag line :
  row_cells tag line = concat (cell tag <$> slice_1_m1 (split_on PIPE line)).
Proof. done. Qed.

Lemma cell_tags tag c :
  tags_ok (lit "<" ++ lit tag ++ lit ">") = true →
  tags_ok (lit "</" ++ lit tag ++ lit ">") = true →
  tags_ok c = true → tags_ok (cell tag c) = true.
Proof.
  intros H1 H2 Hc. unfold cell.
  rewrite (app_assoc (lit "<")), (app_assoc _ (lit ">")).
  apply tags_ok_app; [by rewrite <- app_assoc|].
  apply tags_ok_app; [by apply trim_tags|done].
Qed.

Lemma row_cells_tags tag line :
  tags_ok (lit "<" ++ lit tag ++ lit ">") = true →
  tags_ok (lit "</" ++ lit tag ++ lit ">") = true →
  tags_ok line = true → tags_ok (row_cells tag line) = true.
Proof.
  intros H1 H2 Hl. rewrite row_cells_cells. apply concat_tags.
  apply Forall_fmap. eapply Forall_impl.
  - apply slice_1_m1_keeps, (split_on_tags PIPE line eq_refl Hl).
  - intros c Hc. by apply cell_tags.
Qed.

Lemma row_cells_needle n tag line :
  plain n → n ≠ [] → is_table_line line = true →
  occurs_in n line → occurs_in n (row_cells tag line).
Proof.
  intros Hn Hne Ht Ho.
  destruct (is_table_line_spec line Ht) as (ws1 & mid & ws2 & -> & H1 & H2).
  rewrite row_cells_cells, split_on_app, (split_on_plain PIPE ws1)
    by by apply pipe_not_space.
  rewrite split_on_app, (split_on_plain PIPE ws2) by by apply pipe_not_space.
  simpl app. rewrite slice_1_m1_middle.
  apply occurs_in_strip_l in Ho; [|done|done|by apply spaces_special].
  apply (occurs_in_strip_l n [PIPE]) in Ho; [|done|done|by repeat constructor].
  apply occurs_in_strip_r in Ho;
    [|done|done|constructor; [done|by apply spaces_special]].
  destruct (split_on_needle n PIPE mid eq_refl Hn Hne Ho) as (p & Hp & Hop).
  apply concat_needle. exists (cell tag p). split.
  - apply list_elem_of_fmap. by exists p.
  - unfold cell. do 3 apply occurs_in_app_r. apply occurs_in_app_l.
    by apply trim_needle.
Qed.

Lemma sep_scan_special st l :
  sep_scan st l = true → Forall (λ c, special c = true) l.
Proof.
  assert (∀ c, is_dash c = true → special c = true) as Hdash.
  { intros c. unfold is_dash, special. rewrite orb_true_iff.
    intros [->| ->]; by rewrite ?orb_true_r. }
  assert (∀ c, (c =? PIPE) = true → special c = true) as Hpipe.
  { intros c ->%N.eqb_eq. done. }
  revert st. induction l as [|c l IH]; intros st H; [constructor|].
  simpl in H. constructor.
  - destruct st as [|n|k n|n];
      repeat match type of H with
        | (if ?b then _ else _) = true =>
            let E := fresh in destruct b eqn:E
        end; try done; auto using is_space_special.
  - destruct st as [|n|k n|n];
      repeat match type of H with
        | (if ?b then _ else _) = true => destruct b
        end; try done; by eapply IH.
Qed.

Lemma plain_not_all_special n l :
  plain n → n ≠ [] → Forall (λ c, special c = true) l → ¬ occurs_in n l.
Proof.
  intros Hn Hne Hl (a & b & ->). destruct n as [|c n]; [done|].
  apply Forall_app in Hl as [_ Hl]. apply Forall_app in Hl as [Hl _].
  apply Forall_cons in Hl as [Hc _]. apply Forall_cons in Hn as [Hc' _].
  congruence.
Qed.

Lemma processTable_cases buffer :
  processTable buffer = join [LF] buffer
  ∨ ∃ h sepl data,
      buffer = h :: sepl :: data ∧ is_separator_line sepl = true
      ∧ processTable buffer
        = lit "<table>"
          ++ (lit "<thead><tr>" ++ row_cells "th" h ++ lit "</tr></thead>")
          ++ (lit "<tbody>"
              ++ concat ((λ line, lit "<tr>" ++ row_cells "td" line ++ lit "</tr>")
                         <$> data)
              ++ lit "</tbody>")
          ++ lit "</table>".
Proof.
  unfold processTable. destruct (length buffer <? 2)%nat; [by left|].
  destruct buffer as [|h [|sepl data]]; [by left|by left|].
  destruct (is_separator_line sepl) eqn:E; [|by left].
  right. exists h, sepl, data. done.
Qed.

Lemma processTable_tags buffer :
  all_tags_ok buffer → tags_ok (processTable buffer) = true.
Proof.
  intros Hb. destruct (processTable_cases buffer)
    as [->|(h & sepl & data & -> & _ & ->)]; [by apply join_tags|].
  apply Forall_cons in Hb as [Hh Hb]. apply Forall_cons in Hb as [_ Hd].
  repeat apply tags_ok_app; try done.
  - by apply row_cells_tags.
  - apply concat_tags, Forall_fmap. eapply Forall_impl; [exact Hd|].
    intros l Hl. cbv beta. repeat apply tags_ok_app; try done.
    by apply row_cells_tags.
Qed.

Lemma processTable_needle n buffer :
  plain n → n ≠ [] →
  Forall (λ l, is_table_line l = true) buffer →
  some_has n buffer → occurs_in n (processTable buffer).
Proof.
  intros Hn Hne Hb Hs. destruct (processTable_cases buffer)
    as [->|(h & sepl & data & -> & Hsep & ->)]; [by apply join_needle|].
  apply Forall_cons in Hb as [Hh Hb]. apply Forall_cons in Hb as [_ Hd].
  destruct Hs as (l & Hl & Ho).
  apply elem_of_cons in Hl as [->|Hl].
  { apply occurs_in_app_r, occurs_in_app_l, occurs_in_mid.
    by apply row_cells_needle. }
  apply elem_of_cons in Hl as [->|Hl].
  { destruct (plain_not_all_special n sepl Hn Hne); [|done].
    by eapply sep_scan_special. }
  do 2 apply occurs_in_app_r. apply occurs_in_app_l, occurs_in_mid.
  apply concat_needle. eexists. split.
  - apply list_elem_of_fmap. by exists l.
  - cbv beta. apply occurs_in_mid, row_cells_needle; try done.
    rewrite Forall_forall in Hd. by apply Hd.
Qed.

Lemma table_loop_tags lines : ∀ output buffer,
  all_tags_ok lines → all_tags_ok output → all_tags_ok buffer →
  all_tags_ok (table_loop lines output buffer).1
  ∧ all_tags_ok (table_loop lines output buffer).2.
Proof.
  induction lines as [|line lines IH]; intros output buffer Hl Ho Hb; [done|].
  apply Forall_cons in Hl as [Hline Hl]. simpl.
  destruct (is_table_line line && (length buffer =? 0)%nat).
  { apply IH; try done. apply Forall_app. by repeat constructor. }
  destruct (0 <? length buffer)%nat.
  - destruct (is_table_line line).
    + apply IH; try done. apply Forall_app. by repeat constructor.
    + apply IH; try done; [|constructor].
      apply Forall_app. split; [done|]. constructor; [|by repeat constructor].
      by apply processTable_tags.
  - apply IH; try done. apply Forall_app. by repeat constructor.
Qed.

Lemma some_has_app_l n a b : some_has n a → some_has n (a ++ b).
Proof. intros (l & Hl & Ho). exists l. split; [|done]. apply elem_of_app. by left. Qed.

Lemma some_has_app_r n a b : some_has n b → some_has n (a ++ b).
Proof. intros (l & Hl & Ho). exists l. split; [|done]. apply elem_of_app. by right. Qed.

Lemma some_has_one n l : occurs_in n l → some_has n [l].
Proof. intros Ho. exists l. split; [left|done]. Qed.

Lemma table_loop_needle n lines : ∀ output buffer,
  plain n → n ≠ [] →
  Forall (λ l, is_table_line l = true) buffer →
  some_has n lines ∨ some_has n output ∨ some_has n buffer →
  Forall (λ l, is_table_line l = true) (table_loop lines output buffer).2
  ∧ (some_has n (table_loop lines output buffer).1
     ∨ some_has n (table_loop lines output buffer).2).
Proof.
  induction lines as [|line lines IH]; intros output buffer Hn Hne Hb H.
  { simpl. split; [done|]. destruct H as [(l & Hl & _)|H]; [by inversion Hl|done]. }
  assert (some_has n [line] ∨ some_has n lines ∨ some_has n output
          ∨ some_has n buffer) as H'.
  { destruct H as [(l & Hl & Ho)|[H|H]]; [|by auto|by auto].
    apply elem_of_cons in Hl as [->|Hl]; [left; by apply some_has_one|].
    right; left. by exists l. }
  clear H. simpl.
  destruct (is_table_line line) eqn:Et; simpl.
  - assert (Forall (λ l, is_table_line l = true) (buffer ++ [line])) as Hb'
      by (apply Forall_app; by repeat constructor).
    assert (some_has n lines ∨ some_has n output ∨ some_has n (buffer ++ [line]))
      as Hs by (destruct H' as [H|[H|[H|H]]];
                auto using some_has_app_l, some_has_app_r).
    destruct (length buffer =? 0)%nat eqn:E0; simpl; [by apply IH|].
    destruct (0 <? length buffer)%nat eqn:E1; [by apply IH|].
    apply Nat.eqb_neq in E0. apply Nat.ltb_ge in E1. lia.
  - destruct (0 <? length buffer)%nat eqn:E1.
    + apply IH; [done|done|by constructor|].
      destruct H' as [(l & Hl & Ho)|[H|[H|H]]]; auto.
      * right; left. apply some_has_app_r. exists l. split; [by right|done].
      * right; left. by apply some_has_app_l.
      * right; left. apply some_has_app_r. exists (processTable buffer).
        split; [left|]. by apply processTable_needle.
    + apply IH; [done|done|done|].
      destruct H' as [H|[H|[H|H]]]; auto using some_has_app_l, some_has_app_r.
Qed.

Lemma convertTables_tags text :
  tags_ok text = true → tags_ok (convertTables text) = true.
Proof.
  intros Ht. unfold convertTables.
  pose proof (table_loop_tags (split_lines text) [] []
                (split_lines_tags text Ht) ltac:(constructor) ltac:(constructor))
    as [Ho Hb].
  destruct (table_loop (split_lines text) [] []) as [output buffer].
  simpl in *. apply join_tags; [done|].
  destruct (0 <? length buffer)%nat; [|done].
  apply Forall_app. split; [done|]. constructor; [|constructor].
  by apply processTable_tags.
Qed.

Lemma convertTables_needle n text :
  plain n → n ≠ [] → occurs_in n text → occurs_in n (convertTables text).
Proof.
  intros Hn Hne Ht. unfold convertTables.
  pose proof (table_loop_needle n (split_lines text) [] [] Hn Hne
                ltac:(constructor)
                (or_introl (split_lines_needle n text Hn Hne Ht)))
    as [Hb H].
  destruct (table_loop (split_lines text) [] []) as [output buffer].
  simpl in *. apply join_needle.
  destruct (0 <? length buffer)%nat eqn:E.
  - destruct H as [H|H]; [by apply some_has_app_l|].
    apply some_has_app_r, some_has_one. by apply processTable_needle.
  - destruct H as [H|(l & Hl & _)]; [done|].
    apply Nat.ltb_ge in E. destruct buffer; [by inversion Hl|simpl in E; lia].
Qed.

(** *** The whole formatter *)
Lemma parseMarkdown_steps md :
  md ≠ [] →
  parseMarkdown md
  = convertTables
      (replace_all link_at
         (replace_all highlight_at
            (replace_all italic_at (replace_all bold_at (escape md))))).
Proof. by destruct md. Qed.

Lemma parseMarkdown_tags md : tags_ok (parseMarkdown md) = true.
Proof.
  destruct md as [|c md]; [done|]. rewrite parseMarkdown_steps by done.
  apply convertTables_tags.
  apply (replace_from_tags _ link_ok), (replace_from_tags _ highlight_ok),
    (replace_from_tags _ italic_ok), (replace_from_tags _ bold_ok).
  apply tags_ok_no_lt, escape_no_lt.
Qed.

Lemma escaped_script_plain : plain escaped_script ∧ escaped_script ≠ [].
Proof. split; [|done]. by repeat constructor. Qed.

(** C6: when the input contains [<script>], the output of
    [parseMarkdown] contains [&lt;script&gt;] and does not contain
    [<script>]: the angle brackets are escaped first, no later pass
    cuts into the escaped text, and every angle bracket that a later
    pass writes begins one of its own tags. *)
Theorem c6_script_is_escaped md :
  includes (lit "<script>") md = true →
  includes (lit "&lt;script&gt;") (parseMarkdown md) = true
  ∧ includes (lit "<script>") (parseMarkdown md) = false.
Proof.
  intros H. split; [|apply tags_ok_no_script, parseMarkdown_tags].
  apply includes_spec in H. apply includes_spec.
  destruct escaped_script_plain as [Hn Hne].
  rewrite parseMarkdown_steps by (intros ->; by apply occurs_in_nil in H).
  apply convertTables_needle; [done|done|].
  apply (replace_from_needle _ link_ok); [done|done|].
  apply (replace_from_needle _ highlight_ok); [done|done|].
  apply (replace_from_needle _ italic_ok); [done|done|].
  apply (replace_from_needle _ bold_ok); [done|done|].
  by apply escape_script.
Qed.


Lemma c6_script_is_escaped_witness :
  let md := lit "**x** <script>alert(1)</script> | *y* |" in
  includes (lit "<script>") md = true
  ∧ includes (lit "&lt;script&gt;") (parseMarkdown md) = true
  ∧ includes (lit "<script>") (parseMarkdown md) = false.
Proof.
  intros md. split; [by vm_compute|].
  apply (c6_script_is_escaped md). by vm_compute.
Defined.

End MarkdownFacts.

(** ** Settings and theme *)

Module SettingsFacts.
Import Adapter Repo RepoFacts Connection Settings.

Lemma openDB_settings r s : idb_settings (openDB r s).2 = idb_settings s.
Proof. unfold openDB. destruct (db s); [done|]. by destruct (open_error r). Qed.

Lemma openDB_localStorage r s : localStorage (openDB r s).2 = localStorage s.
Proof. unfold openDB. destruct (db s); [done|]. by destruct (open_error r). Qed.

Lemma openDB_db r s : db s = true → openDB r s = (Resolved (), s).
Proof. unfold openDB. by intros ->. Qed.

Lemma openDB_resolved_db r s s' : openDB r s = (Resolved (), s') → db s' = true.
Proof.
  unfold openDB. destruct (db s) eqn:E.
  - by intros [= <-].
  - destruct (open_error r); [done|]. by intros [= <-].
Qed.

(** What [find] gives on the records of a keyed store is the record under
    the key. *)
Lemma find_key_records k (m : gmap string setting) :
  (∀ k' rec, m !! k' = Some rec → key rec = k') →
  find_key k (records m) = m !! k.
Proof.
  intros Hk. unfold find_key.
  destruct (List.find _ _) as [rec|] eqn:E.
  - apply find_some in E as [Hin Heq].
    apply String.eqb_eq in Heq.
    apply list_elem_of_In in Hin. rewrite records_perm in Hin.
    apply list_elem_of_fmap in Hin as [[k' rec'] [-> Hin]].
    apply elem_of_map_to_list in Hin. simpl in *.
    rewrite <- Heq. by rewrite (Hk _ _ Hin).
  - destruct (m !! k) as [rec|] eqn:E'; [|done].
    exfalso.
    assert (rec ∈ records m) as Hin.
    { rewrite records_perm. apply list_elem_of_fmap. exists (k, rec).
      split; [done|]. by apply elem_of_map_to_list. }
    apply list_elem_of_In in Hin.
    pose proof (find_none _ _ E _ Hin) as Hn. simpl in Hn.
    rewrite (Hk _ _ E') in Hn. by rewrite String.eqb_refl in Hn.
Qed.

Lemma getAllFromStore_settings_resolved r s l s1 :
  getAllFromStore SETTINGS_STORE r s = (Resolved l, s1) →
  l = records (idb_settings s)
  ∧ idb_settings s1 = idb_settings s ∧ localStorage s1 = localStorage s
  ∧ todos s1 = todos s ∧ idb_todos s1 = idb_todos s.
Proof.
  unfold getAllFromStore. intros H.
  pose proof (openDB_settings r s) as Hs. pose proof (openDB_localStorage r s) as Hl.
  pose proof (openDB_todos r s) as Ht. pose proof (openDB_idb r s) as Hi.
  destruct (openDB_cases r s) as [[s' E]|[name E]].
  - rewrite E in Hs, Hl, Ht, Hi. simpl in *.
    rewrite (bind_resolved _ _ _ _ _ E) in H. revert H. run_m.
    destruct (settle _ _) eqn:Es; intros [= <- <-].
    apply settle_request_resolved in Es. by rewrite <- Hs.
  - by rewrite (bind_rejected _ _ _ _ _ E) in H.
Qed.

(** [getSetting] reads the store: the value under the key. *)
Lemma getSetting_resolved k r s x s1 :
  settings_keyed s →
  getSetting (Some k) r s = (Resolved x, s1) →
  k ≠ "" →
  x = value <$> (idb_settings s !! k).
Proof.
  intros Hk H Hne. unfold getSetting in H.
  apply String.eqb_neq in Hne. rewrite Hne in H.
  destruct (getAllFromStore SETTINGS_STORE r s) as [[|l|e] s0] eqn:E.
  - by rewrite (bind_pending _ _ _ _ E) in H.
  - rewrite (bind_resolved _ _ _ _ _ E) in H.
    apply getAllFromStore_settings_resolved in E as (-> & _).
    revert H. run_m. intros [= <- <-]. by rewrite find_key_records.
  - by rewrite (bind_rejected _ _ _ _ _ E) in H.
Qed.

Lemma putToStore_settings_resolved rec r s x s1 :
  putToStore SETTINGS_STORE rec r s = (Resolved x, s1) →
  x = key rec
  ∧ idb_settings s1 = (if committed (events r)
                       then <[key rec := rec]> (idb_settings s)
                       else idb_settings s)
  ∧ localStorage s1 = localStorage s
  ∧ todos s1 = todos s ∧ idb_todos s1 = idb_todos s.
Proof.
  unfold putToStore. intros H.
  pose proof (openDB_settings r s) as Hs. pose proof (openDB_localStorage r s) as Hl.
  pose proof (openDB_todos r s) as Ht. pose proof (openDB_idb r s) as Hi.
  destruct (openDB_cases r s) as [[s' E]|[name E]].
  - rewrite E in Hs, Hl, Ht, Hi. simpl in *.
    rewrite (bind_resolved _ _ _ _ _ E) in H. revert H. run_m.
    destruct (settle _ _) eqn:Es; intros [= <- <-].
    apply settle_request_resolved in Es.
    destruct (committed (events r)); simpl; rewrite ?Hs; done.
  - by rewrite (bind_rejected _ _ _ _ _ E) in H.
Qed.

Lemma setSetting_resolved k v r s p s1 :
  setSetting k v r s = (Resolved p, s1) →
  ∃ k', k = Some k' ∧ k' ≠ "" ∧ p = Setting k' v
  ∧ idb_settings s1 = (if committed (events r)
                       then <[k' := Setting k' v]> (idb_settings s)
                       else idb_settings s)
  ∧ localStorage s1 = localStorage s
  ∧ todos s1 = todos s ∧ idb_todos s1 = idb_todos s.
Proof.
  unfold setSetting. destruct k as [k|]; [|done].
  destruct (String.eqb k "") eqn:Ek; [done|].
  apply String.eqb_neq in Ek. intros H.
  destruct (putToStore SETTINGS_STORE (Setting k v) r s) as [[|x|e] s0] eqn:E.
  - by rewrite (bind_pending _ _ _ _ E) in H.
  - rewrite (bind_resolved _ _ _ _ _ E) in H.
    apply putToStore_settings_resolved in E as (_ & ? & ? & ? & ?).
    revert H. run_m. intros [= <- <-]. by exists k.
  - by rewrite (bind_rejected _ _ _ _ _ E) in H.
Qed.

Lemma settings_keyed_insert k v (m : gmap string setting) :
  (∀ k' rec, m !! k' = Some rec → key rec = k') →
  ∀ k' rec, <[k := Setting k v]> m !! k' = Some rec → key rec = k'.
Proof.
  intros Hk k' rec. destruct (decide (k = k')) as [<-|Hne].
  - rewrite lookup_insert_eq. by intros [= <-].
  - rewrite lookup_insert_ne by done. apply Hk.
Qed.

(** X1: a committed [setSetting] is read back by [getSetting]; the records
    of other keys stay as they were. *)
Theorem setting_round_trip
    (k : string) (v : string) (r r' : run) (s s1 s2 : state)
    (p : setting) (x : option string) (k' : string) :
  settings_keyed s →
  committed (events r) = true →
  setSetting (Some k) v r s = (Resolved p, s1) →
  getSetting (Some k') r' s1 = (Resolved x, s2) →
  k' ≠ "" →
  p = Setting k v
  ∧ (k' = k → x = Some v)
  ∧ (k' ≠ k → x = value <$> (idb_settings s !! k')).
Proof.
  intros Hk Hc Hset Hget Hne.
  apply setSetting_resolved in Hset as (k0 & [= <-] & Hk0 & -> & Hs & _).
  rewrite Hc in Hs.
  apply getSetting_resolved in Hget; [|intros ??; rewrite Hs; by apply settings_keyed_insert|done].
  rewrite Hs in Hget. split; [done|]. split.
  - intros ->. by rewrite lookup_insert_eq in Hget.
  - intros Hd. by rewrite lookup_insert_ne in Hget.
Qed.


Lemma putToStore_settings_rejected rec r s e :
  (putToStore SETTINGS_STORE rec r s).1 = Rejected e → ∃ name, e = DOMException name.
Proof.
  unfold putToStore.
  destruct (openDB_cases r s) as [[s' E]|[name E]].
  - rewrite (bind_resolved _ _ _ _ _ E). run_m. intros H.
    eapply settle_request_rejected; [|exact H]. done.
  - rewrite (bind_rejected _ _ _ _ _ E). simpl. intros [= <-]. by eexists.
Qed.

Lemma setSetting_body k v r s :
  k ≠ "" →
  setSetting (Some k) v r s
  = match putToStore SETTINGS_STORE (Setting k v) r s with
    | (Resolved _, s') => (Resolved (Setting k v), s')
    | (Rejected e, s') => (Rejected e, s')
    | (Pending, s') => (Pending, s')
    end.
Proof.
  intros Hne. unfold setSetting. apply String.eqb_neq in Hne. rewrite Hne.
  unfold mbind, M_bind. by destruct (putToStore _ _ _ _) as [[| |] ?].
Qed.

(** X2: an empty or missing key is refused by [setSetting] with its own
    error and answered with [null] by [getSetting], neither touching the
    database; [setSetting] gives that error for no other key. *)
Theorem setting_key_required
    (k : option string) (v : string) (r : run) (s : state) :
  (truthy k = false →
     setSetting k v r s = (Rejected (Error "setting key required"), s)
     ∧ getSetting k r s = (Resolved None, s))
  ∧ ((setSetting k v r s).1 = Rejected (Error "setting key required")
     → truthy k = false).
Proof.
  split.
  - destruct k as [k|]; [|done]. simpl. intros Hk.
    apply negb_false_iff in Hk. unfold setSetting, getSetting. by rewrite Hk.
  - destruct k as [k|]; [|done].
    destruct (String.eqb k "") eqn:Ek; [by unfold truthy; rewrite Ek|].
    apply String.eqb_neq in Ek. rewrite setSetting_body by done.
    destruct (putToStore _ _ _ _) as [[|x|e] s0] eqn:E; simpl; try done.
    intros [= ->].
    assert ((putToStore SETTINGS_STORE (Setting k v) r s).1
            = Rejected (Error "setting key required")) as H by by rewrite E.
    by apply putToStore_settings_rejected in H as [name ?].
Qed.

Lemma getAllFromStore_settings_ok s :
  getAllFromStore SETTINGS_STORE ok_run s
  = (Resolved (records (idb_settings s)), set_db true s).
Proof.
  unfold getAllFromStore, ok_run. rewrite (bind_resolved _ _ _ _ _ (openDB_ok _ s)).
  by run_m.
Qed.

(** X3: a key that the store does not hold reads as [null]. *)
Theorem getSetting_missing_key (k : string) (r : run) (s : state) :
  settings_keyed s →
  idb_settings s !! k = None →
  (∀ v, (getSetting (Some k) r s).1 ≠ Resolved (Some v))
  ∧ (getSetting (Some k) ok_run s).1 = Resolved None.
Proof.
  intros Hk Hm. split.
  - intros v H. destruct (decide (k = "")) as [->|Hne].
    + by unfold getSetting in H.
    + destruct (getSetting (Some k) r s) as [p s1] eqn:E. simpl in H. subst p.
      apply getSetting_resolved in E; [|done..]. by rewrite Hm in E.
  - unfold getSetting. destruct (String.eqb k "") eqn:Ek.
    + done.
    + rewrite (bind_resolved _ _ _ _ _ (getAllFromStore_settings_ok s)).
      run_m. rewrite find_key_records by done. by rewrite Hm.
Qed.


(** [setTheme] by the outcome of its write. *)
Lemma setTheme_body (themeName : string) r (ls_ok prefersDark : bool) pg :
  let effective :=
    if String.eqb themeName "auto"
    then (if prefersDark then "dark" else "light")
    else themeName in
  setTheme themeName r ls_ok prefersDark pg
  = match setSetting (Some "theme") themeName r (repo pg) with
    | (Resolved _, s) => (Resolved effective, Page s (Some effective))
    | (Rejected _, s) =>
        (Resolved effective,
         Page (if ls_ok
               then set_localStorage (<["theme" := themeName]> (localStorage s)) s
               else s)
              (Some effective))
    | (Pending, s) => (Pending, Page s (data_theme pg))
    end.
Proof.
  unfold setTheme, P_try_catch, on_repo, mbind, P_bind, mret, P_ret,
    localStorage_setItem, modify.
  destruct (setSetting _ _ _ _) as [[|x|e] s]; simpl; try done.
Qed.

Lemma getTheme_body r ls_ok s :
  getTheme r ls_ok s
  = match getSetting (Some "theme") r s with
    | (Resolved v, s') => (Resolved (or_else v "light"), s')
    | (Rejected _, s') =>
        (Resolved (or_else (if ls_ok then localStorage s' !! "theme" else None)
                           "light"), s')
    | (Pending, s') => (Pending, s')
    end.
Proof.
  unfold getTheme, try_catch, localStorage_getItem, get, mbind, M_bind, mret, M_ret.
  by destruct (getSetting _ _ _) as [[|x|e] s'].
Qed.

Lemma or_else_nonempty o d : d ≠ "" → or_else o d ≠ "".
Proof.
  intros Hd. destruct o as [x|]; simpl; [|done].
  destruct (String.eqb x "") eqn:E; [done|]. by apply String.eqb_neq.
Qed.

(** X4: [setTheme] never rejects. What it resolves with is the effective
    theme, [dark] or [light] by the preference of the browser for [auto]
    and the name itself otherwise, and the [data-theme] attribute of the
    page is set to it. *)
Theorem setTheme_effective
    (themeName : string) (r : run) (ls_ok prefersDark : bool) (pg : page) :
  let out := setTheme themeName r ls_ok prefersDark pg in
  (∀ e, out.1 ≠ Rejected e)
  ∧ (∀ x, out.1 = Resolved x →
       data_theme out.2 = Some x
       ∧ (themeName = "auto" → x = if prefersDark then "dark" else "light")
       ∧ (themeName ≠ "auto" → x = themeName))
  ∧ (out.1 = Pending → data_theme out.2 = data_theme pg).
Proof.
  intros out. subst out. rewrite setTheme_body.
  assert (∀ x, x = (if String.eqb themeName "auto"
                    then if prefersDark then "dark" else "light"
                    else themeName) →
          (themeName = "auto" → x = if prefersDark then "dark" else "light")
          ∧ (themeName ≠ "auto" → x = themeName)) as Heff.
  { intros x ->. split.
    - by intros ->.
    - intros Hne. apply String.eqb_neq in Hne. by rewrite Hne. }
  destruct (setSetting _ _ _ _) as [[|p|e] s]; simpl.
  - split; [done|]. split; [done|]. done.
  - split; [done|]. split; [|done]. intros x [= <-]. split; [done|]. by apply Heff.
  - split; [done|]. split; [|done]. intros x [= <-]. split; [done|]. by apply Heff.
Qed.

(** X5: when the write of the theme is rejected, the name goes to
    [localStorage] if the browser allows it; when the write is not
    rejected, [localStorage] is left alone. *)
Theorem setTheme_falls_back_to_localStorage
    (themeName : string) (r : run) (ls_ok prefersDark : bool) (pg : page) :
  let write := setSetting (Some "theme") themeName r (repo pg) in
  let out := setTheme themeName r ls_ok prefersDark pg in
  ((∃ e, write.1 = Rejected e) →
     localStorage (repo out.2)
     = if ls_ok then <["theme" := themeName]> (localStorage (repo pg))
       else localStorage (repo pg))
  ∧ ((∀ e, write.1 ≠ Rejected e) →
     localStorage (repo out.2) = localStorage (repo pg)).
Proof.
  intros write out. subst write out. rewrite setTheme_body.
  assert (localStorage (setSetting (Some "theme") themeName r (repo pg)).2
          = localStorage (repo pg)) as Hl.
  { rewrite setSetting_body by done.
    destruct (putToStore _ _ _ _) as [p s] eqn:E.
    assert (localStorage s = localStorage (repo pg)) as H.
    { unfold putToStore in E.
      pose proof (openDB_localStorage r (repo pg)) as Ho.
      destruct (openDB_cases r (repo pg)) as [[s' E']|[name E']].
      - rewrite E' in Ho. rewrite (bind_resolved _ _ _ _ _ E') in E.
        revert E. run_m. intros [= <- <-]. simpl in *.
        by destruct (committed (events r)).
      - rewrite (bind_rejected _ _ _ _ _ E') in E. by injection E as <- <-. }
    by destruct p. }
  destruct (setSetting _ _ _ _) as [[|p|e] s]; simpl in *.
  - split; [by intros [e ?]|done].
  - split; [by intros [e ?]|done].
  - split; [|intros H; by destruct (H e)].
    intros _. destruct ls_ok; simpl; by rewrite Hl.
Qed.

(** X6: [getTheme] never rejects, and the theme it resolves with is never
    empty: the stored value, or [light]. *)
Theorem getTheme_defaults_to_light (r : run) (ls_ok : bool) (s : state) :
  (∀ e, (getTheme r ls_ok s).1 ≠ Rejected e)
  ∧ (∀ x, (getTheme r ls_ok s).1 = Resolved x → x ≠ "")
  ∧ (settings_keyed s → idb_settings s !! "theme" = None →
     (getTheme ok_run ls_ok s).1 = Resolved "light").
Proof.
  rewrite !getTheme_body. split; [|split].
  - intros e. by destruct (getSetting _ _ _) as [[|x|e'] s'].
  - intros x. destruct (getSetting _ _ _) as [[|v|e'] s']; simpl; try done.
    + intros [= <-]. by apply or_else_nonempty.
    + intros [= <-]. by apply or_else_nonempty.
  - intros Hk Hm. unfold getSetting. simpl.
    rewrite (bind_resolved _ _ _ _ _ (getAllFromStore_settings_ok s)).
    run_m. rewrite find_key_records by done. by rewrite Hm.
Qed.

Lemma getAllFromStore_settings_frame r s :
  let s1 := (getAllFromStore SETTINGS_STORE r s).2 in
  idb_settings s1 = idb_settings s ∧ localStorage s1 = localStorage s.
Proof.
  unfold getAllFromStore.
  pose proof (openDB_settings r s) as Hs. pose proof (openDB_localStorage r s) as Hl.
  destruct (openDB_cases r s) as [[s' E]|[name E]].
  - rewrite E in Hs, Hl. rewrite (bind_resolved _ _ _ _ _ E). by run_m.
  - by rewrite (bind_rejected _ _ _ _ _ E).
Qed.

Lemma getSetting_frame k r s :
  let s1 := (getSetting k r s).2 in
  idb_settings s1 = idb_settings s ∧ localStorage s1 = localStorage s.
Proof.
  unfold getSetting. destruct k as [k|]; [|done].
  destruct (String.eqb k ""); [done|].
  pose proof (getAllFromStore_settings_frame r s) as H.
  unfold mbind, M_bind.
  by destruct (getAllFromStore SETTINGS_STORE r s) as [[|l|e] s0].
Qed.

Lemma putToStore_settings_frame rec r s :
  let s1 := (putToStore SETTINGS_STORE rec r s).2 in
  localStorage s1 = localStorage s
  ∧ (committed (events r) = false → idb_settings s1 = idb_settings s).
Proof.
  unfold putToStore.
  pose proof (openDB_settings r s) as Hs. pose proof (openDB_localStorage r s) as Hl.
  destruct (openDB_cases r s) as [[s' E]|[name E]].
  - rewrite E in Hs, Hl. rewrite (bind_resolved _ _ _ _ _ E). run_m.
    destruct (committed (events r)); simpl in *; by rewrite ?Hs.
  - by rewrite (bind_rejected _ _ _ _ _ E).
Qed.

(** X7: the theme that [setTheme] has written, its transaction completed,
    is the one [getTheme] gives when its read resolves: the name as
    given, [auto] included, and [light] for an empty name. *)
Theorem theme_round_trip
    (themeName : string) (r r' : run) (ls_ok ls_ok' prefersDark : bool)
    (pg : page) (p : setting) (s1 : state) (y : option string) (s2 : state) :
  settings_keyed (repo pg) →
  committed (events r) = true →
  setSetting (Some "theme") themeName r (repo pg) = (Resolved p, s1) →
  getSetting (Some "theme") r' s1 = (Resolved y, s2) →
  getTheme r' ls_ok' (repo (setTheme themeName r ls_ok prefersDark pg).2)
  = (Resolved (if String.eqb themeName "" then "light" else themeName), s2).
Proof.
  intros Hk Hc Hset Hget.
  assert (repo (setTheme themeName r ls_ok prefersDark pg).2 = s1) as ->.
  { by rewrite setTheme_body, Hset. }
  rewrite getTheme_body, Hget.
  apply setSetting_resolved in Hset as (k0 & [= <-] & _ & -> & Hs & _).
  rewrite Hc in Hs.
  apply getSetting_resolved in Hget;
    [|intros ??; rewrite Hs; by apply settings_keyed_insert|done].
  rewrite Hs, lookup_insert_eq in Hget. by subst y.
Qed.

(** X8: when the write of [setTheme] is rejected and its transaction does
    not complete, the name is in [localStorage] only. [getTheme] gives it
    back when its own read is rejected too; when the read resolves it
    gives the theme the store held before, or [light], and the name is
    not seen. *)
Theorem theme_fallback_read_back
    (themeName : string) (r r' : run) (prefersDark : bool)
    (pg : page) (e : error) (s1 : state) :
  let pg' := (setTheme themeName r true prefersDark pg).2 in
  settings_keyed (repo pg) →
  committed (events r) = false →
  setSetting (Some "theme") themeName r (repo pg) = (Rejected e, s1) →
  (∀ e' s2, getSetting (Some "theme") r' (repo pg') = (Rejected e', s2) →
     getTheme r' true (repo pg')
     = (Resolved (if String.eqb themeName "" then "light" else themeName), s2))
  ∧ (∀ y s2, getSetting (Some "theme") r' (repo pg') = (Resolved y, s2) →
     getTheme r' true (repo pg')
     = (Resolved (or_else (value <$> (idb_settings (repo pg) !! "theme")) "light"),
        s2)).
Proof.
  intros pg' Hk Hc Hset.
  assert (localStorage s1 = localStorage (repo pg)
          ∧ idb_settings s1 = idb_settings (repo pg)) as [Hl Hs].
  { rewrite setSetting_body in Hset by done.
    pose proof (putToStore_settings_frame (Setting "theme" themeName) r (repo pg)) as [H1 H2].
    destruct (putToStore _ _ _ _) as [[|x|e0] s0]; try done.
    injection Hset as <- <-. simpl in *. by rewrite H2. }
  assert (repo pg' = set_localStorage (<["theme" := themeName]> (localStorage s1)) s1)
    as ->.
  { subst pg'. by rewrite setTheme_body, Hset. }
  set (sA := set_localStorage _ s1). split.
  - intros e' s2 Hget. rewrite getTheme_body, Hget.
    pose proof (getSetting_frame (Some "theme") r' sA) as [_ Hl2].
    rewrite Hget in Hl2. simpl in Hl2. rewrite Hl2. subst sA. simpl.
    by rewrite lookup_insert_eq.
  - intros y s2 Hget. rewrite getTheme_body, Hget.
    apply getSetting_resolved in Hget;
      [|by intros ??; subst sA; simpl; rewrite Hs; apply Hk|done].
    subst sA. simpl in Hget. rewrite Hs in Hget. by subst y.
Qed.

Lemma settings_keyed_initial : settings_keyed initial.
Proof. intros k rec. unfold initial. simpl. by rewrite lookup_empty. Qed.

Lemma setting_round_trip_witness :
  let s1 := State true [] ∅ (<["theme" := Setting "theme" "dark"]> ∅) ∅ 0 in
  setSetting (Some "theme") "dark" ok_run initial
  = (Resolved (Setting "theme" "dark"), s1)
  ∧ getSetting (Some "theme") ok_run s1 = (Resolved (Some "dark"), s1)
  ∧ getSetting (Some "lang") ok_run s1 = (Resolved None, s1)
  ∧ Some "dark" = Some "dark"
  ∧ (None : option string) = value <$> (idb_settings initial !! "lang").
Proof.
  intros s1.
  pose proof settings_keyed_initial as Hk.
  assert (setSetting (Some "theme") "dark" ok_run initial
          = (Resolved (Setting "theme" "dark"), s1)) as Hset by by vm_compute.
  assert (getSetting (Some "theme") ok_run s1 = (Resolved (Some "dark"), s1))
    as Hget by by vm_compute.
  assert (getSetting (Some "lang") ok_run s1 = (Resolved None, s1))
    as Hget' by by vm_compute.
  split; [done|]. split; [done|]. split; [done|].
  destruct (setting_round_trip "theme" "dark" ok_run ok_run initial s1 s1
              (Setting "theme" "dark") (Some "dark") "theme"
              Hk eq_refl Hset Hget) as (_ & H1 & _); [done|].
  destruct (setting_round_trip "theme" "dark" ok_run ok_run initial s1 s1
              (Setting "theme" "dark") None "lang"
              Hk eq_refl Hset Hget') as (_ & _ & H2); [done|].
  split; [by apply H1|by apply H2].
Defined.

Lemma getSetting_missing_key_witness :
  (∀ v, (getSetting (Some "theme") ok_run initial).1 ≠ Resolved (Some v))
  ∧ (getSetting (Some "theme") ok_run initial).1 = Resolved None.
Proof.
  apply (getSetting_missing_key "theme" ok_run initial).
  - apply settings_keyed_initial.
  - done.
Defined.

Lemma theme_round_trip_witness :
  let pg := Page initial None in
  getTheme ok_run true (repo (setTheme "auto" ok_run true true pg).2)
  = (Resolved "auto",
     State true [] ∅ (<["theme" := Setting "theme" "auto"]> ∅) ∅ 0).
Proof.
  intros pg.
  apply (theme_round_trip "auto" ok_run ok_run true true true pg
           (Setting "theme" "auto")
           (State true [] ∅ (<["theme" := Setting "theme" "auto"]> ∅) ∅ 0)
           (Some "auto")).
  - apply settings_keyed_initial.
  - reflexivity.
  - by vm_compute.
  - by vm_compute.
Defined.

Lemma theme_fallback_read_back_witness :
  let failing := Run (Some "UnknownError") [] in
  let quota := Run None [ReqError "QuotaExceededError"] in
  let pg1 := (setTheme "dark" failing true false (Page initial None)).2 in
  let pg2 := (setTheme "dark" quota true false (Page initial None)).2 in
  (getTheme failing true (repo pg1)).1 = Resolved "dark"
  ∧ (getTheme ok_run true (repo pg2)).1 = Resolved "light".
Proof.
  intros failing quota pg1 pg2. split.
  - destruct (theme_fallback_read_back "dark" failing failing false
                (Page initial None) (DOMException "UnknownError") initial)
      as [H _].
    + apply settings_keyed_initial.
    + reflexivity.
    + by vm_compute.
    + pose proof (H (DOMException "UnknownError") (repo pg1)
                    ltac:(by vm_compute)) as H'.
      exact (f_equal fst H').
  - destruct (theme_fallback_read_back "dark" quota ok_run false
                (Page initial None) (DOMException "QuotaExceededError")
                (set_db true initial))
      as [_ H].
    + apply settings_keyed_initial.
    + reflexivity.
    + by vm_compute.
    + pose proof (H None (set_db true (repo pg2)) ltac:(by vm_compute)) as H'.
      exact (f_equal fst H').
Defined.


Lemma setting_key_required_witness :
  setSetting (Some "") "dark" ok_run initial
  = (Rejected (Error "setting key required"), initial)
  ∧ getSetting None ok_run initial = (Resolved None, initial).
Proof.
  split.
  - exact (proj1 (proj1 (setting_key_required (Some "") "dark" ok_run initial)
                    eq_refl)).
  - exact (proj2 (proj1 (setting_key_required None "dark" ok_run initial)
                    eq_refl)).
Defined.

Lemma setTheme_effective_witness :
  let out := setTheme "auto" ok_run true true (Page initial None) in
  out.1 = Resolved "dark" ∧ data_theme out.2 = Some "dark".
Proof.
  intros out.
  destruct (setTheme_effective "auto" ok_run true true (Page initial None))
    as (_ & H & _).
  assert (out.1 = Resolved "dark") as Hout by by vm_compute.
  split; [exact Hout|]. exact (proj1 (H "dark" Hout)).
Defined.

Lemma setTheme_falls_back_to_localStorage_witness :
  let failing := Run (Some "UnknownError") [] in
  localStorage (repo (setTheme "dark" failing true false (Page initial None)).2)
  = <["theme" := "dark"]> ∅
  ∧ localStorage (repo (setTheme "dark" ok_run true false (Page initial None)).2)
    = ∅.
Proof.
  intros failing. split.
  - apply (setTheme_falls_back_to_localStorage "dark" failing true false
             (Page initial None)).
    exists (DOMException "UnknownError"). by vm_compute.
  - apply (setTheme_falls_back_to_localStorage "dark" ok_run true false
             (Page initial None)).
    intros e. by vm_compute.
Defined.

Lemma getTheme_defaults_to_light_witness :
  (getTheme ok_run true initial).1 = Resolved "light".
Proof.
  apply (getTheme_defaults_to_light ok_run true initial).
  - apply settings_keyed_initial.
  - done.
Defined.

End SettingsFacts.

(** ** More about the repository *)

Module RepoProperties.
Import Adapter Repo RepoFacts Connection Settings SettingsFacts Terms.
Local Open Scope Z_scope.

(** *** The cached connection *)

Lemma bind_db {A B} (m : M A) (f : A → M B) s :
  (∀ s, db s = true → db (m s).2 = true) →
  (∀ a s, db s = true → db (f a s).2 = true) →
  db s = true → db ((m ≫= f) s).2 = true.
Proof.
  intros Hm Hf Hs. unfold mbind, M_bind. specialize (Hm s Hs).
  destruct (m s) as [[|a|e] s']; simpl in *; [done| |done]. by apply Hf.
Qed.

Lemma openDB_keeps_db r s : db s = true → db (openDB r s).2 = true.
Proof. intros H. by rewrite openDB_db. Qed.

Lemma getAllFromStore_db {R} (st : store_name R) r s :
  db s = true → db (getAllFromStore st r s).2 = true.
Proof.
  intros H. unfold getAllFromStore.
  rewrite (bind_resolved _ _ _ _ _ (openDB_db r s H)). by run_m.
Qed.

Lemma putToStore_db (t : task) r s :
  db s = true → db (putToStore TODOS_STORE t r s).2 = true.
Proof.
  intros H. unfold putToStore.
  rewrite (bind_resolved _ _ _ _ _ (openDB_db r s H)).
  simpl. destruct (id t); run_m; [|done]. by destruct (committed _).
Qed.

Lemma deleteFromStore_db i r s :
  db s = true → db (deleteFromStore TODOS_STORE i r s).2 = true.
Proof.
  intros H. unfold deleteFromStore.
  rewrite (bind_resolved _ _ _ _ _ (openDB_db r s H)).
  destruct i; run_m; [|done]. by destruct (committed _).
Qed.

Lemma clearStore_db {R} (st : store_name R) r s :
  (∀ m s0, db (set_store st m s0) = db s0) →
  db s = true → db (clearStore st r s).2 = true.
Proof.
  intros Hst H. unfold clearStore.
  rewrite (bind_resolved _ _ _ _ _ (openDB_db r s H)).
  run_m. destruct (committed _); [|done]. by rewrite Hst.
Qed.

Lemma normalize_db clock t s : db (normalize clock t s).2 = db s.
Proof.
  unfold normalize, now. run_m.
  by destruct (createdAt t), (updatedAt t).
Qed.

Lemma mapM_normalize_db clock l s : db (mapM (normalize clock) l s).2 = db s.
Proof.
  revert s. induction l as [|t l IH]; intros s; [done|].
  simpl. unfold mbind, M_bind.
  pose proof (normalize_db clock t s) as Hn.
  destruct (normalize_run clock t s) as (t' & s' & E & _). rewrite E in Hn |- *.
  simpl in Hn. specialize (IH s').
  destruct (mapM (normalize clock) l s') as [[|ts|e] s'']; simpl in *;
    by rewrite IH.
Qed.

Lemma loadTodos_db clock r s : db s = true → db (loadTodos clock r s).2 = true.
Proof.
  intros H. unfold loadTodos, try_catch.
  pose proof (getAllFromStore_db TODOS_STORE r s H) as Hg.
  unfold mbind at 1. unfold M_bind.
  destruct (getAllFromStore TODOS_STORE r s) as [[|l|e] s0]; simpl in *; try done.
  pose proof (mapM_normalize_db clock l s0) as Hm.
  unfold mbind, M_bind.
  destruct (mapM (normalize clock) l s0) as [[|ts|e] s1]; simpl in *;
    by rewrite Hm.
Qed.

Lemma addTodo_db todo r s : db s = true → db (addTodo todo r s).2 = true.
Proof.
  intros H. unfold addTodo. destruct todo as [t|]; [|done].
  destruct (negb (truthy (id t))); [done|].
  pose proof (putToStore_db t r s H) as Hp. unfold mbind, M_bind.
  by destruct (putToStore TODOS_STORE t r s) as [[|x|e] s0].
Qed.

Lemma updateTodo_db clock todo listed r s :
  db s = true → db (updateTodo clock todo listed r s).2 = true.
Proof.
  intros H. destruct (has_id todo) eqn:Hh.
  2:{ by rewrite updateTodo_guard. }
  destruct todo as [t|]; [|done]. simpl in Hh.
  rewrite updateTodo_body by done. cbv zeta.
  set (t' := set_updatedAt _ t). set (s0 := set_todos _ _).
  pose proof (putToStore_db t' r s0 H) as Hp.
  destruct (putToStore TODOS_STORE t' r s0) as [[|x|e] s1]; simpl in *; try done.
  by destruct (findIndex _ _).
Qed.

Lemma deleteTodo_db i r s : db s = true → db (deleteTodo i r s).2 = true.
Proof.
  intros H. unfold deleteTodo. destruct (negb (truthy i)); [done|].
  pose proof (deleteFromStore_db i r s H) as Hp. unfold mbind, M_bind.
  by destruct (deleteFromStore TODOS_STORE i r s) as [[|x|e] s0].
Qed.

Lemma delete_each_db l rs n s :
  db s = true → db (delete_each l rs n s).2 = true.
Proof.
  revert n s. induction l as [|i l IH]; intros n s H; [done|].
  simpl. apply bind_db; [|by intros; apply IH|done].
  intros. by apply deleteFromStore_db.
Qed.

Lemma clearCompleted_db rs s : db s = true → db (clearCompleted rs s).2 = true.
Proof.
  intros H. unfold clearCompleted. apply bind_db; [done| |done].
  intros l s0 H0. apply bind_db; [|done|done].
  intros. by apply delete_each_db.
Qed.

Lemma clearAllData_db r1 r2 ls_ok s :
  db s = true → db (clearAllData r1 r2 ls_ok s).2 = true.
Proof.
  intros H. unfold clearAllData. apply bind_db; [| |done].
  - intros. by apply clearStore_db.
  - intros _ s0 H0. apply bind_db; [| |done].
    + intros. by apply clearStore_db.
    + intros _ s1 H1. apply bind_db; [done| |done].
      intros _ s2 H2. unfold modify. simpl. by destruct ls_ok.
Qed.

Lemma exec_db clock c s : db s = true → db (exec clock c s) = true.
Proof.
  destruct c; simpl.
  - apply loadTodos_db.
  - apply addTodo_db.
  - apply updateTodo_db.
  - apply deleteTodo_db.
  - apply clearCompleted_db.
  - apply clearAllData_db.
Qed.

(** X9: once [initDB] has resolved, the connection stays cached through
    every call of the repository, and a helper called afterwards does not
    open the database again: a failing open request does not reach it. *)
Theorem connection_is_opened_once
    (clock : nat → Z) (r : run) (s s' : state) (cs : list call) :
  initDB r s = (Resolved (), s') →
  let s'' := run_calls clock cs s' in
  db s'' = true
  ∧ ∀ name evs (t : task) i,
      getAllFromStore TODOS_STORE (Run (Some name) evs) s''
      = getAllFromStore TODOS_STORE (Run None evs) s''
      ∧ putToStore TODOS_STORE t (Run (Some name) evs) s''
        = putToStore TODOS_STORE t (Run None evs) s''
      ∧ deleteFromStore TODOS_STORE i (Run (Some name) evs) s''
        = deleteFromStore TODOS_STORE i (Run None evs) s''.
Proof.
  intros Hinit s''. unfold initDB in Hinit. apply openDB_resolved_db in Hinit.
  assert (db s'' = true) as Hdb.
  { subst s''. revert s' Hinit. induction cs as [|c cs IH]; intros s' H; [done|].
    simpl. apply IH. by apply exec_db. }
  split; [done|]. intros name evs t i.
  unfold getAllFromStore, putToStore, deleteFromStore.
  by rewrite !(bind_resolved _ _ _ _ _ (openDB_db _ s'' Hdb)).
Qed.


(** *** The transaction helper *)

(** X10: [withStore] resolves only when its callback has not thrown and the
    transaction has completed; when the callback throws, the promise is
    rejected with what it threw, whatever the transaction does. *)
Theorem withStore_resolves_on_complete
    (thrown : option error) (r : run) (s : state) :
  ((withStore thrown r s).1 = Resolved () →
     thrown = None ∧ committed (events r) = true)
  ∧ (∀ err, thrown = Some err → db s = true →
     (withStore thrown r s).1 = Rejected err).
Proof.
  unfold withStore.
  assert (∀ evs p, p ≠ Pending →
            fold_left (λ p ev, withStore_listeners ev p) evs p = p) as Hsettled.
  { induction evs as [|ev evs IH]; intros p Hp; [done|]. simpl.
    assert (withStore_listeners ev p = p) as ->; [|by apply IH].
    destruct ev as [| | |[name|]|], p; done. }
  assert (∀ evs, fold_left (λ p ev, withStore_listeners ev p) evs Pending
                 = Resolved () → TxComplete ∈ evs) as Hres.
  { induction evs as [|ev evs IH]; [done|]. simpl.
    destruct ev as [| | |[name|]|]; simpl; intros H;
      try (apply list_elem_of_further; by apply IH).
    - apply list_elem_of_here.
    - by rewrite Hsettled in H.
    - by rewrite Hsettled in H. }
  split.
  - destruct (openDB_cases r s) as [[s' E]|[name E]].
    + rewrite (bind_resolved _ _ _ _ _ E). unfold settled. simpl.
      destruct thrown as [err|].
      * by rewrite Hsettled.
      * intros H. split; [done|]. apply bool_decide_eq_true. by apply Hres.
    + by rewrite (bind_rejected _ _ _ _ _ E).
  - intros err -> Hdb. rewrite (bind_resolved _ _ _ _ _ (openDB_db r s Hdb)).
    unfold settled. simpl. by rewrite Hsettled.
Qed.

(** *** Updating in place *)

Lemma findIndex_first i l idx :
  findIndex i l = Some idx →
  ∀ j y, (j < idx)%nat → l !! j = Some y → id y ≠ i.
Proof.
  revert idx. induction l as [|x l IH]; intros idx; [done|]. simpl.
  case_bool_decide as Hx.
  - intros [= <-] j y Hj. lia.
  - destruct (findIndex i l) as [n|]; [|done]. simpl. intros [= <-] j y Hj.
    destruct j as [|j]; simpl.
    + by intros [= <-].
    + apply (IH n eq_refl). lia.
Qed.

(** X11: [updateTodo] stamps the object it is given: where that object
    sits in the list it shows the new [updatedAt] at once, and keeps it
    when the write is rejected or pending. When the call resolves, it
    returns the stamped item, and the first item of that id in the list
    is replaced by it at its index, so that the list keeps its length;
    when no item has the id, the item is put in front. *)
Theorem updateTodo_replaces_in_place
    (clock : nat → Z) (t : task) (listed : list nat) (r : run)
    (s s' : state) (p : promise task) :
  truthy (id t) = true →
  updateTodo clock (Some t) listed r s = (p, s') →
  let t' := set_updatedAt (Some (clock (ticks s))) t in
  let l1 := stamp_listed t' listed (todos s) in
  (length l1 = length (todos s)
   ∧ ∀ j, l1 !! j = if decide (j ∈ listed)
                    then (λ _, t') <$> todos s !! j else todos s !! j)
  ∧ ((∀ x, p ≠ Resolved x) → todos s' = l1)
  ∧ (∀ x, p = Resolved x →
       x = t'
       ∧ ((∃ idx y,
             l1 !! idx = Some y ∧ id y = id t
             ∧ (∀ j z, (j < idx)%nat → l1 !! j = Some z → id z ≠ id t)
             ∧ todos s' = <[idx := t']> l1
             ∧ length (todos s') = length (todos s)
             ∧ todos s' !! idx = Some t')
          ∨ ((∀ y, y ∈ l1 → id y ≠ id t) ∧ todos s' = t' :: l1)))
  ∧ (∀ j, j ∈ listed → (j < length (todos s))%nat → todos s' !! j = Some t').
Proof.
  intros Ht H t' l1.
  assert (∀ j, l1 !! j = if decide (j ∈ listed)
                         then (λ _, t') <$> todos s !! j else todos s !! j)
    as Hlook by (intros j; apply stamp_listed_lookup).
  assert (length l1 = length (todos s)) as Hlen by apply stamp_listed_length.
  assert (∀ j, j ∈ listed → (j < length (todos s))%nat → l1 !! j = Some t')
    as Hat.
  { intros j Hj Hlt. rewrite Hlook, decide_True by done.
    apply lookup_lt_is_Some in Hlt as [x ->]. done. }
  rewrite updateTodo_body in H by done. cbv zeta in H.
  fold t' in H. fold l1 in H.
  set (s0 := set_todos l1 _) in H.
  pose proof (putToStore_todos t' r s0) as Hl.
  change (todos s0) with l1 in Hl.
  split; [done|].
  destruct (putToStore TODOS_STORE t' r s0) as [[|x|e] s1]; simpl in Hl;
    injection H as <- <-.
  - split; [done|]. split; [done|]. intros j Hj Hlt. rewrite Hl. by apply Hat.
  - rewrite Hl. change (id t') with (id t).
    destruct (findIndex (id t) l1) as [idx|] eqn:Hf.
    + destruct (findIndex_Some _ _ _ Hf) as (y & Hy & Hid).
      assert (<[idx := t']> l1 !! idx = Some t') as Hidx.
      { apply list_lookup_insert_eq. by eapply lookup_lt_Some. }
      split; [by intros H; destruct (H t')|]. split.
      * intros x' [= <-]. split; [done|]. left. exists idx, y.
        split; [done|]. split; [done|].
        split; [by apply findIndex_first|]. simpl. split; [done|].
        split; [by rewrite length_insert|done].
      * intros j Hj Hlt. simpl. destruct (decide (idx = j)) as [<-|Hne]; [done|].
        rewrite list_lookup_insert_ne by done. by apply Hat.
    + pose proof (findIndex_None _ _ Hf) as Hnone.
      split; [by intros H; destruct (H t')|]. split.
      * intros x' [= <-]. split; [done|]. by right.
      * intros j Hj Hlt. exfalso.
        apply (Hnone t'); [|done].
        eapply list_elem_of_lookup_2. by apply Hat.
  - split; [done|]. split; [done|]. intros j Hj Hlt. rewrite Hl. by apply Hat.
Qed.

(** *** Failed writes *)

Lemma putToStore_uncommitted (t : task) r s :
  committed (events r) = false →
  idb_todos (putToStore TODOS_STORE t r s).2 = idb_todos s.
Proof.
  intros Hc. unfold putToStore. pose proof (openDB_idb r s) as Hi.
  destruct (openDB_cases r s) as [[s' E]|[name E]].
  - rewrite E in Hi. rewrite (bind_resolved _ _ _ _ _ E). simpl.
    destruct (id t); run_m; [|done]. by rewrite Hc.
  - by rewrite (bind_rejected _ _ _ _ _ E).
Qed.

Lemma deleteFromStore_uncommitted i r s :
  committed (events r) = false →
  idb_todos (deleteFromStore TODOS_STORE i r s).2 = idb_todos s.
Proof.
  intros Hc. unfold deleteFromStore. pose proof (openDB_idb r s) as Hi.
  destruct (openDB_cases r s) as [[s' E]|[name E]].
  - rewrite E in Hi. rewrite (bind_resolved _ _ _ _ _ E).
    destruct i; run_m; [|done]. by rewrite Hc.
  - by rewrite (bind_rejected _ _ _ _ _ E).
Qed.

(** X12: [addTodo] and [deleteTodo] write through: the in-memory list
    changes only when the promise resolves, and the object store only
    when the transaction completes. *)
Theorem list_changes_only_on_success
    (todo : option task) (i : option string) (r : run) (s : state) :
  ((∀ t, (addTodo todo r s).1 ≠ Resolved t) →
     todos (addTodo todo r s).2 = todos s)
  ∧ ((deleteTodo i r s).1 ≠ Resolved () →
     todos (deleteTodo i r s).2 = todos s)
  ∧ (committed (events r) = false →
     idb_todos (addTodo todo r s).2 = idb_todos s
     ∧ idb_todos (deleteTodo i r s).2 = idb_todos s).
Proof.
  split; [|split].
  - intros H. destruct (has_id todo) eqn:Hid.
    + destruct todo as [t|]; [|done]. simpl in Hid.
      rewrite addTodo_body in H |- * by done.
      pose proof (putToStore_todos t r s) as Hl.
      destruct (putToStore TODOS_STORE t r s) as [[|x|e] s1]; try done.
      by destruct (H t).
    + by rewrite addTodo_guard.
  - intros H. by destruct (deleteTodo_list i r s) as [[? ?]|[_ ?]].
  - intros Hc. split.
    + destruct (has_id todo) eqn:Hid; [|by rewrite addTodo_guard].
      destruct todo as [t|]; [|done]. simpl in Hid.
      rewrite addTodo_body by done.
      pose proof (putToStore_uncommitted t r s Hc) as Hi.
      by destruct (putToStore TODOS_STORE t r s) as [[|x|e] s1].
    + unfold deleteTodo. destruct (negb (truthy i)); [done|].
      pose proof (deleteFromStore_uncommitted i r s Hc) as Hi.
      unfold mbind, M_bind.
      by destruct (deleteFromStore TODOS_STORE i r s) as [[|x|e] s1].
Qed.

(** *** Deleting *)

Lemma deleteTodo_resolved i r s s1 :
  deleteTodo i r s = (Resolved (), s1) →
  todos s1 = filter (λ t, id t ≠ i) (todos s)
  ∧ (committed (events r) = true →
     ∃ k, i = Some k ∧ idb_todos s1 = delete k (idb_todos s)).
Proof.
  intros H. split.
  - destruct (deleteTodo_list i r s) as [[_ Hl]|[Hp _]]; rewrite H in *; done.
  - intros Hc. unfold deleteTodo in H. destruct (negb (truthy i)); [done|].
    destruct (deleteFromStore TODOS_STORE i r s) as [[|[]|e] s0] eqn:Hd;
      [by rewrite (bind_pending _ _ _ _ Hd) in H| |
       by rewrite (bind_rejected _ _ _ _ _ Hd) in H].
    rewrite (bind_resolved _ _ _ _ _ Hd) in H.
    destruct (deleteFromStore_resolved_committed _ _ _ _ Hd Hc)
      as (k & -> & Hi & _).
    injection H as <-. by exists k.
Qed.

(** X13: after a resolved [deleteTodo] no item of the list has the id, and
    the record is gone from the store once the transaction has completed;
    deleting the same id again resolves as well and changes neither. *)
Theorem deleteTodo_removes_and_repeats
    (k : string) (r : run) (s s1 : state) :
  committed (events r) = true →
  deleteTodo (Some k) r s = (Resolved (), s1) →
  (∀ x, x ∈ todos s1 → id x ≠ Some k)
  ∧ idb_todos s1 !! k = None
  ∧ ∃ s2, deleteTodo (Some k) ok_run s1 = (Resolved (), s2)
          ∧ todos s2 = todos s1 ∧ idb_todos s2 = idb_todos s1.
Proof.
  intros Hc H.
  assert (truthy (Some k) = true) as Hk.
  { unfold deleteTodo in H. by destruct (truthy (Some k)). }
  destruct (deleteTodo_resolved _ _ _ _ H) as [Hl Hi].
  destruct (Hi Hc) as (k0 & [= <-] & Hs).
  assert (∀ x, x ∈ todos s1 → id x ≠ Some k) as Hgone.
  { intros x. rewrite Hl. by intros [? _]%list_elem_of_filter. }
  split; [done|]. split; [by rewrite Hs, lookup_delete_eq|].
  pose proof (deleteTodo_ok_resolves k s1 Hk) as Hp.
  destruct (deleteTodo (Some k) ok_run s1) as [p s2] eqn:E. simpl in Hp. subst p.
  exists s2. split; [done|].
  destruct (deleteTodo_resolved _ _ _ _ E) as [Hl2 Hi2].
  destruct (Hi2 eq_refl) as (k0 & [= <-] & Hs2).
  split.
  - rewrite Hl2. by apply filter_all.
  - rewrite Hs2, Hs. apply delete_id. apply lookup_delete_eq.
Qed.

(** X14: adding an item whose id is new and deleting that id again leaves
    the list as it was, and the store too when it held no record of that
    id and both transactions completed. *)
Theorem addTodo_then_deleteTodo
    (t : task) (r1 r2 : run) (s s1 s2 : state) :
  (∀ x, x ∈ todos s → id x ≠ id t) →
  addTodo (Some t) r1 s = (Resolved t, s1) →
  deleteTodo (id t) r2 s1 = (Resolved (), s2) →
  todos s2 = todos s
  ∧ (committed (events r1) = true → committed (events r2) = true →
     (∀ k, id t = Some k → idb_todos s !! k = None) →
     idb_todos s2 = idb_todos s).
Proof.
  intros Hfresh Hadd Hdel.
  assert (truthy (id t) = true) as Ht.
  { destruct (truthy (id t)) eqn:E; [done|].
    rewrite addTodo_guard in Hadd; [done|]. simpl. by rewrite E. }
  rewrite addTodo_body in Hadd by done.
  destruct (putToStore TODOS_STORE t r1 s) as [[|x|e] s0] eqn:Hput; try done.
  injection Hadd as <-.
  pose proof (putToStore_todos t r1 s) as Hl0. rewrite Hput in Hl0. simpl in Hl0.
  destruct (deleteTodo_resolved _ _ _ _ Hdel) as [Hl Hi]. split.
  - rewrite Hl. simpl. rewrite filter_cons_False by (intros H; by apply H).
    rewrite Hl0. by apply filter_all.
  - intros Hc1 Hc2 Hnone.
    destruct (putToStore_resolved_committed _ _ _ _ _ Hput Hc1) as (k & Hk & Hs0 & _).
    destruct (Hi Hc2) as (k' & Hk' & Hs2). rewrite Hk in Hk'. injection Hk' as <-.
    rewrite Hs2. simpl. rewrite Hs0. rewrite delete_insert_eq.
    apply delete_id. by apply Hnone.
Qed.


(** *** Clearing the completed items *)

Lemma filter_iff_in {A} (P Q : A → Prop)
    `{∀ x, Decision (P x)} `{∀ x, Decision (Q x)} (l : list A) :
  (∀ x, x ∈ l → P x ↔ Q x) → filter P l = filter Q l.
Proof.
  induction l as [|x l IH]; intros Hl; [done|].
  assert (filter P l = filter Q l) as IH'.
  { apply IH. intros y Hy. apply Hl. by apply list_elem_of_further. }
  destruct (decide (P x)) as [Hp|Hp].
  - rewrite !filter_cons_True; [by rewrite IH'| |done].
    apply Hl; [apply list_elem_of_here|done].
  - rewrite !filter_cons_False; [done| |done].
    intros Hq. apply Hp. apply Hl; [apply list_elem_of_here|done].
Qed.

(** Deleting a key from the store and the items of that id from the list
    keeps the two in step. *)
Lemma synced_delete k (m : gmap string task) (l : list task) :
  (∀ k t, m !! k = Some t → id t = Some k) →
  (map_to_list m).*2 ≡ₚ l →
  (∀ k' t, delete k m !! k' = Some t → id t = Some k')
  ∧ (map_to_list (delete k m)).*2 ≡ₚ filter (λ t, id t ≠ Some k) l.
Proof.
  intros Hkeys Hperm. split.
  - intros k' y. rewrite lookup_delete. case_decide; [done|apply Hkeys].
  - destruct (m !! k) as [x0|] eqn:Hm.
    + destruct (synced_split _ _ Hkeys Hperm k x0 Hm) as [Hl0 Hrest].
      rewrite Hl0. rewrite filter_cons_False
        by (intros H; apply H; by apply Hkeys).
      by rewrite filter_all.
    + rewrite delete_id by done. rewrite filter_all; [done|].
      intros x Hx Hidx.
      destruct (synced_in_store _ _ Hkeys Hperm x Hx) as (k0 & Hm0 & Hk0).
      congruence.
Qed.

Lemma delete_each_synced ks rs n s s' (l : list task) :
  (∀ n, committed (events (rs n)) = true) →
  delete_each ks rs n s = (Resolved (), s') →
  (∀ k t, idb_todos s !! k = Some t → id t = Some k) →
  (map_to_list (idb_todos s)).*2 ≡ₚ l →
  (∀ k t, idb_todos s' !! k = Some t → id t = Some k)
  ∧ (map_to_list (idb_todos s')).*2 ≡ₚ filter (λ t, id t ∉ ks) l.
Proof.
  intros Hc. revert n s l. induction ks as [|i ks IH]; intros n s l H Hkeys Hperm.
  - injection H as <-. split; [done|]. rewrite filter_all; [done|].
    intros x _. apply not_elem_of_nil.
  - simpl in H.
    destruct (deleteFromStore TODOS_STORE i (rs n) s) as [[|[]|e] s0] eqn:Hd;
      [by rewrite (bind_pending _ _ _ _ Hd) in H| |
       by rewrite (bind_rejected _ _ _ _ _ Hd) in H].
    rewrite (bind_resolved _ _ _ _ _ Hd) in H.
    destruct (deleteFromStore_resolved_committed _ _ _ _ Hd (Hc n))
      as (k & -> & Hi & _).
    destruct (synced_delete k _ _ Hkeys Hperm) as [Hkeys' Hperm'].
    rewrite <- Hi in Hkeys', Hperm'.
    destruct (IH _ _ _ H Hkeys' Hperm') as [Hk2 Hp2].
    split; [done|]. rewrite Hp2. rewrite list_filter_filter.
    apply reflexive_eq. apply list_filter_iff. intros x.
    rewrite not_elem_of_cons. tauto.
Qed.

(** X15: where the list and the store hold the same items, a resolved
    [clearCompleted] whose transactions complete leaves them holding the
    same items again: the completed ones are gone from both, and the
    others are all still there, in their order in the list. *)
Theorem clearCompleted_keeps_list_and_store_in_step
    (rs : nat → run) (s s' : state) :
  synced s →
  (∀ n, committed (events (rs n)) = true) →
  clearCompleted rs s = (Resolved (), s') →
  synced s'
  ∧ todos s' = filter (λ t, to_bool (completed t) = false) (todos s)
  ∧ (∀ k t, idb_todos s' !! k = Some t → to_bool (completed t) = false).
Proof.
  intros (Hfull & Hkeys & Hperm) Hc H.
  assert (todos s' = filter (λ t, to_bool (completed t) = false) (todos s)) as Hl.
  { destruct (clearCompleted_list rs s) as [[_ Hl]|[Hp _]]; rewrite H in *; done. }
  unfold clearCompleted in H. revert H. unfold mbind at 1. unfold M_bind, get.
  set (ks := id <$> filter _ (todos s)). intros H.
  destruct (delete_each ks rs 0 s) as [[|[]|e] s0] eqn:Hd;
    [by rewrite (bind_pending _ _ _ _ Hd) in H| |
     by rewrite (bind_rejected _ _ _ _ _ Hd) in H].
  rewrite (bind_resolved _ _ _ _ _ Hd) in H. injection H as <-.
  destruct (delete_each_synced _ _ _ _ _ _ Hc Hd Hkeys Hperm) as [Hk2 Hp2].
  assert (filter (λ t, id t ∉ ks) (todos s)
          = filter (λ t, to_bool (completed t) = false) (todos s)) as Hf.
  { apply filter_iff_in. intros x Hx. split.
    - intros Hn. destruct (to_bool (completed x)) eqn:E; [|done].
      exfalso. apply Hn. subst ks. apply list_elem_of_fmap. exists x.
      split; [done|]. by apply list_elem_of_filter.
    - intros Hx0 Hin. subst ks.
      apply list_elem_of_fmap in Hin as (y & Hid & Hy).
      apply list_elem_of_filter in Hy as [Hy1 Hy2].
      destruct (synced_in_store _ _ Hkeys Hperm x Hx) as (kx & Hmx & Hkx).
      destruct (synced_in_store _ _ Hkeys Hperm y Hy2) as (ky & Hmy & Hky).
      assert (kx = ky) as -> by congruence.
      assert (x = y) as -> by congruence. congruence. }
  rewrite Hf in Hp2. split; [|split; [done|]].
  - pose proof (delete_each_todos ks rs 0 s) as Ht. rewrite Hd in Ht.
    simpl in Ht. unfold synced. simpl. rewrite Ht.
    split; [by apply Forall_filter_keep|]. done.
  - intros k t Hm. simpl in Hm.
    assert (t ∈ (map_to_list (idb_todos s0)).*2) as Hin.
    { apply list_elem_of_fmap. exists (k, t). split; [done|].
      by apply elem_of_map_to_list. }
    rewrite Hp2 in Hin. by apply list_elem_of_filter in Hin as [? _].
Qed.


(** *** Clearing everything *)

Lemma clearStore_spec {R} (st : store_name R) r s :
  (∃ name, openDB r s = (Rejected (DOMException name), s)
           ∧ clearStore st r s = (Rejected (DOMException name), s))
  ∨ (∃ s0, openDB r s = (Resolved (), s0)
           ∧ clearStore st r s
             = (settle (request_listeners ()) (events r),
                if committed (events r) then set_store st ∅ s0 else s0)).
Proof.
  unfold clearStore. destruct (openDB_cases r s) as [[s' E]|[name E]].
  - right. exists s'. split; [done|].
    rewrite (bind_resolved _ _ _ _ _ E). by run_m.
  - left. exists name. split; [done|]. by rewrite (bind_rejected _ _ _ _ _ E).
Qed.

Lemma records_empty {R} : records (∅ : gmap string R) = [].
Proof. unfold records. by rewrite map_to_list_empty. Qed.

Lemma openDB_frame r s s0 p :
  openDB r s = (p, s0) →
  todos s0 = todos s ∧ idb_todos s0 = idb_todos s
  ∧ idb_settings s0 = idb_settings s ∧ localStorage s0 = localStorage s
  ∧ ticks s0 = ticks s.
Proof.
  unfold openDB. destruct (db s); [by intros [= <- <-]|].
  destruct (open_error r); by intros [= <- <-].
Qed.

(** X16: a resolved [clearAllData] whose two transactions complete leaves
    nothing: the list and both stores are empty, and [localStorage] too
    when the browser lets it be cleared. Afterwards every setting reads
    as [null] and a reload gives the empty list. *)
Theorem clearAllData_empties
    (clock : nat → Z) (r1 r2 : run) (ls_ok : bool) (s s' : state) :
  committed (events r1) = true →
  committed (events r2) = true →
  clearAllData r1 r2 ls_ok s = (Resolved (), s') →
  todos s' = [] ∧ idb_todos s' = ∅ ∧ idb_settings s' = ∅
  ∧ (ls_ok = true → localStorage s' = ∅)
  ∧ (∀ k, (getSetting k ok_run s').1 = Resolved None)
  ∧ (loadTodos clock ok_run s').1 = Resolved [].
Proof.
  intros Hc1 Hc2 H. unfold clearAllData in H.
  destruct (clearStore_spec TODOS_STORE r1 s) as [(n & _ & E)|(s0 & Ho & E)];
    [by rewrite (bind_rejected _ _ _ _ _ E) in H|].
  rewrite Hc1 in E.
  destruct (settle (request_listeners ()) (events r1)) as [|[]|e];
    [by rewrite (bind_pending _ _ _ _ E) in H| |
     by rewrite (bind_rejected _ _ _ _ _ E) in H].
  rewrite (bind_resolved _ _ _ _ _ E) in H. clear E.
  set (sA := set_store TODOS_STORE ∅ s0) in *.
  destruct (clearStore_spec SETTINGS_STORE r2 sA) as [(n & _ & E)|(s1 & Ho2 & E)];
    [by rewrite (bind_rejected _ _ _ _ _ E) in H|].
  rewrite Hc2 in E.
  destruct (settle (request_listeners ()) (events r2)) as [|[]|e];
    [by rewrite (bind_pending _ _ _ _ E) in H| |
     by rewrite (bind_rejected _ _ _ _ _ E) in H].
  rewrite (bind_resolved _ _ _ _ _ E) in H. clear E.
  apply openDB_frame in Ho2 as (_ & Hi & _).
  revert H. run_m. intros [= <-].
  assert (idb_todos (if ls_ok
            then set_localStorage ∅ (set_todos [] (set_idb_settings ∅ s1))
            else set_todos [] (set_idb_settings ∅ s1)) = ∅) as Hi'.
  { destruct ls_ok; simpl; by rewrite Hi. }
  assert (idb_settings (if ls_ok
            then set_localStorage ∅ (set_todos [] (set_idb_settings ∅ s1))
            else set_todos [] (set_idb_settings ∅ s1)) = ∅) as Hs'.
  { by destruct ls_ok. }
  split; [by destruct ls_ok|]. split; [done|]. split; [done|].
  split; [by intros ->|]. split.
  - intros [k|]; [|done]. unfold getSetting.
    destruct (String.eqb k ""); [done|].
    rewrite (bind_resolved _ _ _ _ _ (getAllFromStore_settings_ok _)).
    run_m. by rewrite Hs', records_empty.
  - unfold loadTodos, try_catch, getAllFromStore, ok_run.
    rewrite (bind_resolved _ _ _ _ _
               (bind_resolved _ _ _ _ _ (openDB_ok _ _))).
    run_m. by rewrite Hi', records_empty.
Qed.

(** X17: [clearAllData] is not all or nothing. When it rejects, the
    in-memory list and [localStorage] are left as they were, also when
    the store of the items has been emptied by then. *)
Theorem clearAllData_rejected_keeps_the_list
    (r1 r2 : run) (ls_ok : bool) (s s' : state) (e : error) :
  clearAllData r1 r2 ls_ok s = (Rejected e, s') →
  todos s' = todos s ∧ localStorage s' = localStorage s
  ∧ (committed (events r1) = true →
     (clearStore TODOS_STORE r1 s).1 = Resolved () →
     idb_todos s' = ∅).
Proof.
  intros H. unfold clearAllData in H.
  destruct (clearStore_spec TODOS_STORE r1 s) as [(n & Ho & E)|(s0 & Ho & E)].
  { rewrite (bind_rejected _ _ _ _ _ E) in H. injection H as <- <-.
    split; [done|]. split; [done|]. intros _. by rewrite E. }
  apply openDB_frame in Ho as (Ht & _ & _ & Hl & _).
  assert (todos (if committed (events r1) then set_store TODOS_STORE ∅ s0 else s0)
          = todos s
          ∧ localStorage (if committed (events r1)
                          then set_store TODOS_STORE ∅ s0 else s0)
            = localStorage s) as [Ht' Hl'].
  { by destruct (committed (events r1)). }
  rewrite E.
  destruct (settle (request_listeners ()) (events r1)) as [|[]|e1] eqn:Es;
    [by rewrite (bind_pending _ _ _ _ E) in H| |].
  2:{ rewrite (bind_rejected _ _ _ _ _ E) in H. by injection H as <- <-. }
  rewrite (bind_resolved _ _ _ _ _ E) in H. clear E.
  set (sA := if committed (events r1) then _ else _) in *.
  destruct (clearStore_spec SETTINGS_STORE r2 sA) as [(n & Ho2 & E)|(s1 & Ho2 & E)].
  { rewrite (bind_rejected _ _ _ _ _ E) in H. injection H as <- <-.
    split; [done|]. split; [done|]. intros Hc _. subst sA. by rewrite Hc. }
  apply openDB_frame in Ho2 as (Ht2 & Hi2 & _ & Hl2 & _).
  destruct (settle (request_listeners ()) (events r2)) as [|[]|e2];
    [by rewrite (bind_pending _ _ _ _ E) in H| |].
  { rewrite (bind_resolved _ _ _ _ _ E) in H. revert H. by run_m. }
  rewrite (bind_rejected _ _ _ _ _ E) in H. injection H as <- <-.
  split; [|split].
  - destruct (committed (events r2)); simpl; by rewrite Ht2.
  - destruct (committed (events r2)); simpl; by rewrite Hl2.
  - intros Hc _.
    assert (idb_todos sA = ∅) as HA by (subst sA; by rewrite Hc).
    destruct (committed (events r2)); simpl; by rewrite Hi2.
Qed.


(** *** Loading *)

(** What [normalize] resolves with, and what it leaves alone. *)
Lemma normalize_spec clock t s :
  ∃ t' s',
    normalize clock t s = (Resolved t', s')
    ∧ normal t' ∧ id t' = Some (String_ (id t))
    ∧ set_ticks (ticks s) s' = s
    ∧ (is_Some (createdAt t) → s' = s ∧ ∀ s0, normalize clock t s0 = (Resolved t', s0)).
Proof.
  unfold normalize, now. run_m.
  assert (∀ o d, truthy (Some (or_else o d)) = negb (String.eqb (or_else o d) ""))
    as Htr by done.
  assert (truthy (Some (or_else (priority t) "medium")) = true) as Hp.
  { rewrite Htr. apply negb_true_iff. apply String.eqb_neq.
    by apply or_else_nonempty. }
  destruct s as [d l m1 m2 ls n].
  destruct (createdAt t) as [c|] eqn:Ec, (updatedAt t) as [u|] eqn:Eu; simpl;
    eexists _, _; (split; [reflexivity|]);
    (split; [by repeat split; try by eexists|]);
    (split; [done|]); (split; [done|]).
  - intros _. by split.
  - intros _. by split.
  - by intros [? [=]].
  - by intros [? [=]].
Qed.

Lemma mapM_normalize_spec clock l s :
  ∃ ts s',
    mapM (normalize clock) l s = (Resolved ts, s')
    ∧ Forall normal ts
    ∧ id <$> ts = (λ t, Some (String_ (id t))) <$> l
    ∧ set_ticks (ticks s) s' = s
    ∧ (Forall (λ t, is_Some (createdAt t)) l →
       s' = s ∧ ∀ s0, mapM (normalize clock) l s0 = (Resolved ts, s0)).
Proof.
  revert s. induction l as [|t l IH]; intros s.
  - exists [], s. split; [done|]. split; [done|]. split; [done|].
    split; [by destruct s|]. by intros _.
  - destruct (normalize_spec clock t s) as (t' & s1 & E1 & Hn & Hid & Hf1 & Hc1).
    destruct (IH s1) as (ts & s2 & E2 & Hns & Hids & Hf2 & Hc2).
    exists (t' :: ts), s2. cbn [mapM].
    rewrite (bind_resolved _ _ _ _ _ E1), (bind_resolved _ _ _ _ _ E2).
    split; [done|]. split; [by constructor|].
    split; [by rewrite !fmap_cons, Hid, Hids|]. split.
    + rewrite <- Hf1 at 2. rewrite <- Hf2. by destruct s2.
    + intros [Ht Hl]%Forall_cons.
      destruct (Hc1 Ht) as [-> Hc1']. destruct (Hc2 Hl) as [-> Hc2'].
      split; [done|]. intros s0.
      by rewrite (bind_resolved _ _ _ _ _ (Hc1' s0)),
                 (bind_resolved _ _ _ _ _ (Hc2' s0)).
Qed.

Lemma getAllFromStore_frame r s p s1 :
  getAllFromStore TODOS_STORE r s = (p, s1) →
  todos s1 = todos s ∧ idb_todos s1 = idb_todos s
  ∧ idb_settings s1 = idb_settings s ∧ localStorage s1 = localStorage s
  ∧ ticks s1 = ticks s.
Proof.
  unfold getAllFromStore. destruct (openDB r s) as [[|[]|e] s0] eqn:E.
  - rewrite (bind_pending _ _ _ _ E). intros [= <- <-]. by eapply openDB_frame.
  - rewrite (bind_resolved _ _ _ _ _ E). run_m. intros [= <- <-].
    by eapply openDB_frame.
  - rewrite (bind_rejected _ _ _ _ _ E). intros [= <- <-]. by eapply openDB_frame.
Qed.

Lemma loadTodos_resolved_read clock r s l0 s0 :
  getAllFromStore TODOS_STORE r s = (Resolved l0, s0) →
  ∃ ts s1,
    mapM (normalize clock) l0 s0 = (Resolved ts, s1)
    ∧ loadTodos clock r s = (Resolved (sort_desc ts), set_todos (sort_desc ts) s1).
Proof.
  intros E. destruct (mapM_normalize_spec clock l0 s0) as (ts & s1 & Em & _).
  exists ts, s1. split; [done|]. unfold loadTodos, try_catch.
  rewrite (bind_resolved _ _ _ _ _ E), (bind_resolved _ _ _ _ _ Em). by run_m.
Qed.

(** X18: whatever the store holds, when its read resolves [loadTodos]
    resolves with one item for each record, ids as strings, every field
    present and the priority not empty, newest first; and that is the
    in-memory list afterwards. *)
Theorem loadTodos_normalizes_and_sorts
    (clock : nat → Z) (r : run) (s s0 : state) (l0 : list task) :
  getAllFromStore TODOS_STORE r s = (Resolved l0, s0) →
  ∃ l s',
    loadTodos clock r s = (Resolved l, s')
    ∧ todos s' = l
    ∧ newest_first l
    ∧ Forall normal l
    ∧ length l = size (idb_todos s)
    ∧ id <$> l ≡ₚ (λ kt, Some (String_ (id kt.2))) <$> map_to_list (idb_todos s).
Proof.
  intros E. destruct (loadTodos_resolved_read clock _ _ _ _ E) as (ts & s1 & Em & El).
  destruct (mapM_normalize_spec clock l0 s0) as (ts' & s1' & Em' & Hn & Hid & _).
  rewrite Em in Em'. injection Em' as <- <-.
  apply getAllFromStore_resolved in E as (-> & _ & _).
  exists (sort_desc ts), (set_todos (sort_desc ts) s1).
  split; [done|]. split; [done|]. split; [apply sort_desc_sorted|].
  split; [by rewrite sort_desc_perm|].
  assert (id <$> sort_desc ts
          ≡ₚ (λ kt, Some (String_ (id kt.2))) <$> map_to_list (idb_todos s)) as Hp.
  { rewrite sort_desc_perm, Hid, records_perm.
    by rewrite <- list_fmap_compose. }
  split; [|done].
  rewrite <- (length_fmap id), Hp, length_fmap. apply length_map_to_list.
Qed.

(** X19: [loadTodos] only reads: whatever the run, the two object stores
    and [localStorage] are afterwards what they were; the missing fields
    it fills in are not written back. *)
Theorem loadTodos_never_writes (clock : nat → Z) (r : run) (s : state) :
  let s' := (loadTodos clock r s).2 in
  idb_todos s' = idb_todos s
  ∧ idb_settings s' = idb_settings s
  ∧ localStorage s' = localStorage s.
Proof.
  destruct (getAllFromStore TODOS_STORE r s) as [[|l0|e] s0] eqn:E.
  - unfold loadTodos, try_catch.
    rewrite (bind_pending _ _ _ _ E). simpl.
    by apply getAllFromStore_frame in E as (_ & ? & ? & ? & _).
  - destruct (loadTodos_resolved_read clock _ _ _ _ E) as (ts & s1 & Em & ->).
    destruct (mapM_normalize_spec clock l0 s0) as (ts' & s1' & Em' & _ & _ & Hf & _).
    rewrite Em in Em'. injection Em' as <- <-.
    apply getAllFromStore_frame in E as (_ & <- & <- & <- & _).
    rewrite <- Hf. by destruct s1.
  - unfold loadTodos, try_catch.
    rewrite (bind_rejected _ _ _ _ _ E). simpl.
    by apply getAllFromStore_frame in E as (_ & ? & ? & ? & _).
Qed.

(** X20: when every record of the store has its [createdAt], a load whose
    read resolves does not read the clock, and a second load whose read
    resolves gives the same list. *)
Theorem loadTodos_again_gives_the_same_list
    (clock : nat → Z) (r1 r2 : run) (s s0 s1 : state) (l0 l : list task) :
  (∀ k t, idb_todos s !! k = Some t → is_Some (createdAt t)) →
  getAllFromStore TODOS_STORE r1 s = (Resolved l0, s0) →
  loadTodos clock r1 s = (Resolved l, s1) →
  ticks s1 = ticks s
  ∧ ∀ l2 s2, getAllFromStore TODOS_STORE r2 s1 = (Resolved l2, s2) →
      (loadTodos clock r2 s1).1 = Resolved l.
Proof.
  intros Hc E Hl.
  assert (Forall (λ t, is_Some (createdAt t)) (records (idb_todos s))) as Hall.
  { apply Forall_forall. intros t Ht. rewrite records_perm in Ht.
    apply list_elem_of_fmap in Ht as [[k t'] [-> Ht]].
    apply elem_of_map_to_list in Ht. by eapply Hc. }
  destruct (loadTodos_resolved_read clock _ _ _ _ E) as (ts & s0' & Em & El).
  pose proof (getAllFromStore_frame _ _ _ _ E) as (_ & Hi & _ & _ & Ht).
  apply getAllFromStore_resolved in E as (-> & _).
  destruct (mapM_normalize_spec clock (records (idb_todos s)) s0)
    as (ts' & s0'' & Em' & _ & _ & _ & Hpure).
  rewrite Em in Em'. injection Em' as <- <-.
  destruct (Hpure Hall) as [-> Hany].
  rewrite El in Hl. injection Hl as <- <-.
  split; [done|]. intros l2 s2 E2.
  destruct (loadTodos_resolved_read clock _ _ _ _ E2) as (ts2 & s4 & Em2 & ->).
  apply getAllFromStore_resolved in E2 as (-> & _). simpl in Em2.
  rewrite Hi, Hany in Em2. by injection Em2 as <- <-.
Qed.


(** *** The properties at work *)

Lemma connection_is_opened_once_witness :
  let s := run_calls (λ _, 7)
             [CallAdd (Some (sample "a" "x" 1 1)) ok_run; CallLoad ok_run;
              CallClearAll ok_run ok_run true]
             (set_db true initial) in
  db s = true
  ∧ getAllFromStore TODOS_STORE (Run (Some "UnknownError") [ReqSuccess]) s
    = getAllFromStore TODOS_STORE (Run None [ReqSuccess]) s.
Proof.
  intros s.
  destruct (connection_is_opened_once (λ _, 7) ok_run initial (set_db true initial)
              [CallAdd (Some (sample "a" "x" 1 1)) ok_run; CallLoad ok_run;
               CallClearAll ok_run ok_run true] eq_refl) as [Hdb H].
  split; [exact Hdb|].
  exact (proj1 (H "UnknownError" [ReqSuccess] (sample "a" "x" 1 1) None)).
Defined.

Lemma updateTodo_replaces_in_place_witness :
  let new := sample "a" "new" 2 2 in
  let old := sample "a" "old" 1 1 in
  let edited := sample "a" "old, edited" 1 1 in
  let s := set_todos [new; old] initial in
  let failing := Run None [ReqError "QuotaExceededError"] in
  updateTodo (λ _, 9) (Some edited) [1%nat] ok_run s
  = (Resolved (sample "a" "old, edited" 1 9),
     (updateTodo (λ _, 9) (Some edited) [1%nat] ok_run s).2)
  ∧ todos (updateTodo (λ _, 9) (Some edited) [1%nat] ok_run s).2
    = [sample "a" "old, edited" 1 9; sample "a" "old, edited" 1 9]
  ∧ todos (updateTodo (λ _, 9) (Some edited) [1%nat] failing s).2
    = [new; sample "a" "old, edited" 1 9].
Proof.
  intros new old edited s failing.
  split; [by vm_compute|]. split.
  - destruct (updateTodo_replaces_in_place (λ _, 9) edited [1%nat] ok_run s
                (updateTodo (λ _, 9) (Some edited) [1%nat] ok_run s).2
                (Resolved (sample "a" "old, edited" 1 9)) eq_refl)
      as (_ & _ & H & _); [by vm_compute|].
    destruct (H _ eq_refl) as [_ [(idx & y & Hy & _ & Hfirst & Hl & _)|[Hnone _]]].
    + rewrite Hl. destruct idx as [|idx]; [done|].
      exfalso. by apply (Hfirst 0%nat new); [lia|done|].
    + exfalso. apply (Hnone new); [apply list_elem_of_here|done].
  - destruct (updateTodo_replaces_in_place (λ _, 9) edited [1%nat] failing s
                (updateTodo (λ _, 9) (Some edited) [1%nat] failing s).2
                (Rejected (DOMException "QuotaExceededError")) eq_refl)
      as (_ & H & _); [by vm_compute|].
    by rewrite H.
Defined.

Lemma deleteTodo_removes_and_repeats_witness :
  let s := (addTodo (Some (sample "a" "x" 1 1)) ok_run initial).2 in
  let s1 := (deleteTodo (Some "a") ok_run s).2 in
  (∀ x, x ∈ todos s1 → id x ≠ Some "a")
  ∧ idb_todos s1 !! "a" = None
  ∧ ∃ s2, deleteTodo (Some "a") ok_run s1 = (Resolved (), s2)
          ∧ todos s2 = todos s1 ∧ idb_todos s2 = idb_todos s1.
Proof.
  intros s s1.
  apply (deleteTodo_removes_and_repeats "a" ok_run s s1); [reflexivity|].
  by vm_compute.
Defined.

Lemma addTodo_then_deleteTodo_witness :
  let t := sample "b" "new" 2 2 in
  let s := (addTodo (Some (sample "a" "old" 1 1)) ok_run initial).2 in
  let s1 := (addTodo (Some t) ok_run s).2 in
  let s2 := (deleteTodo (Some "b") ok_run s1).2 in
  todos s2 = todos s ∧ idb_todos s2 = idb_todos s.
Proof.
  intros t s s1 s2.
  destruct (addTodo_then_deleteTodo t ok_run ok_run s s1 s2) as [H1 H2].
  - intros x Hx. apply list_elem_of_singleton in Hx as ->. done.
  - by vm_compute.
  - by vm_compute.
  - split; [exact H1|]. apply H2; [reflexivity|reflexivity|].
    intros k [= <-]. by vm_compute.
Defined.

Lemma clearCompleted_keeps_list_and_store_in_step_witness :
  let a := sample "a" "open" 1 1 in
  let b := Task (Some "b") (Some "done") (Some "") (Some "") (Some "medium")
                (Some true) (Some false) (Some 2) (Some 2) in
  let s := State true [b; a] (<["a" := a]> (<["b" := b]> ∅)) ∅ ∅ 0 in
  let s' := (clearCompleted (λ _, ok_run) s).2 in
  synced s' ∧ todos s' = [a]
  ∧ (∀ k t, idb_todos s' !! k = Some t → to_bool (completed t) = false).
Proof.
  intros a b s s'.
  destruct (clearCompleted_keeps_list_and_store_in_step (λ _, ok_run) s s')
    as (H1 & H2 & H3).
  - split; [|split].
    + repeat constructor; simpl; by eauto.
    + intros k t. simpl.
      destruct (decide (k = "a")) as [->|Ha];
        [rewrite lookup_insert_eq; by intros [= <-]|].
      rewrite lookup_insert_ne by done.
      destruct (decide (k = "b")) as [->|Hb];
        [rewrite lookup_insert_eq; by intros [= <-]|].
      rewrite lookup_insert_ne by done. by rewrite lookup_empty.
    + vm_compute. solve [reflexivity | apply perm_swap].
  - done.
  - by vm_compute.
  - split; [exact H1|]. split; [by rewrite H2|exact H3].
Defined.


Lemma clearAllData_empties_witness :
  let a := sample "a" "x" 1 1 in
  let s := State true [a] (<["a" := a]> ∅)
             (<["theme" := Setting "theme" "dark"]> ∅)
             (<["theme" := "dark"]> ∅) 0 in
  let s' := (clearAllData ok_run ok_run true s).2 in
  todos s' = [] ∧ idb_todos s' = ∅ ∧ idb_settings s' = ∅
  ∧ (true = true → localStorage s' = ∅)
  ∧ (∀ k, (getSetting k ok_run s').1 = Resolved None)
  ∧ (loadTodos (λ _, 7) ok_run s').1 = Resolved [].
Proof.
  intros a s s'.
  apply (clearAllData_empties (λ _, 7) ok_run ok_run true s s');
    [reflexivity|reflexivity|by vm_compute].
Defined.

Lemma clearAllData_rejected_keeps_the_list_witness :
  let a := sample "a" "x" 1 1 in
  let s := State true [a] (<["a" := a]> ∅) ∅ ∅ 0 in
  let failing := Run None [ReqError "UnknownError"] in
  let out := clearAllData ok_run failing true s in
  out.1 = Rejected (DOMException "UnknownError")
  ∧ todos out.2 = [a] ∧ localStorage out.2 = ∅ ∧ idb_todos out.2 = ∅.
Proof.
  intros a s failing out.
  destruct (clearAllData_rejected_keeps_the_list ok_run failing true s out.2
              (DOMException "UnknownError")) as (H1 & H2 & H3).
  - by vm_compute.
  - split; [by vm_compute|]. split; [exact H1|]. split; [exact H2|].
    apply H3; [reflexivity|by vm_compute].
Defined.

Lemma loadTodos_normalizes_and_sorts_witness :
  let old := Task (Some "a") (Some "old") None None None None None
                  (Some 1) None in
  let new := Task (Some "b") None None None (Some "high") (Some true) None
                  (Some 2) (Some 3) in
  let s := State true [] (<["a" := old]> (<["b" := new]> ∅)) ∅ ∅ 0 in
  ∃ l s',
    loadTodos (λ _, 7) ok_run s = (Resolved l, s')
    ∧ todos s' = l
    ∧ newest_first l
    ∧ Forall normal l
    ∧ length l = size (idb_todos s)
    ∧ id <$> l ≡ₚ (λ kt, Some (String_ (id kt.2))) <$> map_to_list (idb_todos s).
Proof.
  intros old new s.
  apply (loadTodos_normalizes_and_sorts (λ _, 7) ok_run s s [old; new]).
  by vm_compute.
Defined.

Lemma loadTodos_again_gives_the_same_list_witness :
  let a := sample "a" "x" 1 1 in
  let b := Task (Some "b") (Some "y") None None None None None (Some 2) None in
  let s := State true [] (<["a" := a]> (<["b" := b]> ∅)) ∅ ∅ 0 in
  let s1 := (loadTodos (λ n, Z.of_nat n) ok_run s).2 in
  ticks s1 = ticks s
  ∧ (loadTodos (λ n, Z.of_nat n) ok_run s1).1
    = Resolved [Task (Some "b") (Some "y") (Some "") (Some "") (Some "medium")
                  (Some false) (Some false) (Some 2) (Some 2);
                a].
Proof.
  intros a b s s1.
  destruct (loadTodos_again_gives_the_same_list (λ n, Z.of_nat n) ok_run ok_run
              s s s1 [a; b]
              [Task (Some "b") (Some "y") (Some "") (Some "") (Some "medium")
                 (Some false) (Some false) (Some 2) (Some 2); a]) as [H1 H2].
  - intros k t. simpl.
    destruct (decide (k = "a")) as [->|Ha];
      [rewrite lookup_insert_eq; intros [= <-]; by eexists|].
    rewrite lookup_insert_ne by done.
    destruct (decide (k = "b")) as [->|Hb];
      [rewrite lookup_insert_eq; intros [= <-]; by eexists|].
    rewrite lookup_insert_ne by done. by rewrite lookup_empty.
  - by vm_compute.
  - by vm_compute.
  - split; [exact H1|]. apply (H2 [a; b] s1). by vm_compute.
Defined.


Lemma withStore_resolves_on_complete_witness :
  (withStore None ok_run initial).1 = Resolved ()
  ∧ committed (events ok_run) = true
  ∧ (withStore (Some (Error "callback")) ok_run (set_db true initial)).1
    = Rejected (Error "callback").
Proof.
  split; [by vm_compute|]. split.
  - apply (withStore_resolves_on_complete None ok_run initial). by vm_compute.
  - by apply (withStore_resolves_on_complete (Some (Error "callback")) ok_run
                (set_db true initial)).
Defined.

Lemma list_changes_only_on_success_witness :
  let a := sample "a" "x" 1 1 in
  let s := State true [a] (<["a" := a]> ∅) ∅ ∅ 0 in
  let failing := Run None [ReqError "QuotaExceededError"] in
  todos (addTodo (Some (sample "b" "y" 2 2)) failing s).2 = [a]
  ∧ todos (deleteTodo (Some "a") failing s).2 = [a]
  ∧ idb_todos (addTodo (Some (sample "b" "y" 2 2)) failing s).2 = <["a" := a]> ∅
  ∧ idb_todos (deleteTodo (Some "a") failing s).2 = <["a" := a]> ∅.
Proof.
  intros a s failing.
  destruct (list_changes_only_on_success (Some (sample "b" "y" 2 2)) (Some "a")
              failing s) as (H1 & H2 & H3).
  split; [apply H1; intros t; by vm_compute|].
  split; [apply H2; by vm_compute|].
  exact (H3 eq_refl).
Defined.

End RepoProperties.

(** ** More about the formatter *)

Module MarkdownProperties.
Import Markdown MarkdownFacts Terms.

(** *** Escaping, piece by piece *)

Lemma escape_bind md :
  escape md
  = (md ≫= (λ x, if x =? LT then lit "&lt;" else [x]))
       ≫= (λ x, if x =? GT then lit "&gt;" else [x]).
Proof. unfold escape. by rewrite !replace_char_bind. Qed.

Lemma escape_app a b : escape (a ++ b) = escape a ++ escape b.
Proof. by rewrite !escape_bind, !bind_app. Qed.

Lemma escape_cons c s : escape (c :: s) = escape [c] ++ escape s.
Proof. apply (escape_app [c] s). Qed.

Lemma escape_char c :
  escape [c] = lit "&lt;" ∨ escape [c] = lit "&gt;" ∨ escape [c] = [c].
Proof.
  rewrite escape_bind. simpl. destruct (c =? LT) eqn:E1.
  - left. done.
  - simpl. destruct (c =? GT) eqn:E2; [right; left|right; right]; done.
Qed.

(** A property of characters that the two entities have passes through
    the escaping. *)
Lemma escape_keeps (P : N → Prop) s :
  Forall P (lit "&lt;&gt;") → Forall P s → Forall P (escape s).
Proof.
  intros He. induction 1 as [|c s Hc Hs IH]; [done|].
  rewrite escape_cons. apply Forall_app. split; [|done].
  destruct (escape_char c) as [-> | [-> | ->]].
  - by apply (Forall_app _ (lit "&lt;") (lit "&gt;")) in He as [? _].
  - by apply (Forall_app _ (lit "&lt;") (lit "&gt;")) in He as [_ ?].
  - by constructor.
Qed.

Lemma escape_inert s : inert s → inert (escape s).
Proof. apply escape_keeps. by repeat constructor. Qed.

Lemma escape_one_line s : one_line s → one_line (escape s).
Proof. apply escape_keeps. by repeat constructor. Qed.

Lemma escape_nonempty s : s ≠ [] → escape s ≠ [].
Proof.
  destruct s as [|c s]; [done|]. intros _. rewrite escape_cons.
  by destruct (escape_char c) as [-> | [-> | ->]].
Qed.

Lemma inert_not c s : is_markup c = true → inert s → c ∉ s.
Proof.
  intros Hc Hs Hin. unfold inert in Hs. rewrite Forall_forall in Hs.
  specialize (Hs c Hin). congruence.
Qed.

(** *** A pass over a text without its marker *)

Lemma replace_from_id (m : matcher) s :
  (∀ b c t, c ∈ s → m b (c :: t) = None) →
  ∀ b, replace_from m b 0 s = s.
Proof.
  induction s as [|c s IH]; intros Hm b; [done|].
  rewrite replace_from_none by (apply Hm; apply list_elem_of_here).
  f_equal. apply IH. intros b' c' t Hc'. apply Hm. by apply list_elem_of_further.
Qed.

(** The scan copies a prefix whose positions do not match. *)
Lemma replace_from_prefix (m : matcher) a t :
  (∀ b c u, c ∈ a → m b (c :: u) = None) →
  ∀ b, replace_from m b 0 (a ++ t)
       = a ++ replace_from m (match a with [] => b | _ => false end) 0 t.
Proof.
  induction a as [|c a IH]; intros Hm b; [done|].
  rewrite <- app_comm_cons.
  rewrite replace_from_none by (apply Hm; apply list_elem_of_here).
  rewrite <- app_comm_cons. f_equal. rewrite IH.
  - by destruct a.
  - intros b' c' u Hc'. apply Hm. by apply list_elem_of_further.
Qed.

Lemma bold_at_none b c t : c ≠ STAR → bold_at b (c :: t) = None.
Proof.
  intros Hc. unfold bold_at. change (lit "**") with [STAR; STAR]. cbn [expect].
  apply N.eqb_neq in Hc. rewrite N.eqb_sym in Hc. by rewrite Hc.
Qed.

Lemma highlight_at_none b c t : c ≠ EQUALS → highlight_at b (c :: t) = None.
Proof.
  intros Hc. unfold highlight_at. change (lit "==") with [EQUALS; EQUALS]. cbn [expect].
  apply N.eqb_neq in Hc. rewrite N.eqb_sym in Hc. by rewrite Hc.
Qed.

Lemma link_at_none b c t : c ≠ LBRACK → link_at b (c :: t) = None.
Proof.
  intros Hc. unfold link_at. change (lit "[") with [LBRACK]. cbn [expect].
  apply N.eqb_neq in Hc. rewrite N.eqb_sym in Hc. by rewrite Hc.
Qed.


Lemma lone_star_none c t : c ≠ STAR → lone_star (c :: t) = None.
Proof. intros Hc. simpl. apply N.eqb_neq in Hc. by rewrite Hc. Qed.

Lemma italic_at_none b c t :
  c ≠ STAR → (∀ t', t ≠ STAR :: t') → italic_at b (c :: t) = None.
Proof.
  intros Hc Ht. unfold italic_at, italic_body.
  rewrite (lone_star_none c t Hc).
  assert (lone_star t = None) as ->.
  { destruct t as [|d t']; [done|]. apply lone_star_none. intros ->. by eapply Ht. }
  apply N.eqb_neq in Hc. rewrite Hc. by destruct b.
Qed.

Lemma italic_id s : STAR ∉ s → ∀ b, replace_from italic_at b 0 s = s.
Proof.
  induction s as [|c s IH]; intros Hs b; [done|].
  apply not_elem_of_cons in Hs as [Hc Hs].
  rewrite replace_from_none; [by rewrite IH|].
  apply italic_at_none; [done|]. intros t' ->. apply Hs, list_elem_of_here.
Qed.

(** The passes leave an inert text alone. *)
Lemma bold_id s : STAR ∉ s → ∀ b, replace_from bold_at b 0 s = s.
Proof.
  intros Hs. apply replace_from_id. intros b c t Hc. apply bold_at_none.
  by intros ->.
Qed.

Lemma highlight_id s : EQUALS ∉ s → ∀ b, replace_from highlight_at b 0 s = s.
Proof.
  intros Hs. apply replace_from_id. intros b c t Hc. apply highlight_at_none.
  by intros ->.
Qed.

Lemma link_id s : LBRACK ∉ s → ∀ b, replace_from link_at b 0 s = s.
Proof.
  intros Hs. apply replace_from_id. intros b c t Hc. apply link_at_none.
  by intros ->.
Qed.

(** *** Lines *)

Lemma split_lines_nonempty s : split_lines s ≠ [].
Proof.
  destruct s as [|c s]; [done|]. rewrite split_lines_cons.
  destruct (c =? LF); [done|]. destruct s as [|d s]; [done|].
  destruct (_ && _); [done|]. by destruct (split_lines (d :: s)).
Qed.

Lemma join_split_lines s : CR ∉ s → join [LF] (split_lines s) = s.
Proof.
  induction s as [|c s IH]; intros Hs; [done|].
  apply not_elem_of_cons in Hs as [Hc Hs]. specialize (IH Hs).
  rewrite split_lines_cons. destruct (c =? LF) eqn:E.
  - apply N.eqb_eq in E as ->.
    assert (∀ ls, ls ≠ [] → join [LF] ([] :: ls) = LF :: join [LF] ls) as Hj.
    { by intros [|? ?]. }
    rewrite Hj by apply split_lines_nonempty. by rewrite IH.
  - destruct s as [|d s']; [done|].
    assert ((c =? CR) = false) as -> by (apply N.eqb_neq; congruence).
    simpl andb. cbv iota.
    destruct (split_lines (d :: s')) as [|l ls] eqn:El.
    + by destruct (split_lines_nonempty (d :: s')).
    + rewrite <- IH. rewrite !join_cons. by destruct ls.
Qed.

Lemma split_lines_elem s l c : l ∈ split_lines s → c ∈ l → c ∈ s.
Proof.
  revert l. induction s as [s IH] using (induction_ltof1 _ (@length N)).
  unfold ltof in IH. intros l.
  destruct s as [|x s]; [by intros ->%list_elem_of_singleton|].
  rewrite split_lines_cons. destruct (x =? LF).
  - intros [->|Hl]%elem_of_cons Hc; [by apply elem_of_nil in Hc|].
    apply list_elem_of_further. eapply IH; [|done..]. simpl. lia.
  - destruct s as [|d s'].
    + by intros ->%list_elem_of_singleton.
    + destruct (_ && _).
      * intros [->|Hl]%elem_of_cons Hc; [by apply elem_of_nil in Hc|].
        do 2 apply list_elem_of_further. eapply IH; [|done..]. simpl. lia.
      * destruct (split_lines (d :: s')) as [|l0 ls] eqn:El.
        -- by destruct (split_lines_nonempty (d :: s')).
        -- intros [->|Hl]%elem_of_cons Hc.
           ++ apply elem_of_cons in Hc as [->|Hc]; [apply list_elem_of_here|].
              apply list_elem_of_further.
              eapply (IH (d :: s')); [simpl; lia| |done].
              rewrite El. apply list_elem_of_here.
           ++ apply list_elem_of_further.
              eapply (IH (d :: s')); [simpl; lia| |done].
              rewrite El. by apply list_elem_of_further.
Qed.

Lemma is_table_line_pipe l : is_table_line l = true → PIPE ∈ l.
Proof.
  intros (ws1 & mid & ws2 & -> & _)%is_table_line_spec.
  apply elem_of_app. right. apply list_elem_of_here.
Qed.

Lemma table_loop_no_table lines output :
  Forall (λ l, is_table_line l = false) lines →
  table_loop lines output [] = (output ++ lines, []).
Proof.
  revert output. induction lines as [|l lines IH]; intros output Hl.
  - by rewrite app_nil_r.
  - apply Forall_cons in Hl as [Hl Hls]. simpl. rewrite Hl. simpl.
    rewrite IH by done. by rewrite <- app_assoc.
Qed.

Lemma table_loop_all_table lines output buffer :
  Forall (λ l, is_table_line l = true) lines →
  table_loop lines output buffer = (output, buffer ++ lines).
Proof.
  revert buffer. induction lines as [|l lines IH]; intros buffer Hl.
  - by rewrite app_nil_r.
  - apply Forall_cons in Hl as [Hl Hls]. simpl. rewrite Hl. simpl.
    destruct (length buffer =? 0)%nat eqn:E.
    + rewrite IH by done. by rewrite <- app_assoc.
    + assert ((0 <? length buffer)%nat = true) as ->.
      { apply Nat.ltb_lt. apply Nat.eqb_neq in E. lia. }
      rewrite IH by done. by rewrite <- app_assoc.
Qed.

(** A text without a pipe and without a carriage return goes through
    [convertTables] as it is. *)
Lemma convertTables_id s : PIPE ∉ s → CR ∉ s → convertTables s = s.
Proof.
  intros Hp Hc. unfold convertTables.
  rewrite table_loop_no_table.
  - simpl. by apply join_split_lines.
  - apply Forall_forall. intros l Hl.
    destruct (is_table_line l) eqn:E; [|done].
    exfalso. apply Hp. eapply split_lines_elem; [done|].
    by apply is_table_line_pipe.
Qed.

Lemma inert_passes s :
  inert s →
  replace_all bold_at s = s ∧ replace_all italic_at s = s
  ∧ replace_all highlight_at s = s ∧ replace_all link_at s = s
  ∧ convertTables s = s.
Proof.
  intros H. unfold replace_all.
  rewrite bold_id, italic_id, highlight_id, link_id, convertTables_id;
    try done; by apply inert_not.
Qed.

(** X21: a text without a star, an equals sign, an opening bracket, a pipe
    or a carriage return comes back with its angle brackets escaped and
    nothing else changed. *)
Theorem parseMarkdown_plain_text (md : jsstring) :
  inert md → parseMarkdown md = escape md.
Proof.
  intros H. destruct md as [|c md]; [done|].
  rewrite parseMarkdown_steps by done.
  destruct (inert_passes _ (escape_inert _ H)) as (-> & -> & -> & -> & ->).
  done.
Qed.


(** *** Where a pattern matches *)

Lemma expect_app l s : expect l (l ++ s) = Some s.
Proof.
  induction l as [|a l IH]; [by destruct s|]. simpl. by rewrite N.eqb_refl.
Qed.

Lemma lazy_dots_found close g rest0 rest :
  one_line g → (∀ c u, c ∈ g → close (c :: u) = None) →
  close rest0 = Some rest →
  lazy_dots close (g ++ rest0) = Some (g, rest).
Proof.
  intros Hg Hn Hc. induction g as [|c g IH].
  - simpl. destruct rest0; simpl; by rewrite Hc.
  - apply Forall_cons in Hg as [Hc1 Hg]. simpl.
    rewrite (Hn c (g ++ rest0)) by apply list_elem_of_here. rewrite Hc1.
    rewrite IH; [done|done|].
    intros c' u Hc'. apply Hn. by apply list_elem_of_further.
Qed.

Lemma lazy_dots1_found close g rest0 rest :
  g ≠ [] → one_line g → (∀ c u, c ∈ g → close (c :: u) = None) →
  close rest0 = Some rest →
  lazy_dots1 close (g ++ rest0) = Some (g, rest).
Proof.
  intros Hne Hg Hn Hc. destruct g as [|c g]; [done|].
  apply Forall_cons in Hg as [Hc1 Hg]. simpl. rewrite Hc1.
  rewrite (lazy_dots_found close g rest0 rest); [done|done| |done].
  intros c' u Hc'. apply Hn. by apply list_elem_of_further.
Qed.

Lemma expect_none a l c t : c ≠ a → expect (a :: l) (c :: t) = None.
Proof.
  intros Hc. simpl. apply N.eqb_neq in Hc. rewrite N.eqb_sym in Hc.
  by rewrite Hc.
Qed.

Lemma bold_at_span b g rest :
  g ≠ [] → one_line g → STAR ∉ g →
  bold_at b (lit "**" ++ g ++ lit "**" ++ rest)
  = Some (lit "<strong>" ++ g ++ lit "</strong>", rest).
Proof.
  intros Hne Hg Hs. unfold bold_at. rewrite expect_app. cbn [mbind option_bind].
  rewrite (lazy_dots1_found _ g _ rest); [done|done|done| |apply expect_app].
  intros c u Hc. apply (expect_none STAR [STAR]). by intros ->.
Qed.

Lemma highlight_at_span b g rest :
  one_line g → EQUALS ∉ g →
  highlight_at b (lit "==" ++ g ++ lit "==" ++ rest)
  = Some (lit "<mark>" ++ g ++ lit "</mark>", rest).
Proof.
  intros Hg Hs. unfold highlight_at. rewrite expect_app. cbn [mbind option_bind].
  rewrite (lazy_dots_found _ g _ rest); [done|done| |apply expect_app].
  intros c u Hc. apply (expect_none EQUALS [EQUALS]). by intros ->.
Qed.

Lemma lone_star_found rest :
  (∀ t', rest ≠ STAR :: t') → lone_star (STAR :: rest) = Some rest.
Proof.
  intros H. simpl. destruct rest as [|d t]; [done|].
  destruct (d =? STAR) eqn:E; [|done].
  apply N.eqb_eq in E as ->. by destruct (H t).
Qed.

Lemma italic_body_span pre g rest :
  g ≠ [] → one_line g → STAR ∉ g → (∀ t', rest ≠ STAR :: t') →
  italic_body pre (lit "*" ++ g ++ lit "*" ++ rest)
  = Some (pre ++ lit "<em>" ++ g ++ lit "</em>", rest).
Proof.
  intros Hne Hg Hs Hr. unfold italic_body.
  change (lit "*" ++ g ++ lit "*" ++ rest) with (STAR :: (g ++ STAR :: rest)).
  rewrite lone_star_found.
  2:{ destruct g as [|c g]; [done|]. intros t' [= -> _].
      apply Hs, list_elem_of_here. }
  cbn [mbind option_bind].
  rewrite (lazy_dots1_found _ g _ rest); [done|done|done| |by apply lone_star_found].
  intros c u Hc. apply lone_star_none. by intros ->.
Qed.

Lemma not_elem_of_lit (c : N) (l : jsstring) :
  forallb (λ x, negb (x =? c)) l = true → c ∉ l.
Proof.
  intros H Hin. rewrite forallb_forall in H.
  apply list_elem_of_In, H in Hin. by rewrite N.eqb_refl in Hin.
Qed.

Lemma inert_app a b : inert a → inert b → inert (a ++ b).
Proof. intros. by apply Forall_app. Qed.

Lemma inert_head s : inert s → ∀ t', s ≠ STAR :: t'.
Proof. intros H t' ->. by apply Forall_cons in H as [? _]. Qed.

(** X22: in a text that has no other markup, two stars around a piece of
    one line make it bold: the piece is wrapped in [strong] tags, and the
    text around it is only escaped. *)
Theorem parseMarkdown_bold_span (a g b : jsstring) :
  inert a → inert g → inert b → one_line g → g ≠ [] →
  parseMarkdown (a ++ lit "**" ++ g ++ lit "**" ++ b)
  = escape a ++ lit "<strong>" ++ escape g ++ lit "</strong>" ++ escape b.
Proof.
  intros Ha Hg Hb Hl Hne.
  rewrite parseMarkdown_steps by (by destruct a).
  rewrite !escape_app. change (escape (lit "**")) with (lit "**").
  apply escape_inert in Ha, Hg, Hb. apply escape_one_line in Hl.
  apply escape_nonempty in Hne.
  set (A := escape a) in *. set (G := escape g) in *. set (B := escape b) in *.
  assert (replace_all bold_at (A ++ lit "**" ++ G ++ lit "**" ++ B)
          = A ++ lit "<strong>" ++ G ++ lit "</strong>" ++ B) as ->.
  { unfold replace_all. rewrite replace_from_prefix.
    2:{ intros b0 c u Hc. apply bold_at_none. intros ->.
        by apply (inert_not STAR A). }
    rewrite (replace_from_some _ bold_ok _ _ _ _ (bold_at_span _ G B Hne Hl
               (inert_not STAR G eq_refl Hg))).
    rewrite bold_id by by apply inert_not.
    by rewrite <- !app_assoc. }
  assert (inert (A ++ lit "<strong>" ++ G ++ lit "</strong>" ++ B)) as Hi.
  { repeat apply inert_app; try done; by repeat constructor. }
  by destruct (inert_passes _ Hi) as (_ & -> & -> & -> & ->).
Qed.

(** X23: in a text that has no other markup, two equals signs on each side
    of a piece of one line, which may be empty, highlight it: the piece
    is wrapped in [mark] tags, and the text around it is only escaped. *)
Theorem parseMarkdown_highlight_span (a g b : jsstring) :
  inert a → inert g → inert b → one_line g →
  parseMarkdown (a ++ lit "==" ++ g ++ lit "==" ++ b)
  = escape a ++ lit "<mark>" ++ escape g ++ lit "</mark>" ++ escape b.
Proof.
  intros Ha Hg Hb Hl.
  rewrite parseMarkdown_steps by (by destruct a).
  rewrite !escape_app. change (escape (lit "==")) with (lit "==").
  apply escape_inert in Ha, Hg, Hb. apply escape_one_line in Hl.
  set (A := escape a) in *. set (G := escape g) in *. set (B := escape b) in *.
  assert (STAR ∉ A ++ lit "==" ++ G ++ lit "==" ++ B) as Hstar.
  { rewrite !not_elem_of_app. repeat split; try (by apply inert_not);
      by apply not_elem_of_lit. }
  unfold replace_all. rewrite bold_id, italic_id by done.
  assert (replace_from highlight_at true 0 (A ++ lit "==" ++ G ++ lit "==" ++ B)
          = A ++ lit "<mark>" ++ G ++ lit "</mark>" ++ B) as ->.
  { rewrite replace_from_prefix.
    2:{ intros b0 c u Hc. apply highlight_at_none. intros ->.
        by apply (inert_not EQUALS A). }
    rewrite (replace_from_some _ highlight_ok _ _ _ _ (highlight_at_span _ G B Hl
               (inert_not EQUALS G eq_refl Hg))).
    rewrite highlight_id by by apply inert_not.
    by rewrite <- !app_assoc. }
  assert (inert (A ++ lit "<mark>" ++ G ++ lit "</mark>" ++ B)) as Hi.
  { repeat apply inert_app; try done; by repeat constructor. }
  destruct (inert_passes _ Hi) as (_ & _ & _ & Hlink & Htab).
  unfold replace_all in Hlink. by rewrite Hlink, Htab.
Qed.


Lemma italic_prefix a c t :
  STAR ∉ a → c ≠ STAR →
  ∀ b, replace_from italic_at b 0 (a ++ c :: t)
       = a ++ replace_from italic_at (match a with [] => b | _ => false end) 0
               (c :: t).
Proof.
  induction a as [|x a IH]; intros Ha Hc b; [done|].
  apply not_elem_of_cons in Ha as [Hx Ha].
  rewrite <- !app_comm_cons. rewrite replace_from_none.
  - f_equal. rewrite IH by done. by destruct a.
  - apply italic_at_none; [done|]. intros t' H.
    destruct a as [|y a]; simpl in H; injection H as -> _; [done|].
    apply Ha, list_elem_of_here.
Qed.

Lemma italic_at_start g rest :
  g ≠ [] → one_line g → STAR ∉ g → (∀ t', rest ≠ STAR :: t') →
  italic_at true (lit "*" ++ g ++ lit "*" ++ rest)
  = Some (lit "<em>" ++ g ++ lit "</em>", rest).
Proof.
  intros Hne Hl Hs Hr. unfold italic_at.
  by rewrite (italic_body_span [] g rest).
Qed.

Lemma italic_at_after b c g rest :
  c ≠ STAR →
  g ≠ [] → one_line g → STAR ∉ g → (∀ t', rest ≠ STAR :: t') →
  italic_at b (c :: lit "*" ++ g ++ lit "*" ++ rest)
  = Some (c :: lit "<em>" ++ g ++ lit "</em>", rest).
Proof.
  intros Hc Hne Hl Hs Hr. unfold italic_at.
  assert ((if b then italic_body [] (c :: lit "*" ++ g ++ lit "*" ++ rest)
           else None) = None) as ->.
  { destruct b; [|done]. unfold italic_body. by rewrite lone_star_none. }
  apply N.eqb_neq in Hc. rewrite Hc.
  by rewrite (italic_body_span [c] g rest).
Qed.

(** X24: in a text that has no other markup, one star on each side of a
    piece of one line makes it italic: the piece is wrapped in [em] tags,
    and the text around it is only escaped. *)
Theorem parseMarkdown_italic_span (a g b : jsstring) :
  inert a → inert g → inert b → one_line g → g ≠ [] →
  parseMarkdown (a ++ lit "*" ++ g ++ lit "*" ++ b)
  = escape a ++ lit "<em>" ++ escape g ++ lit "</em>" ++ escape b.
Proof.
  intros Ha Hg Hb Hl Hne.
  rewrite parseMarkdown_steps by (by destruct a).
  rewrite !escape_app. change (escape (lit "*")) with (lit "*").
  apply escape_inert in Ha, Hg, Hb. apply escape_one_line in Hl.
  apply escape_nonempty in Hne.
  set (A := escape a) in *. set (G := escape g) in *. set (B := escape b) in *.
  pose proof (inert_not STAR A eq_refl Ha) as HsA.
  pose proof (inert_not STAR G eq_refl Hg) as HsG.
  pose proof (inert_not STAR B eq_refl Hb) as HsB.
  unfold replace_all.
  (* the bold pass finds no pair of stars *)
  assert (∀ b0, replace_from bold_at b0 0 (A ++ lit "*" ++ G ++ lit "*" ++ B)
                = A ++ lit "*" ++ G ++ lit "*" ++ B) as ->.
  { intros b0. rewrite replace_from_prefix.
    2:{ intros b1 c u Hc. apply bold_at_none. by intros ->. }
    f_equal. change (lit "*" ++ G ++ lit "*" ++ B) with (STAR :: (G ++ STAR :: B)).
    rewrite replace_from_none.
    2:{ destruct G as [|x G']; [done|]. unfold bold_at.
        change (lit "**") with [STAR; STAR]. cbn [expect app].
        rewrite N.eqb_refl.
        assert ((STAR =? x) = false) as ->; [|done].
        apply N.eqb_neq. intros <-. apply HsG, list_elem_of_here. }
    f_equal. rewrite replace_from_prefix.
    2:{ intros b1 c u Hc. apply bold_at_none. by intros ->. }
    f_equal. rewrite replace_from_none.
    2:{ unfold bold_at. change (lit "**") with [STAR; STAR]. cbn [expect].
        rewrite N.eqb_refl. destruct B as [|x B']; [done|].
        assert ((STAR =? x) = false) as ->; [|done].
        apply N.eqb_neq. intros <-. apply HsB, list_elem_of_here. }
    f_equal. by apply bold_id. }
  assert (replace_from italic_at true 0 (A ++ lit "*" ++ G ++ lit "*" ++ B)
          = A ++ lit "<em>" ++ G ++ lit "</em>" ++ B) as ->.
  { destruct (decide (A = [])) as [->|HA].
    - rewrite !app_nil_l.
      rewrite (replace_from_some _ italic_ok _ _ _ _
                 (italic_at_start G B Hne Hl HsG (inert_head B Hb))).
      rewrite italic_id by done. by rewrite <- !app_assoc.
    - destruct (exists_last HA) as (A' & c & HA').
      assert ((STAR ∉ A') ∧ c ≠ STAR) as [HsA' Hc].
      { rewrite HA' in HsA. apply not_elem_of_app in HsA as [? H].
        split; [done|]. intros ->. apply H, list_elem_of_here. }
      rewrite HA', <- !app_assoc.
      change ([c] ++ lit "*" ++ G ++ lit "*" ++ B)
        with (c :: lit "*" ++ G ++ lit "*" ++ B).
      rewrite italic_prefix by done.
      rewrite (replace_from_some _ italic_ok _ _ _ _
                 (italic_at_after _ c G B Hc Hne Hl HsG (inert_head B Hb))).
      rewrite italic_id by done. f_equal.
      rewrite <- app_comm_cons. by rewrite <- !app_assoc. }
  assert (inert (A ++ lit "<em>" ++ G ++ lit "</em>" ++ B)) as Hi.
  { repeat apply inert_app; try done; by repeat constructor. }
  destruct (inert_passes _ Hi) as (_ & _ & Hh & Hlink & Htab).
  unfold replace_all in Hh, Hlink. by rewrite Hh, Hlink, Htab.
Qed.


(** *** Links *)

Lemma greedy_run1_all p s g rest :
  greedy_run1 p s = Some (g, rest) → Forall (λ c, p c = true) g.
Proof.
  unfold greedy_run1. pose proof (take_while_all p s) as H.
  destruct (take_while p s); [done|]. by intros [= <- _].
Qed.

Lemma greedy_run1_found p g c t :
  g ≠ [] → Forall (λ x, p x = true) g → p c = false →
  greedy_run1 p (g ++ c :: t) = Some (g, c :: t).
Proof.
  intros Hne Hg Hc. unfold greedy_run1.
  assert (take_while p (g ++ c :: t) = g ∧ drop_while p (g ++ c :: t) = c :: t)
    as [-> ->].
  { clear Hne. induction Hg as [|x g Hx Hg [IH1 IH2]]; simpl.
    - by rewrite Hc.
    - rewrite Hx. by rewrite IH1, IH2. }
  by destruct g.
Qed.

Lemma replace_char_absent c r s : c ∉ s → replace_char c r s = s.
Proof.
  intros Hs. unfold replace_char, replace_all. apply replace_from_id.
  intros b x t Hx. simpl. destruct (x =? c) eqn:E; [|done].
  apply N.eqb_eq in E as ->. done.
Qed.

Lemma replace_char_removes c r s : c ∉ r → c ∉ replace_char c r s.
Proof.
  intros Hr. rewrite replace_char_bind. intros Hin.
  apply list_elem_of_bind in Hin as (y & Hin & _).
  destruct (y =? c) eqn:E; [done|].
  apply list_elem_of_singleton in Hin as ->. by rewrite N.eqb_refl in E.
Qed.

Lemma url_char_spec c :
  url_char c = true ↔ is_space c = false ∧ c ≠ RPAREN ∧ c ≠ QUOTE.
Proof.
  unfold url_char. rewrite !andb_true_iff, !negb_true_iff, !N.eqb_neq. tauto.
Qed.

(** What a match of the link pattern is made of. *)
Lemma link_at_parts b s r rest :
  link_at b s = Some (r, rest) →
  ∃ text scheme tail,
    (scheme = lit "http://" ∨ scheme = lit "https://")
    ∧ text ≠ [] ∧ (RBRACK ∉ text)
    ∧ tail ≠ [] ∧ Forall (λ c, url_char c = true) tail
    ∧ s = lit "[" ++ text ++ lit "](" ++ (scheme ++ tail) ++ lit ")" ++ rest
    ∧ r = link_head ++ (scheme ++ tail) ++ link_attrs
          ++ replace_char QUOTE (lit "&quot;") text ++ lit "</a>".
Proof.
  unfold link_at. intros H.
  apply bind_Some in H as (s1 & E1 & H).
  apply bind_Some in H as ([text s2] & E2 & H).
  apply bind_Some in H as (s3 & E3 & H).
  apply bind_Some in H as (s4 & E4 & H).
  apply bind_Some in H as ([scheme s5] & E5 & H).
  apply bind_Some in H as ([tail s6] & E6 & H).
  apply bind_Some in H as (rest' & E7 & [= <- <-]).
  apply expect_spec in E1, E3, E4, E7.
  pose proof (greedy_run1_all _ _ _ _ E2) as Ht.
  pose proof (greedy_run1_all _ _ _ _ E6) as Hu.
  apply greedy_run1_spec in E2 as [E2 Hne2], E6 as [E6 Hne6].
  assert (∃ sch, s4 = sch ++ s5 ∧ scheme = lit "http" ++ sch
                 ∧ (sch = lit "://" ∨ sch = lit "s://")) as (sch & E & Hsch & Hs).
  { destruct (expect (lit "s://") s4) as [s5'|] eqn:E.
    - injection E5 as <- <-. apply expect_spec in E. exists (lit "s://"). eauto.
    - apply bind_Some in E5 as (s5' & E5 & [= <- <-]).
      apply expect_spec in E5. exists (lit "://"). eauto. }
  clear E5. subst. exists text, (lit "http" ++ sch), tail.
  split; [destruct Hs as [-> | ->]; eauto|].
  split; [done|]. split.
  { intros Hin. rewrite Forall_forall in Ht. specialize (Ht _ Hin). done. }
  split; [done|]. split; [done|].
  assert (QUOTE ∉ (lit "http" ++ sch) ++ tail) as Hq.
  { apply not_elem_of_app. split.
    - destruct Hs as [-> | ->]; by apply not_elem_of_lit.
    - intros Hin. rewrite Forall_forall in Hu. specialize (Hu _ Hin). done. }
  split.
  - rewrite <- !app_assoc. reflexivity.
  - rewrite (replace_char_absent _ _ _ Hq).
    unfold link_head, link_attrs. rewrite <- !app_assoc. reflexivity.
Qed.

(** X25: whatever the link pattern matches, the anchor that replaces it
    has an [href] that is the address as written, beginning with
    [http://] or [https://] and without white space, a closing
    parenthesis or a double quote, and a text without a double quote:
    neither can close an attribute or the tag. *)
Theorem link_at_writes_a_safe_anchor
    (b : bool) (s r rest : jsstring) :
  link_at b s = Some (r, rest) →
  ∃ text url,
    s = lit "[" ++ text ++ lit "](" ++ url ++ lit ")" ++ rest
    ∧ r = link_head ++ url ++ link_attrs
          ++ replace_char QUOTE (lit "&quot;") text ++ lit "</a>"
    ∧ (starts_with (lit "http://") url = true
       ∨ starts_with (lit "https://") url = true)
    ∧ Forall (λ c, is_space c = false ∧ c ≠ RPAREN ∧ c ≠ QUOTE) url
    ∧ QUOTE ∉ replace_char QUOTE (lit "&quot;") text.
Proof.
  intros H. apply link_at_parts in H
    as (text & scheme & tail & Hs & _ & _ & _ & Hu & -> & ->).
  exists text, (scheme ++ tail). split; [done|]. split; [done|].
  split; [|split].
  - destruct Hs as [-> | ->]; [left|right];
      apply starts_with_spec; by eexists.
  - apply Forall_app. split.
    + destruct Hs as [-> | ->]; by repeat constructor.
    + eapply Forall_impl; [exact Hu|]. intros c. apply url_char_spec.
  - apply replace_char_removes. by apply not_elem_of_lit.
Qed.

Lemma link_at_span b text (secure : bool) tail rest :
  text ≠ [] → RBRACK ∉ text →
  tail ≠ [] → Forall (λ c, url_char c = true) tail →
  let scheme := lit (if secure then "https://" else "http://") in
  link_at b (lit "[" ++ text ++ lit "](" ++ (scheme ++ tail) ++ lit ")" ++ rest)
  = Some (link_head ++ (scheme ++ tail) ++ link_attrs
            ++ replace_char QUOTE (lit "&quot;") text ++ lit "</a>", rest).
Proof.
  intros Hne Ht Hne' Hu scheme. unfold link_at.
  rewrite expect_app. cbn [mbind option_bind].
  change (lit "](" ++ (scheme ++ tail) ++ lit ")" ++ rest)
    with (RBRACK :: (lit "(" ++ (scheme ++ tail) ++ lit ")" ++ rest)).
  rewrite greedy_run1_found; [|done| |by rewrite N.eqb_refl].
  2:{ apply Forall_forall. intros c Hc. apply negb_true_iff, N.eqb_neq.
      by intros ->. }
  cbn [mbind option_bind].
  change (RBRACK :: (lit "(" ++ (scheme ++ tail) ++ lit ")" ++ rest))
    with (lit "](" ++ (scheme ++ tail) ++ lit ")" ++ rest).
  rewrite expect_app. cbn [mbind option_bind].
  assert (QUOTE ∉ scheme ++ tail) as Hq.
  { apply not_elem_of_app. split.
    - subst scheme. destruct secure; by apply not_elem_of_lit.
    - intros Hin. rewrite Forall_forall in Hu. specialize (Hu _ Hin).
      by apply url_char_spec in Hu as (_ & _ & ?). }
  assert (∀ sch : jsstring,
            sch ++ tail ++ lit ")" ++ rest
            = sch ++ (tail ++ RPAREN :: rest)) as Hre by done.
  destruct secure; subst scheme.
  - change (lit "https://") with (lit "http" ++ lit "s://") in *.
    rewrite <- !app_assoc. rewrite expect_app. cbn [mbind option_bind].
    rewrite expect_app. cbn [mbind option_bind].
    change (tail ++ lit ")" ++ rest) with (tail ++ RPAREN :: rest).
    rewrite greedy_run1_found by done. cbn [mbind option_bind].
    change (RPAREN :: rest) with (lit ")" ++ rest). rewrite expect_app.
    cbn [mbind option_bind]. rewrite <- !app_assoc in Hq.
    rewrite !(replace_char_absent QUOTE (lit "%22")) by (by rewrite <- !app_assoc).
    unfold link_head, link_attrs. rewrite <- !app_assoc. reflexivity.
  - change (lit "http://") with (lit "http" ++ lit "://") in *.
    rewrite <- !app_assoc. rewrite expect_app. cbn [mbind option_bind].
    assert (expect (lit "s://") (lit "://" ++ tail ++ lit ")" ++ rest) = None)
      as -> by done.
    rewrite expect_app. cbn [mbind option_bind].
    change (tail ++ lit ")" ++ rest) with (tail ++ RPAREN :: rest).
    rewrite greedy_run1_found by done. cbn [mbind option_bind].
    change (RPAREN :: rest) with (lit ")" ++ rest). rewrite expect_app.
    cbn [mbind option_bind].
    rewrite !(replace_char_absent QUOTE (lit "%22")) by (by rewrite <- !app_assoc).
    unfold link_head, link_attrs. rewrite <- !app_assoc. reflexivity.
Qed.


Lemma replace_char_keeps (P : N → Prop) c r s :
  Forall P r → Forall P s → Forall P (replace_char c r s).
Proof.
  intros Hr Hs. rewrite replace_char_bind. apply Forall_forall. intros x Hx.
  apply list_elem_of_bind in Hx as (y & Hx & Hy).
  destruct (y =? c).
  - rewrite Forall_forall in Hr. by apply Hr.
  - apply list_elem_of_singleton in Hx as ->.
    rewrite Forall_forall in Hs. by apply Hs.
Qed.

Lemma Forall_not_elem (c : N) (s : jsstring) : Forall (λ x, x ≠ c) s ↔ c ∉ s.
Proof.
  rewrite Forall_forall. split.
  - intros H Hin. by apply (H c).
  - intros H x Hx ->. done.
Qed.

(** X26: in a text that has no other markup, a bracketed text followed by
    an [http] or [https] address in parentheses becomes an anchor: the
    address is the [href], the tab and referrer attributes follow, the
    text is inside with its double quotes as entities, and the text
    around the link is only escaped. *)
Theorem parseMarkdown_link_span
    (a text tail b : jsstring) (secure : bool) :
  inert a → inert text → inert tail → inert b →
  text ≠ [] → RBRACK ∉ text →
  tail ≠ [] → Forall (λ c, url_char c = true) tail →
  let scheme := lit (if secure then "https://" else "http://") in
  parseMarkdown
    (a ++ lit "[" ++ text ++ lit "](" ++ (scheme ++ tail) ++ lit ")" ++ b)
  = escape a ++ link_head ++ (scheme ++ escape tail) ++ link_attrs
    ++ replace_char QUOTE (lit "&quot;") (escape text) ++ lit "</a>"
    ++ escape b.
Proof.
  intros Ha Ht Hu Hb Hne Hbr Hne' Hurl scheme.
  rewrite parseMarkdown_steps by (by destruct a).
  rewrite !escape_app.
  assert (escape scheme = scheme) as ->.
  { subst scheme. by destruct secure. }
  change (escape (lit "[")) with (lit "[").
  change (escape (lit "](")) with (lit "](").
  change (escape (lit ")")) with (lit ")").
  apply Forall_not_elem in Hbr.
  apply (escape_keeps (λ x, x ≠ RBRACK)) in Hbr; [|by repeat constructor].
  apply Forall_not_elem in Hbr.
  apply (escape_keeps (λ c, url_char c = true)) in Hurl; [|by repeat constructor].
  apply escape_inert in Ha, Ht, Hu, Hb.
  apply escape_nonempty in Hne, Hne'.
  set (A := escape a) in *. set (T := escape text) in *.
  set (U := escape tail) in *. set (B := escape b) in *.
  assert (inert scheme) as Hsch.
  { subst scheme. destruct secure; by repeat constructor. }
  set (input := A ++ lit "[" ++ T ++ lit "](" ++ (scheme ++ U) ++ lit ")" ++ B).
  assert ((STAR ∉ input) ∧ (EQUALS ∉ input)) as [Hstar Heq].
  { subst input. rewrite !not_elem_of_app.
    repeat split; try (by apply inert_not); by apply not_elem_of_lit. }
  unfold replace_all. rewrite bold_id, italic_id, highlight_id by done.
  subst input.
  set (anchor := link_head ++ (scheme ++ U) ++ link_attrs
                 ++ replace_char QUOTE (lit "&quot;") T ++ lit "</a>").
  assert (replace_from link_at true 0
            (A ++ lit "[" ++ T ++ lit "](" ++ (scheme ++ U) ++ lit ")" ++ B)
          = A ++ anchor ++ B) as ->.
  { rewrite replace_from_prefix.
    2:{ intros b0 c u Hc. apply link_at_none. intros ->.
        by apply (inert_not LBRACK A). }
    rewrite (replace_from_some _ link_ok _ _ _ _
               (link_at_span _ T secure U B Hne Hbr Hne' Hurl)).
    by rewrite link_id by by apply inert_not. }
  rewrite convertTables_id.
  - subst anchor. by rewrite <- !app_assoc.
  - subst anchor. unfold link_head, link_attrs.
    rewrite !not_elem_of_app.
    repeat split; try (by apply inert_not); try (by apply not_elem_of_lit).
    apply Forall_not_elem. apply replace_char_keeps; [by repeat constructor|].
    apply Forall_not_elem. by apply inert_not.
  - subst anchor. unfold link_head, link_attrs.
    rewrite !not_elem_of_app.
    repeat split; try (by apply inert_not); try (by apply not_elem_of_lit).
    apply Forall_not_elem. apply replace_char_keeps; [by repeat constructor|].
    apply Forall_not_elem. by apply inert_not.
Qed.

(** *** The tags of the output *)

Lemma opens_spec tags rest :
  opens tags rest = true ↔ ∃ tag b, tag ∈ tags ∧ rest = tag ++ b.
Proof.
  unfold opens. rewrite existsb_exists. split.
  - intros (tag & Hin & Hs). apply starts_with_spec in Hs as [b ->].
    exists tag, b. split; [by apply list_elem_of_In|done].
  - intros (tag & b & Hin & ->). exists tag. split; [by apply list_elem_of_In|].
    apply starts_with_spec. by eexists.
Qed.

Lemma opens_app tags a b : opens tags a = true → opens tags (a ++ b) = true.
Proof.
  rewrite !opens_spec. intros (tag & c & Hin & ->). exists tag, (c ++ b).
  by rewrite app_assoc.
Qed.

Lemma only_tags_app tags a b :
  only_tags tags a = true → only_tags tags b = true →
  only_tags tags (a ++ b) = true.
Proof.
  intros Ha Hb. induction a as [|c a IH]; simpl in *; [done|].
  apply andb_true_iff in Ha as [Hc Ha]. rewrite (IH Ha), andb_true_r.
  destruct (c =? LT); [by apply opens_app|done].
Qed.

Lemma only_tags_suffix tags a b :
  only_tags tags (a ++ b) = true → only_tags tags b = true.
Proof.
  induction a as [|c a IH]; simpl; [done|].
  intros H. apply andb_true_iff in H as [_ H]. by apply IH.
Qed.

Lemma only_tags_mono tags tags' s :
  (∀ tag, tag ∈ tags → tag ∈ tags') →
  only_tags tags s = true → only_tags tags' s = true.
Proof.
  intros Hsub. induction s as [|c s IH]; simpl; [done|].
  intros H. apply andb_true_iff in H as [Hc H]. rewrite (IH H), andb_true_r.
  destruct (c =? LT); [|done]. apply opens_spec in Hc as (tag & b & Hin & ->).
  apply opens_spec. exists tag, b. split; [by apply Hsub|done].
Qed.

Lemma only_tags_no_lt tags s : LT ∉ s → only_tags tags s = true.
Proof.
  induction s as [|c s IH]; [done|]. intros H.
  apply not_elem_of_cons in H as [Hc Hs]. simpl. rewrite (IH Hs), andb_true_r.
  destruct (N.eqb_spec c LT); [congruence|done].
Qed.

(** A cut at a character that no tag has leaves the tags of the part in
    front whole. *)
Lemma opens_cut tags a d b :
  (∀ tag, tag ∈ tags → d ∉ tag) →
  opens tags (a ++ d :: b) = true → opens tags a = true.
Proof.
  intros Hd. rewrite !opens_spec. intros (tag & c & Hin & Heq).
  exists tag. apply app_eq_inv in Heq as [(k & -> & Hk)|(k & -> & Hk)].
  - by exists k.
  - destruct k as [|x k].
    + exists []. rewrite !app_nil_r in *. done.
    + injection Hk as <- _. exfalso. apply (Hd _ Hin).
      apply elem_of_app. right. apply list_elem_of_here.
Qed.

Lemma only_tags_cut tags a d b :
  (∀ tag, tag ∈ tags → d ∉ tag) →
  only_tags tags (a ++ d :: b) = true → only_tags tags a = true.
Proof.
  intros Hd. induction a as [|c a IH]; simpl; [done|].
  intros H. apply andb_true_iff in H as [Hc H]. rewrite (IH H), andb_true_r.
  destruct (c =? LT); [|done]. by eapply opens_cut.
Qed.

(** White space taken off the end leaves them whole too: no tag ends in
    white space. *)
Lemma opens_strip tags x ws :
  (∀ tag, tag ∈ tags → ∃ t c, tag = t ++ [c] ∧ is_space c = false) →
  Forall (λ c, is_space c = true) ws →
  opens tags (x ++ ws) = true → opens tags x = true.
Proof.
  intros Hend Hws. rewrite !opens_spec. intros (tag & c & Hin & Heq).
  exists tag. apply app_eq_inv in Heq as [(k & -> & Hk)|(k & -> & Hk)].
  - by exists k.
  - destruct k as [|y k _] using rev_ind.
    + exists []. rewrite !app_nil_r in *. done.
    + exfalso. destruct (Hend _ Hin) as (t & e & Ht & He).
      rewrite app_assoc in Ht. apply app_inj_tail in Ht as [_ ->].
      rewrite Hk in Hws. apply Forall_app in Hws as [Hws _].
      apply Forall_app in Hws as [_ Hws]. apply Forall_cons in Hws as [Hy _].
      congruence.
Qed.

Lemma only_tags_strip tags x ws :
  (∀ tag, tag ∈ tags → ∃ t c, tag = t ++ [c] ∧ is_space c = false) →
  Forall (λ c, is_space c = true) ws →
  only_tags tags (x ++ ws) = true → only_tags tags x = true.
Proof.
  intros Hend Hws. induction x as [|c x IH]; simpl; [done|].
  intros H. apply andb_true_iff in H as [Hc H]. rewrite (IH H), andb_true_r.
  destruct (c =? LT); [|done]. by eapply opens_strip.
Qed.


Lemma only_tags_tag tags tag s :
  tag ∈ tags → LT ∉ tag → only_tags tags s = true →
  only_tags tags (LT :: tag ++ s) = true.
Proof.
  intros Hin Hlt Hs. simpl. apply andb_true_iff. split.
  - apply opens_spec. by exists tag, s.
  - apply only_tags_app; [by apply only_tags_no_lt|done].
Qed.

(** The tags of the spans are made of plain characters. *)
Lemma span_tags_plain tag : tag ∈ span_tags → plain tag ∧ tag ≠ [].
Proof.
  unfold span_tags. intros H.
  repeat (apply elem_of_cons in H as [->|H];
          [split; [by repeat constructor|done]|]).
  by apply elem_of_nil in H.
Qed.

Lemma span_tags_own tag : tag ∈ span_tags → tag ∈ own_tags.
Proof. intros H. unfold own_tags. apply elem_of_app. by left. Qed.

Lemma only_tags_piece pre g ds rest :
  delimiter ds →
  only_tags span_tags (pre ++ g ++ ds ++ rest) = true →
  only_tags span_tags g = true.
Proof.
  intros [Hne Hds] H. apply only_tags_suffix in H.
  destruct ds as [|d ds]; [done|]. apply Forall_cons in Hds as [Hd _].
  eapply only_tags_cut; [|exact H].
  intros tag Htag. apply plain_not_special; [|done].
  by apply span_tags_plain.
Qed.

(** *** A pass over a text with the tags of the spans *)

Section Pass.
Context (m : matcher) (Hok : matcher_ok m).
Context (tags' : list jsstring).
Context (Hsub : ∀ tag, tag ∈ span_tags → tag ∈ tags').
Context (Hrep : ∀ b s r rest, m b s = Some (r, rest) →
                  only_tags span_tags s = true → only_tags tags' r = true).

Lemma replace_from_only_tags s : ∀ b,
  only_tags span_tags s = true → only_tags tags' (replace_from m b 0 s) = true.
Proof.
  induction (Nat.lt_wf_0_projected length s) as [s _ IH]. intros b Hs.
  destruct s as [|c s]; [done|].
  destruct (m b (c :: s)) as [[r rest]|] eqn:Hm.
  - rewrite (replace_from_some _ Hok _ _ _ _ Hm).
    destruct (m_suffix m Hok _ _ _ _ Hm) as (x & Hx & Hs').
    apply only_tags_app; [by eapply Hrep|].
    apply IH.
    + rewrite Hs', length_app. destruct x; [done|simpl; lia].
    + rewrite Hs' in Hs. by apply only_tags_suffix in Hs.
  - rewrite replace_from_none by done. cbn [only_tags] in *.
    apply andb_true_iff in Hs as [Hc Hs]. apply andb_true_iff. split.
    + destruct (c =? LT); [|done].
      apply opens_spec in Hc as (tag & t & Htag & ->).
      destruct (replace_from_plain_prefix _ Hok tag t false) as [o Ho];
        [by apply span_tags_plain|].
      rewrite Ho. apply opens_spec. exists tag, o. split; [by apply Hsub|done].
    + apply IH; [simpl; lia|done].
Qed.

End Pass.

(** What the patterns of the spans match. *)
Lemma bold_at_spec b s r rest :
  bold_at b s = Some (r, rest) →
  ∃ g ds, delimiter ds ∧ s = lit "**" ++ g ++ ds ++ rest
          ∧ r = lit "<strong>" ++ g ++ lit "</strong>".
Proof.
  unfold bold_at. intros H.
  apply bind_Some in H as (s1 & E1 & H).
  apply bind_Some in H as ([g rest'] & E2 & [= <- <-]).
  apply expect_spec in E1 as ->.
  apply lazy_dots1_spec in E2 as (ds & Hds & ->);
    [|by apply expect_closes, (delimiter_lit2 STAR)].
  eauto 6.
Qed.

Lemma highlight_at_spec b s r rest :
  highlight_at b s = Some (r, rest) →
  ∃ g ds, delimiter ds ∧ s = lit "==" ++ g ++ ds ++ rest
          ∧ r = lit "<mark>" ++ g ++ lit "</mark>".
Proof.
  unfold highlight_at. intros H.
  apply bind_Some in H as (s1 & E1 & H).
  apply bind_Some in H as ([g rest'] & E2 & [= <- <-]).
  apply expect_spec in E1 as ->.
  apply lazy_dots_spec in E2 as (ds & Hds & ->);
    [|by apply expect_closes, (delimiter_lit2 EQUALS)].
  eauto 6.
Qed.

Lemma italic_at_spec b s r rest :
  italic_at b s = Some (r, rest) →
  ∃ pre g ds, delimiter ds ∧ s = pre ++ [STAR] ++ g ++ ds ++ rest
              ∧ r = pre ++ lit "<em>" ++ g ++ lit "</em>"
              ∧ (pre = [] ∨ ∃ c, pre = [c]).
Proof.
  unfold italic_at.
  destruct (if b then italic_body [] s else None) as [[r0 rest0]|] eqn:E.
  - intros [= <- <-]. destruct b; [|done].
    apply italic_body_spec in E as (g & ds & Hds & -> & ->).
    exists [], g, ds. eauto.
  - destruct s as [|c s]; [done|]. destruct (c =? STAR); [done|].
    intros H. apply italic_body_spec in H as (g & ds & Hds & -> & ->).
    exists [c], g, ds. eauto 6.
Qed.

Lemma bold_only_tags s :
  only_tags span_tags s = true →
  only_tags span_tags (replace_all bold_at s) = true.
Proof.
  apply (replace_from_only_tags _ bold_ok span_tags); [done|].
  intros b s0 r rest H Hs.
  destruct (bold_at_spec _ _ _ _ H) as (g & ds & Hds & -> & ->).
  apply only_tags_piece in Hs; [|done].
  apply (only_tags_app _ (lit "<strong>")); [done|]. by apply only_tags_app.
Qed.

Lemma highlight_only_tags s :
  only_tags span_tags s = true →
  only_tags span_tags (replace_all highlight_at s) = true.
Proof.
  apply (replace_from_only_tags _ highlight_ok span_tags); [done|].
  intros b s0 r rest H Hs.
  destruct (highlight_at_spec _ _ _ _ H) as (g & ds & Hds & -> & ->).
  apply only_tags_piece in Hs; [|done].
  apply (only_tags_app _ (lit "<mark>")); [done|]. by apply only_tags_app.
Qed.

Lemma italic_only_tags s :
  only_tags span_tags s = true →
  only_tags span_tags (replace_all italic_at s) = true.
Proof.
  apply (replace_from_only_tags _ italic_ok span_tags); [done|].
  intros b s0 r rest H Hs.
  destruct (italic_at_spec _ _ _ _ H) as (pre & g & ds & Hds & -> & -> & _).
  assert (only_tags span_tags pre = true) as Hpre.
  { eapply (only_tags_cut _ pre STAR); [|exact Hs].
    intros tag Htag. apply plain_not_special; [|done]. by apply span_tags_plain. }
  rewrite (app_assoc pre [STAR]) in Hs.
  apply (only_tags_piece (pre ++ [STAR])) in Hs; [|done].
  apply only_tags_app; [done|].
  apply (only_tags_app _ (lit "<em>")); [done|]. by apply only_tags_app.
Qed.

Lemma quote_only_tags r s :
  LT ∉ r →
  only_tags span_tags s = true →
  only_tags span_tags (replace_char QUOTE r s) = true.
Proof.
  intros Hr. unfold replace_char, replace_all.
  apply (replace_from_only_tags _ (char_ok QUOTE r eq_refl (tags_ok_no_lt _ Hr))
           span_tags); [done|].
  intros b s0 r0 rest H _. destruct s0 as [|x s0]; [done|]. simpl in H.
  destruct (x =? QUOTE); [|done]. injection H as <- _.
  by apply only_tags_no_lt.
Qed.

Lemma link_only_tags s :
  only_tags span_tags s = true →
  only_tags own_tags (replace_all link_at s) = true.
Proof.
  apply (replace_from_only_tags _ link_ok own_tags); [apply span_tags_own|].
  intros b s0 r rest H Hs.
  destruct (link_at_parts _ _ _ _ H)
    as (text & scheme & tail & Hsch & _ & _ & _ & _ & -> & ->).
  assert (delimiter (lit "](")) as Hd2 by (split; [done|by repeat constructor]).
  assert (delimiter (lit ")")) as Hd3 by by apply (delimiter_lit1 RPAREN).
  pose proof (only_tags_piece (lit "[") text (lit "](") _ Hd2 Hs) as Ht.
  rewrite <- (app_assoc scheme tail) in Hs.
  rewrite (app_assoc text), (app_assoc (lit "[")), (app_assoc _ scheme) in Hs.
  pose proof (only_tags_piece _ tail (lit ")") _ Hd3 Hs) as Hu.
  assert (only_tags own_tags
            (tail ++ link_attrs ++ replace_char QUOTE (lit "&quot;") text
               ++ lit "</a>") = true) as Hrest.
  { apply only_tags_app; [by eapply only_tags_mono; [apply span_tags_own|]|].
    apply (only_tags_app _ link_attrs); [done|].
    apply only_tags_app; [|done].
    eapply only_tags_mono; [apply span_tags_own|].
    apply quote_only_tags; [by apply not_elem_of_lit|done]. }
  unfold link_head. rewrite <- !app_assoc.
  destruct Hsch as [-> | ->].
  - apply (only_tags_tag own_tags (anchor_tag "http://")) in Hrest;
      [|unfold own_tags; set_solver|by apply not_elem_of_lit].
    unfold anchor_tag in Hrest. by rewrite <- !app_assoc in Hrest.
  - apply (only_tags_tag own_tags (anchor_tag "https://")) in Hrest;
      [|unfold own_tags; set_solver|by apply not_elem_of_lit].
    unfold anchor_tag in Hrest. by rewrite <- !app_assoc in Hrest.
Qed.


(** *** The table pass *)

(** No tag has a line feed, a carriage return or a pipe, and none ends in
    white space. *)
Lemma own_tags_chars tag :
  tag ∈ own_tags →
  (LF ∉ tag) ∧ (CR ∉ tag) ∧ (PIPE ∉ tag)
  ∧ ∃ t c, tag = t ++ [c] ∧ is_space c = false.
Proof.
  unfold own_tags, span_tags. intros H.
  repeat (apply elem_of_cons in H as [->|H];
          [repeat split; try (by apply not_elem_of_lit);
           match goal with
           | |- ∃ t c, ?tag = _ ∧ _ =>
               exists (removelast tag), (List.last tag 0); by vm_compute
           end|]).
  by apply elem_of_nil in H.
Qed.

Lemma only_tags_cut_own a d b :
  d = LF ∨ d = CR ∨ d = PIPE →
  only_tags own_tags (a ++ d :: b) = true → only_tags own_tags a = true.
Proof.
  intros Hd. apply only_tags_cut. intros tag Htag.
  destruct (own_tags_chars tag Htag) as (H1 & H2 & H3 & _).
  by destruct Hd as [->|[->| ->]].
Qed.

Lemma split_lines_breaks s :
  ∃ l, (split_lines s = [l] ∧ s = l)
       ∨ ∃ sep rest, (sep = [LF] ∨ sep = [CR; LF]) ∧ s = l ++ sep ++ rest
                     ∧ split_lines s = l :: split_lines rest.
Proof.
  induction s as [|c s IH]; [exists []; by left|].
  rewrite split_lines_cons. destruct (N.eqb_spec c LF) as [->|Hc].
  { exists []. right. exists [LF], s. split; [by left|done]. }
  destruct s as [|d s]; [exists [c]; by left|].
  destruct ((c =? CR) && (d =? LF)) eqn:E.
  { apply andb_true_iff in E as [->%N.eqb_eq ->%N.eqb_eq].
    exists []. right. exists [CR; LF], s. split; [by right|done]. }
  destruct IH as [l [[Hl <-]|(sep & rest & Hsep & Hs & Hl)]].
  - rewrite Hl. exists (c :: d :: s). by left.
  - rewrite Hl. exists (c :: l). right. exists sep, rest.
    split; [done|]. by rewrite Hs.
Qed.

Lemma split_lines_only_tags s :
  only_tags own_tags s = true →
  Forall (λ l, only_tags own_tags l = true) (split_lines s).
Proof.
  induction (Nat.lt_wf_0_projected length s) as [s _ IH]. intros Hs.
  destruct (split_lines_breaks s) as [l [[-> <-]|(sep & rest & Hsep & -> & ->)]].
  - by repeat constructor.
  - constructor.
    + destruct Hsep as [-> | ->]; simpl in Hs;
        (eapply only_tags_cut_own; [|exact Hs]); auto.
    + apply IH.
      * rewrite !length_app. destruct Hsep as [-> | ->]; simpl; lia.
      * rewrite app_assoc in Hs. by apply only_tags_suffix in Hs.
Qed.

Lemma join_only_tags ls :
  Forall (λ l, only_tags own_tags l = true) ls →
  only_tags own_tags (join [LF] ls) = true.
Proof.
  induction 1 as [|l ls Hl _ IH]; [done|].
  rewrite join_cons. destruct ls; [done|].
  apply only_tags_app; [done|]. by apply (only_tags_app _ [LF]).
Qed.

Lemma concat_only_tags ls :
  Forall (λ l, only_tags own_tags l = true) ls →
  only_tags own_tags (concat ls) = true.
Proof.
  induction 1 as [|l ls Hl _ IH]; [done|]. simpl. by apply only_tags_app.
Qed.

Lemma trim_only_tags s :
  only_tags own_tags s = true → only_tags own_tags (trim s) = true.
Proof.
  intros Hs. destruct (trim_spec s) as (ws1 & ws2 & H & _ & H2).
  rewrite H in Hs. apply only_tags_suffix in Hs.
  eapply only_tags_strip; [|exact H2|exact Hs].
  intros tag Htag. by destruct (own_tags_chars tag Htag) as (_ & _ & _ & ?).
Qed.

Lemma split_on_only_tags s :
  only_tags own_tags s = true →
  Forall (λ l, only_tags own_tags l = true) (split_on PIPE s).
Proof.
  induction (Nat.lt_wf_0_projected length s) as [s _ IH]. intros Hs.
  destruct (split_on_spec PIPE s) as [l [[-> <-]|(rest & -> & ->)]].
  - by repeat constructor.
  - constructor; [eapply only_tags_cut_own; [|exact Hs]; eauto|]. apply IH.
    + rewrite length_app. simpl. lia.
    + by apply (only_tags_suffix _ (l ++ [PIPE])); rewrite <- app_assoc.
Qed.

Lemma row_cells_only_tags tag line :
  only_tags own_tags (lit "<" ++ lit tag ++ lit ">") = true →
  only_tags own_tags (lit "</" ++ lit tag ++ lit ">") = true →
  only_tags own_tags line = true →
  only_tags own_tags (row_cells tag line) = true.
Proof.
  intros H1 H2 Hl. rewrite row_cells_cells. apply concat_only_tags.
  apply Forall_fmap. eapply Forall_impl.
  - apply slice_1_m1_keeps, (split_on_only_tags line Hl).
  - intros c Hc. cbv beta in Hc. unfold compose, cell.
    rewrite (app_assoc (lit "<")), (app_assoc _ (lit ">")).
    apply only_tags_app; [by rewrite <- app_assoc|].
    apply only_tags_app; [by apply trim_only_tags|done].
Qed.

Lemma processTable_only_tags buffer :
  Forall (λ l, only_tags own_tags l = true) buffer →
  only_tags own_tags (processTable buffer) = true.
Proof.
  intros Hb. destruct (processTable_cases buffer)
    as [->|(h & sepl & data & -> & _ & ->)]; [by apply join_only_tags|].
  apply Forall_cons in Hb as [Hh Hb]. apply Forall_cons in Hb as [_ Hd].
  repeat apply only_tags_app; try done.
  - by apply row_cells_only_tags.
  - apply concat_only_tags, Forall_fmap. eapply Forall_impl; [exact Hd|].
    intros l Hl. unfold compose. cbv beta. repeat apply only_tags_app; try done.
    by apply row_cells_only_tags.
Qed.

Lemma table_loop_only_tags lines : ∀ output buffer,
  Forall (λ l, only_tags own_tags l = true) lines →
  Forall (λ l, only_tags own_tags l = true) output →
  Forall (λ l, only_tags own_tags l = true) buffer →
  Forall (λ l, only_tags own_tags l = true) (table_loop lines output buffer).1
  ∧ Forall (λ l, only_tags own_tags l = true) (table_loop lines output buffer).2.
Proof.
  induction lines as [|line lines IH]; intros output buffer Hl Ho Hb; [done|].
  apply Forall_cons in Hl as [Hline Hl]. simpl.
  destruct (is_table_line line && (length buffer =? 0)%nat).
  { apply IH; try done. apply Forall_app. by repeat constructor. }
  destruct (0 <? length buffer)%nat.
  - destruct (is_table_line line).
    + apply IH; try done. apply Forall_app. by repeat constructor.
    + apply IH; [exact Hl| |constructor].
      apply Forall_app. split; [done|]. constructor; [|by repeat constructor].
      by apply processTable_only_tags.
  - apply IH; try done. apply Forall_app. by repeat constructor.
Qed.

Lemma convertTables_only_tags text :
  only_tags own_tags text = true →
  only_tags own_tags (convertTables text) = true.
Proof.
  intros Ht. unfold convertTables.
  pose proof (table_loop_only_tags (split_lines text) [] []
                (split_lines_only_tags text Ht) ltac:(constructor)
                ltac:(constructor)) as [Ho Hb].
  destruct (table_loop (split_lines text) [] []) as [output buffer].
  simpl in *. apply join_only_tags.
  destruct (0 <? length buffer)%nat; [|done].
  apply Forall_app. split; [done|]. constructor; [|constructor].
  by apply processTable_only_tags.
Qed.

Lemma parseMarkdown_only_tags md : only_tags own_tags (parseMarkdown md) = true.
Proof.
  destruct md as [|c md]; [done|]. rewrite parseMarkdown_steps by done.
  apply convertTables_only_tags, link_only_tags, highlight_only_tags,
    italic_only_tags, bold_only_tags.
  apply only_tags_no_lt, escape_no_lt.
Qed.

(** X27: whatever the input, an opening angle bracket of the output is
    immediately followed by one of the tags that the formatter writes
    itself, in full: [strong>], [em>], [mark>], the tags of a table,
    their closing forms and [/a>], or the head of an anchor up to the
    scheme of its address, [a href="http://] or [a href="https://].  No
    other element and no anchor of another scheme is opened, and the
    bracket is never the last character. *)
Theorem parseMarkdown_opens_only_its_own_tags (md a rest : jsstring) :
  parseMarkdown md = a ++ LT :: rest →
  ∃ tag rest', tag ∈ own_tags ∧ rest = tag ++ rest'.
Proof.
  intros H. pose proof (parseMarkdown_only_tags md) as Ht. rewrite H in Ht.
  apply only_tags_suffix in Ht. cbn [only_tags] in Ht.
  apply andb_true_iff in Ht as [Ht _]. rewrite N.eqb_refl in Ht.
  by apply opens_spec.
Qed.

(** *** A block of table lines *)

Lemma split_lines_one l : one_line l → split_lines l = [l].
Proof.
  induction 1 as [|c l Hc Hl IH]; [done|]. rewrite split_lines_cons.
  unfold is_line_terminator in Hc. apply orb_false_iff in Hc as [Hc _].
  apply orb_false_iff in Hc as [Hc _]. apply orb_false_iff in Hc as [H1 H2].
  unfold LF, CR. rewrite H1, H2. destruct l as [|d l']; [done|].
  simpl andb. cbv iota. by rewrite IH.
Qed.

Lemma split_lines_line l rest :
  one_line l → split_lines (l ++ LF :: rest) = l :: split_lines rest.
Proof.
  induction 1 as [|c l Hc Hl IH].
  - rewrite app_nil_l, split_lines_cons. by rewrite N.eqb_refl.
  - rewrite <- app_comm_cons, split_lines_cons.
    unfold is_line_terminator in Hc. apply orb_false_iff in Hc as [Hc _].
    apply orb_false_iff in Hc as [Hc _]. apply orb_false_iff in Hc as [H1 H2].
    unfold LF, CR in *. rewrite H1, H2.
    destruct (l ++ 10 :: rest) as [|d t] eqn:E; [by destruct l|].
    simpl andb. cbv iota. by rewrite IH.
Qed.

Lemma split_lines_join lines :
  lines ≠ [] → Forall one_line lines → split_lines (join [LF] lines) = lines.
Proof.
  intros Hne Hl. induction Hl as [|l lines Hl Hls IH]; [done|].
  rewrite join_cons. destruct lines as [|l2 ls].
  - by apply split_lines_one.
  - change (l ++ [LF] ++ join [LF] (l2 :: ls))
      with (l ++ LF :: join [LF] (l2 :: ls)).
    rewrite split_lines_line by done. by rewrite IH.
Qed.

(** X28: a block of lines that all look like table rows becomes a table
    when it has two lines or more and its second line is a separator
    line; otherwise it comes back as it was. *)
Theorem convertTables_block (lines : list jsstring) :
  lines ≠ [] →
  Forall one_line lines →
  Forall (λ l, is_table_line l = true) lines →
  convertTables (join [LF] lines) = processTable lines
  ∧ ((∀ h sepl data, lines = h :: sepl :: data → is_separator_line sepl = false) →
     convertTables (join [LF] lines) = join [LF] lines)
  ∧ (∀ h sepl data, lines = h :: sepl :: data → is_separator_line sepl = true →
     convertTables (join [LF] lines)
     = lit "<table>"
       ++ (lit "<thead><tr>" ++ row_cells "th" h ++ lit "</tr></thead>")
       ++ (lit "<tbody>"
           ++ concat ((λ line, lit "<tr>" ++ row_cells "td" line ++ lit "</tr>")
                      <$> data)
           ++ lit "</tbody>")
       ++ lit "</table>").
Proof.
  intros Hne Hl Ht.
  assert (convertTables (join [LF] lines) = processTable lines) as ->.
  { unfold convertTables. rewrite split_lines_join by done.
    rewrite table_loop_all_table by done. rewrite app_nil_l.
    assert ((0 <? length lines)%nat = true) as ->.
    { apply Nat.ltb_lt. destruct lines; [done|simpl; lia]. }
    by rewrite app_nil_l. }
  split; [done|]. split.
  - intros Hsep. unfold processTable.
    destruct lines as [|h [|sepl data]]; [done|done|].
    simpl Nat.ltb. cbv iota. by rewrite (Hsep h sepl data eq_refl).
  - intros h sepl data -> Hsep. unfold processTable.
    simpl Nat.ltb. cbv iota. by rewrite Hsep.
Qed.


(** *** The properties at work *)

Lemma parseMarkdown_plain_text_witness :
  parseMarkdown (lit "if a < b then a -> b") = lit "if a &lt; b then a -&gt; b".
Proof.
  rewrite (parseMarkdown_plain_text (lit "if a < b then a -> b")).
  - reflexivity.
  - by repeat constructor.
Defined.

Lemma parseMarkdown_bold_span_witness :
  parseMarkdown (lit "so " ++ lit "**" ++ lit "a < b" ++ lit "**" ++ lit ", then")
  = lit "so <strong>a &lt; b</strong>, then".
Proof.
  rewrite (parseMarkdown_bold_span (lit "so ") (lit "a < b") (lit ", then"));
    [reflexivity|by repeat constructor..|done].
Defined.

Lemma parseMarkdown_italic_span_witness :
  parseMarkdown (lit "so " ++ lit "*" ++ lit "a < b" ++ lit "*" ++ lit ", then")
  = lit "so <em>a &lt; b</em>, then".
Proof.
  rewrite (parseMarkdown_italic_span (lit "so ") (lit "a < b") (lit ", then"));
    [reflexivity|by repeat constructor..|done].
Defined.

Lemma parseMarkdown_highlight_span_witness :
  parseMarkdown (lit "so " ++ lit "==" ++ [] ++ lit "==" ++ lit ", then")
  = lit "so <mark></mark>, then".
Proof.
  rewrite (parseMarkdown_highlight_span (lit "so ") [] (lit ", then"));
    [reflexivity|by repeat constructor..].
Defined.

Lemma parseMarkdown_link_span_witness :
  parseMarkdown
    (lit "see " ++ lit "[" ++ lit "the docs" ++ lit "]("
       ++ (lit "http://" ++ lit "example.com/a?b") ++ lit ")" ++ lit ".")
  = lit "see " ++ link_head ++ lit "http://example.com/a?b" ++ link_attrs
    ++ lit "the docs</a>.".
Proof.
  rewrite (parseMarkdown_link_span (lit "see ") (lit "the docs")
             (lit "example.com/a?b") (lit ".") false).
  - reflexivity.
  - by repeat constructor.
  - by repeat constructor.
  - by repeat constructor.
  - by repeat constructor.
  - done.
  - by apply not_elem_of_lit.
  - done.
  - by repeat constructor.
Defined.

Lemma link_at_writes_a_safe_anchor_witness :
  ∃ text url,
    lit "[a]" ++ lit "(https://b.c)" ++ lit " d"
    = lit "[" ++ text ++ lit "](" ++ url ++ lit ")" ++ lit " d"
    ∧ link_head ++ lit "https://b.c" ++ link_attrs ++ lit "a</a>"
      = link_head ++ url ++ link_attrs
          ++ replace_char QUOTE (lit "&quot;") text ++ lit "</a>"
    ∧ (starts_with (lit "http://") url = true
       ∨ starts_with (lit "https://") url = true)
    ∧ Forall (λ c, is_space c = false ∧ c ≠ RPAREN ∧ c ≠ QUOTE) url
    ∧ QUOTE ∉ replace_char QUOTE (lit "&quot;") text.
Proof.
  apply (link_at_writes_a_safe_anchor true
           (lit "[a]" ++ lit "(https://b.c)" ++ lit " d")
           (link_head ++ lit "https://b.c" ++ link_attrs ++ lit "a</a>")
           (lit " d")).
  by vm_compute.
Defined.

Lemma parseMarkdown_opens_only_its_own_tags_witness :
  let md := lit "<b> *x* [y](javascript:z)" in
  parseMarkdown md
  = lit "&lt;b&gt; " ++ LT :: lit "em>x</em> [y](javascript:z)"
  ∧ ∃ tag rest', tag ∈ own_tags
      ∧ lit "em>x</em> [y](javascript:z)" = tag ++ rest'.
Proof.
  split; [by vm_compute|].
  apply (parseMarkdown_opens_only_its_own_tags
           (lit "<b> *x* [y](javascript:z)")
           (lit "&lt;b&gt; ") (lit "em>x</em> [y](javascript:z)")).
  by vm_compute.
Defined.

Lemma convertTables_block_witness :
  let lines := [lit "| A | B |"; lit "| --- | --- |"; lit "| 1 | 2 |"] in
  convertTables (join [LF] lines)
  = lit "<table><thead><tr><th>A</th><th>B</th></tr></thead>"
    ++ lit "<tbody><tr><td>1</td><td>2</td></tr></tbody></table>"
  ∧ convertTables (join [LF] [lit "| A | B |"; lit "| 1 | 2 |"])
    = join [LF] [lit "| A | B |"; lit "| 1 | 2 |"].
Proof.
  intros lines. split.
  - destruct (convertTables_block lines) as (_ & _ & H);
      [done|by repeat constructor|by repeat constructor|].
    rewrite (H _ _ _ eq_refl eq_refl). reflexivity.
  - destruct (convertTables_block [lit "| A | B |"; lit "| 1 | 2 |"])
      as (_ & H & _);
      [done|by repeat constructor|by repeat constructor|].
    apply H. by intros h sepl data [= <- <- <-].
Defined.

End MarkdownProperties.
